(** * SentencePiece processor: a shallow embedding of
      [src/sentencepiece_processor.cc] and the properties of its
      run-length layer, encode walk, decode surface rule and special ids.

    Conventions of the embedding.

    - [std::string] / [absl::string_view] are [string] (a sequence of
      bytes, one [ascii] per byte); [std::vector<T>] is [list T].
    - [int] is a [Z] kept in the 32-bit two's-complement range by
      [wrap_int] after every arithmetic operation and conversion.
    - [size_t] values are sizes and positions of objects held in memory;
      they are natural numbers ([nat], or non-negative [Z]).
    - A C++ call has an [outcome]: it returns normally ([Ret]), returns a
      non-OK [util::Status] ([Failed]), leaves through a C++ exception
      ([Thrown]), or has no defined behaviour ([Undefined]: an access
      outside a vector, a null [unique_ptr] dereferenced).  Loops that the
      source does not bound take a [fuel] argument and answer [OutOfFuel]
      when it is used up.
    - The model, the normalizer and the protos are collaborators declared
      in other files; they are records of what the processor calls.

    The development has two parts: the embedding (with the notions the
    statements use and a small concrete processor to run it on), then the
    properties: the special ids, sampling with one candidate, the encode
    walk, the run-length layer, and the surface of a decoded piece;
    after them, further properties of the digits, of one unfolding step,
    of the spans and surfaces of encoding and decoding, of the extra
    options, of n-best encoding and of the vocabulary constraint. *)

From Stdlib Require Import ZArith List String Ascii Bool Lia DecimalString Floats.
From Stdlib Require Import Permutation.
Import ListNotations.

Local Open Scope string_scope.
Local Open Scope list_scope.
Local Open Scope Z_scope.

(* ================================================================== *)
(** * Outcomes of C++ calls                                            *)
(* ================================================================== *)

(** Modelled from the spec: [util::Status], declared outside this source
    file, with the error kinds the spec lists.  Whatever the model or the
    normalizer reports travels through [OtherError]. *)
Inductive Status : Type :=
| OkStatus
| InternalError (msg : string)
| NotFoundError (msg : string)
| InvalidArgumentError (msg : string)
| OtherError (code : Z) (msg : string).

Definition ok (s : Status) : bool :=
  match s with OkStatus => true | _ => false end.

(** The standard exceptions the run-length layer can raise. *)
Inductive exception : Type :=
| invalid_argument   (* std::stoi: no conversion *)
| out_of_range       (* std::stoi: value does not fit an int *)
| length_error.      (* std::vector::insert: more than max_size() *)

Inductive outcome (A : Type) : Type :=
| Ret (a : A)
| Failed (s : Status)
| Thrown (e : exception)
| Undefined
| OutOfFuel.

Arguments Ret {A} a.
Arguments Failed {A} s.
Arguments Thrown {A} e.
Arguments Undefined {A}.
Arguments OutOfFuel {A}.

Definition bind {A B : Type} (c : outcome A) (k : A -> outcome B) : outcome B :=
  match c with
  | Ret a => k a
  | Failed s => Failed s
  | Thrown e => Thrown e
  | Undefined => Undefined
  | OutOfFuel => OutOfFuel
  end.

Notation "x <- c ;; k" := (bind c (fun x => k))
  (at level 61, c at next level, right associativity).

(** Modelled from the spec: [RETURN_IF_ERROR(s)], a macro of [common.h]
    (not part of this source file): the first failing step ends the call
    with its status. *)
Definition RETURN_IF_ERROR {A : Type} (s : Status) (k : outcome A) : outcome A :=
  if ok s then k else Failed s.

(** Modelled from the spec: [CHECK_OR_RETURN(cond) << msg] and its
    comparing variants ([CHECK_LT_OR_RETURN], [CHECK_LE_OR_RETURN],
    [CHECK_EQ_OR_RETURN]), macros of [common.h]: an [Internal] status when
    [cond] is false. *)
Definition CHECK_OR_RETURN {A : Type} (cond : bool) (msg : string)
    (k : outcome A) : outcome A :=
  if cond then k else Failed (InternalError msg).

(** Dereferencing a [std::unique_ptr]. *)
Definition deref {A : Type} (p : option A) : outcome A :=
  match p with Some a => Ret a | None => Undefined end.

(* ================================================================== *)
(** * Machine integers and vectors                                     *)
(* ================================================================== *)

Definition INT_MAX : Z := 2147483647.
Definition INT_MIN : Z := -2147483648.

(** The value an [int] holds after an operation whose mathematical
    result is [z]. *)
Definition wrap_int (z : Z) : Z := (z + 2147483648) mod 4294967296 - 2147483648.

(** [v[i]] for an [int] index [i]: the index is converted to [size_type],
    so a negative one is far outside the vector. *)
Definition vec_at {A : Type} (v : list A) (i : Z) : outcome A :=
  if 0 <=? i then
    match nth_error v (Z.to_nat i) with
    | Some a => Ret a
    | None => Undefined
    end
  else Undefined.

(** [*(it)] for an iterator at position [it]. *)
Definition iter_deref {A : Type} (v : list A) (it : nat) : outcome A :=
  match nth_error v it with
  | Some a => Ret a
  | None => Undefined
  end.

(** [*(it - 1)]: there is nothing before [begin()]. *)
Definition iter_deref_prev {A : Type} (v : list A) (it : nat) : outcome A :=
  match it with
  | O => Undefined
  | S it' => iter_deref v it'
  end.

(** [std::find(v.begin(), v.end(), x) - v.begin()]: the position of the
    first element equal to [x], [length v] when there is none. *)
Fixpoint find_pos {A : Type} (eqb : A -> A -> bool) (x : A) (v : list A) : nat :=
  match v with
  | [] => O
  | y :: v' => if eqb y x then O else S (find_pos eqb x v')
  end.

(** [v.erase(v.begin() + first, v.begin() + last)]. *)
Definition vec_erase {A : Type} (v : list A) (first last : nat) : outcome (list A) :=
  if ((first <=? last) && (last <=? List.length v))%nat
  then Ret (firstn first v ++ skipn last v)
  else Undefined.

(** [v.insert(v.begin() + pos, count, value)] with an [int] count: the
    count is converted to [size_type], so a negative one asks for more
    than [max_size()] elements. *)
Definition vec_insert_n {A : Type} (v : list A) (pos : nat) (count : Z)
    (value : A) : outcome (list A) :=
  if count <? 0 then Thrown length_error
  else if (pos <=? List.length v)%nat
       then Ret (firstn pos v ++ repeat value (Z.to_nat count) ++ skipn pos v)
       else Undefined.

(* ================================================================== *)
(** * Run-length layer on pieces                                       *)
(* ================================================================== *)

Definition kStartRepeat : string := "(#startrepeat)".
Definition kEndRepeat : string := "(#endrepeat)".

(** [extract_each_digit]: the loop [while (x > 0) { push_back(x % 10);
    x /= 10; }].  The result lists the pushed digits in push order (least
    significant first).  An [x > 0] has at most [log2 x + 1] decimal
    digits, which bounds the loop. *)
Fixpoint extract_each_digit_loop (fuel : nat) (x : Z) : list Z :=
  match fuel with
  | O => []
  | S fuel' =>
      if 0 <? x
      then Z.rem x 10 :: extract_each_digit_loop fuel' (Z.quot x 10)
      else []
  end.

Definition extract_each_digit (x : Z) : list Z :=
  rev (extract_each_digit_loop (S (Z.to_nat (Z.log2 x))) x).

(** [std::to_string(int)]. *)
Definition to_string (d : Z) : string := NilZero.string_of_int (Z.to_int d).

(** What [rle] appends for a run of [count] copies of [piece]. *)
Definition emit_run (piece : string) (count : Z) : list string :=
  if 1 <? count
  then piece :: kStartRepeat
         :: map to_string (extract_each_digit count) ++ [kEndRepeat]
  else [piece].

(** The body of [rle]'s [for] loop, entered at a position [i] whose piece
    is [cur] with [count] copies already seen; [rest] is what follows
    [pieces[i]].  The inner [while] advances while the next piece equals
    the current one. *)
Fixpoint rle_run (cur : string) (count : Z) (rest : list string) : list string :=
  match rest with
  | [] => emit_run cur count
  | next :: rest' =>
      if String.eqb cur next
      then rle_run cur (wrap_int (count + 1)) rest'
      else emit_run cur count ++ rle_run next 1 rest'
  end.

(** [rle(pieces, tokens)]: the tokens appended to [*tokens].  The loop
    runs over the first [n] pieces, [n] being [pieces.size()] converted to
    [int]. *)
Definition rle (pieces : list string) : list string :=
  let n := wrap_int (Z.of_nat (List.length pieces)) in
  match firstn (Z.to_nat n) pieces with
  | [] => []
  | first :: rest => rle_run first 1 rest
  end.

(** [VectorToInt]: the loop over the reversed vector. *)
Fixpoint VectorToInt_loop (v : list Z) (decimal total : Z) : Z :=
  match v with
  | [] => total
  | it :: v' =>
      VectorToInt_loop v' (wrap_int (decimal * 10))
                       (wrap_int (total + wrap_int (it * decimal)))
  end.

Definition VectorToInt (v : list Z) : Z := VectorToInt_loop (rev v) 1 0.

(** [std::stoi(s)] in base 10, as [strtol] reads it: leading white space
    is skipped, one sign is accepted, the longest run of digits is
    converted and whatever follows is ignored. *)
Definition isspace (c : ascii) : bool :=
  let n := nat_of_ascii c in
  ((n =? 32) || ((9 <=? n) && (n <=? 13)))%nat.

Fixpoint skip_space (s : string) : string :=
  match s with
  | String c s' => if isspace c then skip_space s' else s
  | EmptyString => s
  end.

Definition digit_value (c : ascii) : option Z :=
  let n := Z.of_nat (nat_of_ascii c) in
  if (48 <=? n) && (n <=? 57) then Some (n - 48) else None.

Fixpoint read_digits (s : string) (acc : option Z) : option Z :=
  match s with
  | String c s' =>
      match digit_value c with
      | Some d =>
          read_digits s' (Some (10 * match acc with Some a => a | None => 0 end + d))
      | None => acc
      end
  | EmptyString => acc
  end.

Definition stoi (s : string) : outcome Z :=
  let s1 := skip_space s in
  let '(neg, s2) :=
    match s1 with
    | String "-" t => (true, t)
    | String "+" t => (false, t)
    | _ => (false, s1)
    end in
  match read_digits s2 None with
  | None => Thrown invalid_argument
  | Some v =>
      let r := if neg then - v else v in
      if (INT_MIN <=? r) && (r <=? INT_MAX) then Ret r else Thrown out_of_range
  end.

(** The loop [while (j != end_position) { num.push_back(stoi(pieces[j]));
    j++; }] of [_expand_from_pieces].  Every turn reads inside the vector
    or stops, so [S (length pieces)] turns are never used up
    ([_expand_from_pieces_fuel] below). *)
Fixpoint read_count_pieces (fuel : nat) (pieces : list string)
    (j end_position : Z) (num : list Z) : outcome (list Z) :=
  if j =? end_position then Ret num
  else
    match fuel with
    | O => OutOfFuel
    | S fuel' =>
        piece <- vec_at pieces j ;;
        d <- stoi piece ;;
        read_count_pieces fuel' pieces (wrap_int (j + 1)) end_position (num ++ [d])
    end.

(** [_expand_from_pieces].  [it1] and [it2] are the positions of the two
    iterators.  [repeat_token] is read before anything is tested.  After
    [erase] the source goes on using [it1]; a vector keeps its storage
    when it shrinks, so [it1] still denotes the same position. *)
Definition _expand_from_pieces (pieces : list string) : outcome (list string) :=
  let it1 := find_pos String.eqb kStartRepeat pieces in
  let it2 := find_pos String.eqb kEndRepeat pieces in
  let start_position := wrap_int (Z.of_nat it1) in
  let end_position := wrap_int (Z.of_nat it2) in
  repeat_token <- vec_at pieces (wrap_int (start_position - 1)) ;;
  if ((it1 <? List.length pieces) && (it2 <? List.length pieces))%nat then
    num <- read_count_pieces (S (List.length pieces)) pieces
             (wrap_int (start_position + 1)) end_position [] ;;
    let count := wrap_int (VectorToInt num - 1) in
    erased <- vec_erase pieces it1 (S it2) ;;
    vec_insert_n erased it1 count repeat_token
  else Ret pieces.

Definition has_start_marker (pieces : list string) : bool :=
  (find_pos String.eqb kStartRepeat pieces <? List.length pieces)%nat.

(** [expand_from_pieces]: [while (find(..., "(#startrepeat)") != end)
    pieces = _expand_from_pieces(pieces);]. *)
Fixpoint expand_from_pieces (fuel : nat) (pieces : list string)
  : outcome (list string) :=
  if has_start_marker pieces then
    match fuel with
    | O => OutOfFuel
    | S fuel' =>
        pieces' <- _expand_from_pieces pieces ;;
        expand_from_pieces fuel' pieces'
    end
  else Ret pieces.

(* ================================================================== *)
(** * Byte strings                                                     *)
(* ================================================================== *)

(** U+2581 (LOWER ONE EIGHTH BLOCK) in UTF-8: the bytes e2 96 81. *)
Definition kSpaceSymbol : string :=
  String "226" (String "150" (String "129" EmptyString)).

(** U+2047 between two spaces: the bytes 20 e2 81 87 20. *)
Definition kDefaultUnknownSymbol : string :=
  String " " (String "226" (String "129" (String "135" (String " " EmptyString)))).

Definition string_empty (s : string) : bool :=
  match s with EmptyString => true | String _ _ => false end.

(** [absl::string_view(p)] and [std::string(p)] for a [const char *p]
    that points at the bytes of [s]: the view ends at the first NUL. *)
Fixpoint string_view_of_c_str (s : string) : string :=
  match s with
  | EmptyString => EmptyString
  | String c s' =>
      if Ascii.eqb c Ascii.zero then EmptyString
      else String c (string_view_of_c_str s')
  end.

(** [s.remove_prefix(n)]. *)
Fixpoint remove_prefix (n : nat) (s : string) : string :=
  match n, s with
  | S n', String _ s' => remove_prefix n' s'
  | _, _ => s
  end.

(** [s.remove_suffix(n)]. *)
Definition remove_suffix (n : nat) (s : string) : string :=
  substring 0 (String.length s - n) s.

(** [absl::ConsumePrefix(&s, expected)]. *)
Definition ConsumePrefix (s expected : string) : string :=
  if prefix expected s then remove_prefix (String.length expected) s else s.

(** [absl::EndsWith(s, suffix)]. *)
Definition EndsWith (s suffix : string) : bool :=
  ((String.length suffix <=? String.length s)%nat
   && String.eqb
        (substring (String.length s - String.length suffix)
                   (String.length suffix) s)
        suffix)%bool.

(** [absl::StrReplaceAll(s, {{from, to}})] for a non-empty [from]: the
    text is scanned from the left, every match is replaced and the scan
    resumes after it.  [skip] counts the bytes of a match still to pass. *)
Fixpoint StrReplaceAll_scan (from to : string) (skip : nat) (s : string) : string :=
  match s with
  | EmptyString => EmptyString
  | String c s' =>
      match skip with
      | S skip' => StrReplaceAll_scan from to skip' s'
      | O =>
          if prefix from s
          then (to ++ StrReplaceAll_scan from to (String.length from - 1) s')%string
          else String c (StrReplaceAll_scan from to O s')
      end
  end.

Definition StrReplaceAll (s from to : string) : string :=
  StrReplaceAll_scan from to O s.

(** [absl::ClippedSubstr(s, pos, n)]. *)
Definition ClippedSubstr (s : string) (pos n : nat) : string := substring pos n s.

(** The upper-case hexadecimal digit of a value below 16. *)
Definition hex_digit (n : nat) : ascii :=
  ascii_of_nat (if (n <? 10)%nat then 48 + n else 55 + n).

(** Modelled from the spec: [ByteToPiece(c)], a function of the model
    interface (not part of this source file).  The spec gives the
    spelling of a byte piece, e.g. [<0xFF>]: two upper-case hexadecimal
    digits between [<0x] and [>]. *)
Definition ByteToPiece (c : ascii) : string :=
  let n := nat_of_ascii c in
  String "<" (String "0" (String "x"
    (String (hex_digit (n / 16)) (String (hex_digit (n mod 16))
      (String ">" EmptyString))))).

(* ================================================================== *)
(** * Collaborators: model, normalizer, model proto                    *)
(* ================================================================== *)

(** Modelled from the spec: the piece types of the model artifact
    ([sentencepiece_model.proto] is not part of this source file). *)
Inductive PieceType : Type :=
| NORMAL | UNKNOWN | CONTROL | USER_DEFINED | UNUSED | BYTE.

Definition PieceType_eqb (a b : PieceType) : bool :=
  match a, b with
  | NORMAL, NORMAL | UNKNOWN, UNKNOWN | CONTROL, CONTROL
  | USER_DEFINED, USER_DEFINED | UNUSED, UNUSED | BYTE, BYTE => true
  | _, _ => false
  end.

(** Scores and the smoothing parameter [alpha] are carried, never
    computed on. *)
Definition float : Type := PrimFloat.float.

Definition EncodeResult : Type := list (string * Z).
Definition NBestEncodeResult : Type := list (EncodeResult * float).

(** Modelled from the spec: [ModelInterface], the capability set of the
    subword model ([model_interface.h] is not part of this source file).
    Every vocabulary id has one piece type, and the four predicates test
    it. *)
Module ModelInterface.

Record t : Type := {
  status : Status;
  Encode : string -> EncodeResult;
  NBestEncode : string -> Z -> NBestEncodeResult;
  SampleEncode : string -> float -> EncodeResult;
  IsNBestEncodeAvailable : bool;
  IsSampleEncodeAvailable : bool;
  PieceToId : string -> Z;
  IdToPiece : Z -> string;
  GetPieceSize : Z;
  piece_type : Z -> PieceType;
  ByteFallbackEnabled : bool;
  unk_piece : string;
  bos_piece : string;
  eos_piece : string;
  pad_piece : string
}.

Definition IsControl (m : t) (id : Z) : bool := PieceType_eqb (piece_type m id) CONTROL.
Definition IsUnknown (m : t) (id : Z) : bool := PieceType_eqb (piece_type m id) UNKNOWN.
Definition IsUnused (m : t) (id : Z) : bool := PieceType_eqb (piece_type m id) UNUSED.
Definition IsByte (m : t) (id : Z) : bool := PieceType_eqb (piece_type m id) BYTE.

End ModelInterface.

(** Modelled from the spec: the normalizer ([normalizer.h] is not part of
    this source file).  [Normalize input] gives the status, the normalized
    text and [norm_to_orig]. *)
Module normalizer.

Record Normalizer : Type := {
  status : Status;
  Normalize : string -> Status * string * list nat
}.

End normalizer.

(** Modelled from the spec: the normalizer spec, as far as decoding
    reads it. *)
Record NormalizerSpec : Type := {
  add_dummy_prefix : bool;
  remove_extra_whitespaces : bool
}.

(** Modelled from the spec: the trainer spec, as far as decoding reads
    it. *)
Record TrainerSpec : Type := {
  treat_whitespace_as_suffix : bool;
  unk_surface : option string      (* [has_unk_surface()] and its value *)
}.

(** Modelled from the spec: the model artifact, as far as decoding reads
    it. *)
Record ModelProto : Type := {
  opt_trainer_spec : option TrainerSpec;   (* [has_trainer_spec()] *)
  normalizer_spec : NormalizerSpec
}.

Definition has_trainer_spec (mp : ModelProto) : bool :=
  match opt_trainer_spec mp with Some _ => true | None => false end.

(** [trainer_spec()]: the default instance when the field is absent. *)
Definition trainer_spec (mp : ModelProto) : TrainerSpec :=
  match opt_trainer_spec mp with
  | Some ts => ts
  | None => {| treat_whitespace_as_suffix := false; unk_surface := None |}
  end.

(* ================================================================== *)
(** * The processor                                                    *)
(* ================================================================== *)

(** Modelled from the spec: the extra options, an enumeration of the
    class declaration ([sentencepiece_processor.h], not part of this
    source file). *)
Inductive ExtraOption : Type := REVERSE | BOS | EOS.

(** Modelled from the spec: a [PieceRecord] and the [TokenizedText]
    envelope ([sentencepiece.proto] is not part of this source file).  An
    unset field reads as its default: the empty string, zero. *)
Module SentencePieceText.

Record SentencePiece : Type := {
  piece : string;
  id : Z;
  surface : string;
  begin_ : nat;
  end_ : nat
}.

Record t : Type := {
  text : string;
  pieces : list SentencePiece
}.

End SentencePieceText.

Import SentencePieceText.
Abbreviation SentencePieceText := SentencePieceText.t.

(** Modelled from the spec: the members of the processor that this file
    uses; the class is declared in [sentencepiece_processor.h].  A
    [unique_ptr] that may be null is an [option]. *)
Record SentencePieceProcessor : Type := {
  model_ : option ModelInterface.t;
  normalizer_ : option normalizer.Normalizer;
  denormalizer_ : option normalizer.Normalizer;
  model_proto_ : option ModelProto;
  encode_extra_options_ : list ExtraOption;
  decode_extra_options_ : list ExtraOption
}.

Definition status (sp : SentencePieceProcessor) : Status :=
  match model_ sp with
  | None => InternalError "Model is not initialized."
  | Some m =>
      match normalizer_ sp with
      | None => InternalError "Normalizer is not initialized."
      | Some n =>
          if ok (ModelInterface.status m) then normalizer.status n
          else ModelInterface.status m
      end
  end.

(** [CHECK_STATUS_OR_RETURN_DEFAULT(value)] followed by a call on
    [model_], which a good status guarantees to be set. *)
Definition with_model {A : Type} (sp : SentencePieceProcessor) (default : A)
    (f : ModelInterface.t -> A) : A :=
  if ok (status sp) then
    match model_ sp with Some m => f m | None => default end
  else default.

Definition GetPieceSize (sp : SentencePieceProcessor) : Z :=
  with_model sp 0 ModelInterface.GetPieceSize.

Definition PieceToId (sp : SentencePieceProcessor) (piece : string) : Z :=
  with_model sp 0 (fun m => ModelInterface.PieceToId m piece).

Definition IdToPiece (sp : SentencePieceProcessor) (id : Z) : string :=
  with_model sp "" (fun m => ModelInterface.IdToPiece m id).

Definition IsControl (sp : SentencePieceProcessor) (id : Z) : bool :=
  with_model sp false (fun m => ModelInterface.IsControl m id).

Definition IsUnknown (sp : SentencePieceProcessor) (id : Z) : bool :=
  with_model sp false (fun m => ModelInterface.IsUnknown m id).

Definition IsUnused (sp : SentencePieceProcessor) (id : Z) : bool :=
  with_model sp false (fun m => ModelInterface.IsUnused m id).

Definition IsByte (sp : SentencePieceProcessor) (id : Z) : bool :=
  with_model sp false (fun m => ModelInterface.IsByte m id).

(** ** Special ids *)

Definition unk_id (sp : SentencePieceProcessor) : outcome Z :=
  m <- deref (model_ sp) ;;
  let id := PieceToId sp (string_view_of_c_str (ModelInterface.unk_piece m)) in
  if IsUnknown sp id then Ret id else Ret (-1).

Definition bos_id (sp : SentencePieceProcessor) : outcome Z :=
  m <- deref (model_ sp) ;;
  let id := PieceToId sp (string_view_of_c_str (ModelInterface.bos_piece m)) in
  if IsControl sp id then Ret id else Ret (-1).

Definition eos_id (sp : SentencePieceProcessor) : outcome Z :=
  m <- deref (model_ sp) ;;
  let id := PieceToId sp (string_view_of_c_str (ModelInterface.eos_piece m)) in
  if IsControl sp id then Ret id else Ret (-1).

Definition pad_id (sp : SentencePieceProcessor) : outcome Z :=
  m <- deref (model_ sp) ;;
  let id := PieceToId sp (string_view_of_c_str (ModelInterface.pad_piece m)) in
  if IsControl sp id then Ret id else Ret (-1).

(** ** Run-length layer on ids *)

(** The copy loops of [_expand_from_ids]: [while (p != stop) {
    new_ids.push_back(ids[p]); p++; }] with an [int] counter.  Like the
    digit loops they stop or leave the vector within [S (length ids)]
    turns ([_expand_from_ids_fuel] below). *)
Fixpoint copy_ids (fuel : nat) (ids : list Z) (p stop : Z) (new_ids : list Z)
  : outcome (list Z) :=
  if p =? stop then Ret new_ids
  else
    match fuel with
    | O => OutOfFuel
    | S fuel' =>
        x <- vec_at ids p ;;
        copy_ids fuel' ids (wrap_int (p + 1)) stop (new_ids ++ [x])
    end.

(** [while (it1 != it2) { num.push_back(stoi(IdToPiece(id at it1))); it1 += 1; }]. *)
Fixpoint read_count_ids (fuel : nat) (m : ModelInterface.t) (ids : list Z)
    (it1 it2 : nat) (num : list Z) : outcome (list Z) :=
  if (it1 =? it2)%nat then Ret num
  else
    match fuel with
    | O => OutOfFuel
    | S fuel' =>
        x <- iter_deref ids it1 ;;
        d <- stoi (ModelInterface.IdToPiece m x) ;;
        read_count_ids fuel' m ids (S it1) it2 (num ++ [d])
    end.

(** [SentencePieceProcessor::_expand_from_ids], [m] being [*model_]. *)
Definition _expand_from_ids (m : ModelInterface.t) (ids : list Z) : outcome (list Z) :=
  let it1 := find_pos Z.eqb (ModelInterface.PieceToId m kStartRepeat) ids in
  let start_position := wrap_int (Z.of_nat it1) in
  let it2 := find_pos Z.eqb (ModelInterface.PieceToId m kEndRepeat) ids in
  let end_position := wrap_int (Z.of_nat it2) in
  new_ids <- copy_ids (S (List.length ids)) ids 0 start_position [] ;;
  symbol <- iter_deref_prev ids it1 ;;
  num <- read_count_ids (S (List.length ids)) m ids (S it1) it2 [] ;;
  let count := VectorToInt num in
  let new_ids := new_ids ++ repeat symbol (Z.to_nat count) in
  copy_ids (S (List.length ids)) ids (wrap_int (end_position + 1))
           (Z.of_nat (List.length ids)) new_ids.

Definition has_start_marker_id (m : ModelInterface.t) (ids : list Z) : bool :=
  (find_pos Z.eqb (ModelInterface.PieceToId m kStartRepeat) ids <? List.length ids)%nat.

Fixpoint expand_from_ids_loop (fuel : nat) (m : ModelInterface.t) (new_ids : list Z)
  : outcome (list Z) :=
  if has_start_marker_id m new_ids then
    match fuel with
    | O => OutOfFuel
    | S fuel' =>
        new_ids' <- _expand_from_ids m new_ids ;;
        expand_from_ids_loop fuel' m new_ids'
    end
  else Ret new_ids.

(** [SentencePieceProcessor::expand_from_ids]. *)
Definition expand_from_ids (fuel : nat) (sp : SentencePieceProcessor) (ids : list Z)
  : outcome (list Z) :=
  m <- deref (model_ sp) ;;
  expand_from_ids_loop fuel m ids.

(** ** Extra options *)

Definition ApplyExtraOption (sp : SentencePieceProcessor) (extra_option : ExtraOption)
    (ps : list SentencePiece) : outcome (list SentencePiece) :=
  match extra_option with
  | REVERSE => Ret (rev ps)
  | EOS =>
      m <- deref (model_ sp) ;;
      Ret (ps ++ [{| piece := ModelInterface.eos_piece m;
                     id := PieceToId sp (string_view_of_c_str (ModelInterface.eos_piece m));
                     surface := ""; begin_ := 0; end_ := 0 |}])
  | BOS =>
      m <- deref (model_ sp) ;;
      Ret ({| piece := ModelInterface.bos_piece m;
              id := PieceToId sp (string_view_of_c_str (ModelInterface.bos_piece m));
              surface := ""; begin_ := 0; end_ := 0 |} :: ps)
  end.

(** [ApplyExtraOptions]: the options in order.  The [default:] arm of the
    source's [switch] answers values outside the enumeration, which
    [ExtraOption] does not have. *)
Fixpoint ApplyExtraOptions (sp : SentencePieceProcessor)
    (extra_options : list ExtraOption) (ps : list SentencePiece)
  : outcome (list SentencePiece) :=
  match extra_options with
  | [] => Ret ps
  | extra_option :: rest =>
      ps' <- ApplyExtraOption sp extra_option ps ;;
      ApplyExtraOptions sp rest ps'
  end.

(** ** The encode walk *)

(** The local state of [PopulateSentencePieceText]'s loop, with the
    pieces added to [*spt] so far. *)
Record walk : Type := {
  consumed : nat;
  is_prev_unk : bool;
  added : list SentencePiece
}.

(** [v[i]] for a [size_t] index. *)
Definition offset_at (v : list nat) (i : nat) : outcome nat :=
  match nth_error v i with
  | Some a => Ret a
  | None => Undefined
  end.

(** The byte-fallback [for] loop over the bytes of [w]: the last byte
    piece carries the surface and the span, the others are empty at
    [orig_begin]. *)
Fixpoint byte_fallback_pieces (m : ModelInterface.t) (w : string) (surface : string)
    (orig_begin orig_end : nat) : list SentencePiece :=
  match w with
  | EmptyString => []
  | String b w' =>
      let piece := ByteToPiece b in
      let sp_id := ModelInterface.PieceToId m piece in
      match w' with
      | EmptyString =>
          [{| piece := piece; id := sp_id; surface := surface;
              begin_ := orig_begin; end_ := orig_end |}]
      | String _ _ =>
          {| piece := piece; id := sp_id; surface := "";
             begin_ := orig_begin; end_ := orig_begin |}
            :: byte_fallback_pieces m w' surface orig_begin orig_end
      end
  end.

(** [spt->mutable_pieces(spt->pieces_size() - 1)] updated by [f]. *)
Definition update_last_piece (ps : list SentencePiece)
    (f : SentencePiece -> SentencePiece) : outcome (list SentencePiece) :=
  match rev ps with
  | [] => Undefined
  | last :: before => Ret (rev before ++ [f last])
  end.

(** The arm of the loop body that is not byte fallback: an unknown piece
    after an unknown piece is merged into the last record, any other piece
    adds a record. *)
Definition merge_or_add (st : walk) (w : string) (id : Z) (is_unk : bool)
    (surface : string) (orig_begin orig_end : nat) : outcome (list SentencePiece) :=
  if is_prev_unk st && is_unk then
    update_last_piece (added st) (fun last =>
      {| piece := (piece last ++ w)%string;
         id := SentencePieceText.id last;
         surface := (SentencePieceText.surface last ++ surface)%string;
         begin_ := begin_ last; end_ := orig_end |})
  else
    Ret (added st ++ [{| piece := w; id := id; surface := surface;
                         begin_ := orig_begin; end_ := orig_end |}]).

(** One turn of the loop over the model's [result].  [model_] is looked
    at only for an unknown piece ([is_unk && model_->ByteFallbackEnabled()]). *)
Definition populate_piece (sp : SentencePieceProcessor) (input : string)
    (norm_to_orig : list nat) (st : walk) (p : string * Z) : outcome walk :=
  let w := fst p in
  let id := snd p in
  CHECK_OR_RETURN (negb (string_empty w)) "Empty piece is not allowed." (
  let is_unk := IsUnknown sp id in
  if IsControl sp id then
    b <- offset_at norm_to_orig (consumed st) ;;
    Ret {| consumed := consumed st; is_prev_unk := is_unk;
           added := added st ++ [{| piece := w; id := id; surface := "";
                                    begin_ := b; end_ := b |}] |}
  else
    let begin := consumed st in
    let end' := (consumed st + String.length w)%nat in
    CHECK_OR_RETURN (begin <? List.length norm_to_orig)%nat "begin < norm_to_orig.size()" (
    CHECK_OR_RETURN (end' <? List.length norm_to_orig)%nat "end < norm_to_orig.size()" (
    orig_begin <- offset_at norm_to_orig begin ;;
    orig_end <- offset_at norm_to_orig end' ;;
    CHECK_OR_RETURN (orig_begin <=? String.length input)%nat "orig_begin <= input.size()" (
    CHECK_OR_RETURN (orig_end <=? String.length input)%nat "orig_end <= input.size()" (
    CHECK_OR_RETURN (orig_begin <=? orig_end)%nat "orig_begin <= orig_end" (
    let surface := ClippedSubstr input orig_begin (orig_end - orig_begin) in
    added' <-
      (if is_unk then
         m <- deref (model_ sp) ;;
         if ModelInterface.ByteFallbackEnabled m then
           Ret (added st ++ byte_fallback_pieces m w surface orig_begin orig_end)
         else merge_or_add st w id is_unk surface orig_begin orig_end
       else merge_or_add st w id is_unk surface orig_begin orig_end) ;;
    Ret {| consumed := (consumed st + String.length w)%nat;
           is_prev_unk := is_unk; added := added' |})))))).

Definition walk_start : walk :=
  {| consumed := 0; is_prev_unk := false; added := [] |}.

Fixpoint populate_loop (sp : SentencePieceProcessor) (input : string)
    (norm_to_orig : list nat) (result : EncodeResult) (st : walk) : outcome walk :=
  match result with
  | [] => Ret st
  | p :: rest =>
      st' <- populate_piece sp input norm_to_orig st p ;;
      populate_loop sp input norm_to_orig rest st'
  end.

(** [PopulateSentencePieceText], called on a cleared [*spt]; the value
    returned is [*spt] when the status is OK. *)
Definition PopulateSentencePieceText (sp : SentencePieceProcessor)
    (input normalized : string) (norm_to_orig : list nat) (result : EncodeResult)
  : outcome SentencePieceText :=
  st <- populate_loop sp input norm_to_orig result walk_start ;;
  CHECK_OR_RETURN (consumed st =? String.length normalized)%nat
    "all normalized characters are not consumed." (
  ps <- ApplyExtraOptions sp (encode_extra_options_ sp) (added st) ;;
  Ret {| text := input; pieces := ps |}).

(** [Encode(input, SentencePieceText *spt)]. *)
Definition Encode (sp : SentencePieceProcessor) (input : string)
  : outcome SentencePieceText :=
  RETURN_IF_ERROR (status sp) (
  n <- deref (normalizer_ sp) ;;
  let '(st, normalized, norm_to_orig) := normalizer.Normalize n input in
  RETURN_IF_ERROR st (
  m <- deref (model_ sp) ;;
  let result := ModelInterface.Encode m normalized in
  PopulateSentencePieceText sp input normalized norm_to_orig result)).

(** [SampleEncode(input, nbest_size, alpha, SentencePieceText *spt)].
    [draw alpha scores] is the index that the discrete distribution with
    weights [exp(alpha * score)] yields from the process-wide generator. *)
Definition SampleEncode (draw : float -> list float -> nat)
    (sp : SentencePieceProcessor) (input : string) (nbest_size : Z) (alpha : float)
  : outcome SentencePieceText :=
  RETURN_IF_ERROR (status sp) (
  CHECK_OR_RETURN (nbest_size <=? 512) "nbest_size must be nbest_size <= 512" (
  n <- deref (normalizer_ sp) ;;
  let '(st, normalized, norm_to_orig) := normalizer.Normalize n input in
  RETURN_IF_ERROR st (
  m <- deref (model_ sp) ;;
  if negb (ModelInterface.IsNBestEncodeAvailable m) || (nbest_size <? 0) then
    CHECK_OR_RETURN (ModelInterface.IsSampleEncodeAvailable m)
      "SampleEncode is not available for the current model." (
    let result := ModelInterface.SampleEncode m normalized alpha in
    PopulateSentencePieceText sp input normalized norm_to_orig result)
  else if (nbest_size =? 1) || (nbest_size =? 0) then
    let result := ModelInterface.Encode m normalized in
    PopulateSentencePieceText sp input normalized norm_to_orig result
  else if 1 <? nbest_size then
    let nbests := ModelInterface.NBestEncode m normalized nbest_size in
    CHECK_OR_RETURN (negb (Nat.eqb (List.length nbests) 0))
      "NBestEncode returns empty result." (
    chosen <- iter_deref nbests (draw alpha (map snd nbests)) ;;
    PopulateSentencePieceText sp input normalized norm_to_orig (fst chosen))
  else Ret {| text := ""; pieces := [] |}))).

(** [Encode(input, std::vector<std::string> *pieces)]: the pieces of the
    tokenization, folded by [rle]. *)
Definition Encode_pieces (sp : SentencePieceProcessor) (input : string)
  : outcome (list string) :=
  RETURN_IF_ERROR (status sp) (
  spt <- Encode sp input ;;
  Ret (rle (map piece (pieces spt)))).

(** [Encode(input, std::vector<int> *ids)]. *)
Definition Encode_ids (sp : SentencePieceProcessor) (input : string)
  : outcome (list Z) :=
  RETURN_IF_ERROR (status sp) (
  spt <- Encode sp input ;;
  m <- deref (model_ sp) ;;
  Ret (map (ModelInterface.PieceToId m) (rle (map piece (pieces spt))))).

(** [SampleEncode(input, nbest_size, alpha, pieces)] into a vector of
    strings: no folding here. *)
Definition SampleEncode_pieces (draw : float -> list float -> nat)
    (sp : SentencePieceProcessor) (input : string) (nbest_size : Z) (alpha : float)
  : outcome (list string) :=
  RETURN_IF_ERROR (status sp) (
  spt <- SampleEncode draw sp input nbest_size alpha ;;
  Ret (map piece (pieces spt))).

(** ** Decoding *)

(** What [Decode(pieces, detokenized)] and [Decode(ids, detokenized)]
    hand to the structured [Decode]: the unfolded sequence. *)
Definition Decode_unfold_pieces (fuel : nat) (sp : SentencePieceProcessor)
    (pieces : list string) : outcome (list string) :=
  RETURN_IF_ERROR (status sp) (expand_from_pieces fuel pieces).

Definition Decode_unfold_ids (fuel : nat) (sp : SentencePieceProcessor)
    (ids : list Z) : outcome (list Z) :=
  RETURN_IF_ERROR (status sp) (expand_from_ids fuel sp ids).

(** The [unk_surface] that [Decode] fixes before its lambdas. *)
Definition Decode_unk_surface (sp : SentencePieceProcessor) : string :=
  match model_proto_ sp with
  | Some mp =>
      match unk_surface (trainer_spec mp) with
      | Some s => string_view_of_c_str s
      | None => kDefaultUnknownSymbol
      end
  | None => kDefaultUnknownSymbol
  end.

(** The guard shared by the two stripping rules: no model proto, or a
    normalizer spec that adds a dummy prefix or removes extra white space. *)
Definition strips_dummy_whitespace (sp : SentencePieceProcessor) : bool :=
  match model_proto_ sp with
  | None => true
  | Some mp =>
      add_dummy_prefix (normalizer_spec mp)
      || remove_extra_whitespaces (normalizer_spec mp)
  end.

(** The test of the outer [if]: white space is a prefix of the pieces. *)
Definition whitespace_is_prefix (sp : SentencePieceProcessor) : bool :=
  match model_proto_ sp with
  | None => true
  | Some mp =>
      negb (has_trainer_spec mp)
      || negb (treat_whitespace_as_suffix (trainer_spec mp))
  end.

(** The lambda [DecodeSentencePiece] of [Decode]. *)
Definition DecodeSentencePiece (sp : SentencePieceProcessor) (piece : string)
    (id : Z) (is_bos_ws is_eos_ws : bool) : string :=
  if IsControl sp id then ""
  else if IsUnknown sp id then
    if String.eqb (IdToPiece sp id) piece then Decode_unk_surface sp else piece
  else
    let piece :=
      if whitespace_is_prefix sp then
        if is_bos_ws && strips_dummy_whitespace sp
        then ConsumePrefix piece kSpaceSymbol
        else piece
      else
        if is_eos_ws && strips_dummy_whitespace sp
        then (if EndsWith piece kSpaceSymbol then remove_suffix 3 piece else piece)
        else piece in
    StrReplaceAll piece kSpaceSymbol " ".

(* ================================================================== *)
(** * The rest of the processor                                        *)
(* ================================================================== *)

(** ** Positions of a piece *)

(** [locate_all(seq, what)]: the positions [i] with [seq[i] == what], in
    the order the loop meets them.  [i] is the position that the head of
    [seq] has in the vector the loop started on. *)
Fixpoint locate_all_from (i : nat) (seq : list string) (what : string) : list nat :=
  match seq with
  | [] => []
  | s :: seq' =>
      if String.eqb s what then i :: locate_all_from (S i) seq' what
      else locate_all_from (S i) seq' what
  end.

Definition locate_all (seq : list string) (what : string) : list nat :=
  locate_all_from 0 seq what.

(** ** N-best encoding and the id overload of sampling *)

(** Modelled from the spec: the n-best envelope ([sentencepiece.proto] is
    not part of this source file), an ordered list of tokenized texts,
    each with the score that [set_score] gave it. *)
Definition NBestSentencePieceText : Type := list (SentencePieceText * float).

(** The loop of [NBestEncode] over the model's candidates. *)
Fixpoint NBestEncode_loop (sp : SentencePieceProcessor) (input normalized : string)
    (norm_to_orig : list nat) (nbests : NBestEncodeResult)
  : outcome NBestSentencePieceText :=
  match nbests with
  | [] => Ret []
  | result :: rest =>
      spt <- PopulateSentencePieceText sp input normalized norm_to_orig (fst result) ;;
      more <- NBestEncode_loop sp input normalized norm_to_orig rest ;;
      Ret ((spt, snd result) :: more)
  end.

(** [NBestEncode(input, nbest_size, NBestSentencePieceText *nbest_spt)]. *)
Definition NBestEncode (sp : SentencePieceProcessor) (input : string) (nbest_size : Z)
  : outcome NBestSentencePieceText :=
  RETURN_IF_ERROR (status sp) (
  n <- deref (normalizer_ sp) ;;
  let '(st, normalized, norm_to_orig) := normalizer.Normalize n input in
  RETURN_IF_ERROR st (
  m <- deref (model_ sp) ;;
  CHECK_OR_RETURN (ModelInterface.IsNBestEncodeAvailable m)
    "NBestEncode is not available for the current model." (
  let nbests := ModelInterface.NBestEncode m normalized nbest_size in
  CHECK_OR_RETURN (negb (Nat.eqb (List.length nbests) 0))
    "NBestEncode returns empty result." (
  NBestEncode_loop sp input normalized norm_to_orig nbests)))).

(** [NBestEncode(input, nbest_size, pieces)] into vectors of strings. *)
Definition NBestEncode_pieces (sp : SentencePieceProcessor) (input : string)
    (nbest_size : Z) : outcome (list (list string)) :=
  RETURN_IF_ERROR (status sp) (
  spt <- NBestEncode sp input nbest_size ;;
  Ret (map (fun nbest => map piece (pieces (fst nbest))) spt)).

(** [NBestEncode(input, nbest_size, ids)] into vectors of ids: the ids of
    the records. *)
Definition NBestEncode_ids (sp : SentencePieceProcessor) (input : string)
    (nbest_size : Z) : outcome (list (list Z)) :=
  RETURN_IF_ERROR (status sp) (
  spt <- NBestEncode sp input nbest_size ;;
  Ret (map (fun nbest => map SentencePieceText.id (pieces (fst nbest))) spt)).

(** [SampleEncode(input, nbest_size, alpha, ids)]: the ids of the records. *)
Definition SampleEncode_ids (draw : float -> list float -> nat)
    (sp : SentencePieceProcessor) (input : string) (nbest_size : Z) (alpha : float)
  : outcome (list Z) :=
  RETURN_IF_ERROR (status sp) (
  spt <- SampleEncode draw sp input nbest_size alpha ;;
  Ret (map SentencePieceText.id (pieces spt))).

(** ** Vocabulary constraints *)

(** Modelled from the spec: the model types of the trainer spec; the
    vocabulary constraint applies to the two subword ones. *)
Inductive ModelType : Type := UNIGRAM | BPE | WORD | CHAR.

(** Modelled from the spec: a [VocabPiece] of the model artifact, as far
    as the vocabulary functions read and write it. *)
Module ModelProto_SentencePiece.

Record t : Type := {
  piece : string;
  type : PieceType
}.

End ModelProto_SentencePiece.

(** Modelled from the spec: the part of [*model_proto_] that the
    vocabulary functions work on, [trainer_spec().model_type()] and the
    repeated field [pieces].  The functions below take it and give back
    what they leave in it. *)
Record Vocabulary : Type := {
  model_type : ModelType;
  proto_pieces : list ModelProto_SentencePiece.t
}.

(** Modelled from the spec: [string_util::OneCharLen(src)] ([util.h] is
    not part of this source file), the length in bytes that the leading
    byte of a UTF-8 character announces.  For an empty piece the leading
    byte is the terminating NUL of [c_str()]. *)
Definition OneCharLen (src : string) : nat :=
  let lead := match src with String c _ => nat_of_ascii c | EmptyString => O end in
  nth (lead / 16) [1; 1; 1; 1; 1; 1; 1; 1; 1; 1; 1; 1; 2; 2; 3; 4]%nat 1%nat.

Definition set_type (p : ModelProto_SentencePiece.t) (ty : PieceType)
  : ModelProto_SentencePiece.t :=
  {| ModelProto_SentencePiece.piece := ModelProto_SentencePiece.piece p;
     ModelProto_SentencePiece.type := ty |}.

(** The body of [SetVocabulary]'s loop; [vocab] is the [std::set] built
    from [valid_vocab]. *)
Definition constrain_piece (vocab : list string) (p : ModelProto_SentencePiece.t)
  : ModelProto_SentencePiece.t :=
  match ModelProto_SentencePiece.type p with
  | CONTROL | UNKNOWN | USER_DEFINED => p
  | _ =>
      if existsb (String.eqb (ModelProto_SentencePiece.piece p)) vocab
         || (OneCharLen (ModelProto_SentencePiece.piece p)
             =? String.length (ModelProto_SentencePiece.piece p))%nat
      then set_type p NORMAL
      else set_type p UNUSED
  end.

(** [SetVocabulary(valid_vocab)]. *)
Definition SetVocabulary (sp : SentencePieceProcessor) (v : Vocabulary)
    (valid_vocab : list string) : outcome Vocabulary :=
  RETURN_IF_ERROR (status sp) (
  _ <- deref (model_proto_ sp) ;;
  CHECK_OR_RETURN
    (match model_type v with UNIGRAM | BPE => true | _ => false end)
    "Vocabulary constraint is only enabled in subword units." (
  Ret {| model_type := model_type v;
         proto_pieces := map (constrain_piece valid_vocab) (proto_pieces v) |})).

(** The body of [ResetVocabulary]'s loop. *)
Definition release_piece (p : ModelProto_SentencePiece.t) : ModelProto_SentencePiece.t :=
  match ModelProto_SentencePiece.type p with
  | UNUSED => set_type p NORMAL
  | _ => p
  end.

(** [ResetVocabulary()]. *)
Definition ResetVocabulary (sp : SentencePieceProcessor) (v : Vocabulary)
  : outcome Vocabulary :=
  RETURN_IF_ERROR (status sp) (
  _ <- deref (model_proto_ sp) ;;
  Ret {| model_type := model_type v;
         proto_pieces := map release_piece (proto_pieces v) |}).

(** ** Parsing extra options *)

(** Modelled from the spec: the option string is cut into its
    colon-separated fields by [absl::StrSplit(s, delim)], which the
    repository takes from its own [third_party/absl], not part of this
    source file.  There every separator ends a field, and what follows
    the last separator is a field when it is not empty.  [field] holds
    the bytes of the field being read. *)
Fixpoint StrSplit_scan (delim : ascii) (s : string) (field : string) : list string :=
  match s with
  | EmptyString => if string_empty field then [] else [field]
  | String c s' =>
      if Ascii.eqb c delim then field :: StrSplit_scan delim s' ""
      else StrSplit_scan delim s' (field ++ String c "")
  end.

Definition StrSplit (s : string) (delim : ascii) : list string :=
  StrSplit_scan delim s "".

(** The static [extra_option_map]. *)
Definition extra_option_map (s : string) : option ExtraOption :=
  if String.eqb s "bos" then Some BOS
  else if String.eqb s "eos" then Some EOS
  else if String.eqb s "reverse" then Some REVERSE
  else None.

Definition ExtraOption_eqb (a b : ExtraOption) : bool :=
  match a, b with
  | REVERSE, REVERSE | BOS, BOS | EOS, EOS => true
  | _, _ => false
  end.

(** A function with an output parameter returns its status together with
    what it left in the parameter. *)
Definition returns (A : Type) : Type := (Status * A)%type.

Definition double_quote : string := String "034" EmptyString.

(** The check that follows a pushed [BOS] or [EOS]: the special piece
    must not resolve to an unknown id.  [k] is the rest of the loop. *)
Definition check_special_piece (sp : SentencePieceProcessor)
    (special_piece : ModelInterface.t -> string) (extra_options : list ExtraOption)
    (k : outcome (returns (list ExtraOption))) : outcome (returns (list ExtraOption)) :=
  m <- deref (model_ sp) ;;
  if negb (IsUnknown sp (PieceToId sp (string_view_of_c_str (special_piece m))))
  then k
  else Ret (InternalError ("id for `" ++ special_piece m ++ "` is not defined."),
            extra_options).

(** The loop of [ParseExtraOptions] over the fields; [extra_options] is
    the vector as filled so far.  An option is pushed before its special
    piece is checked. *)
Fixpoint ParseExtraOptions_loop (sp : SentencePieceProcessor) (fields : list string)
    (extra_options : list ExtraOption) : outcome (returns (list ExtraOption)) :=
  match fields with
  | [] => Ret (OkStatus, extra_options)
  | s :: rest =>
      match extra_option_map s with
      | None =>
          Ret (InternalError
                 ("option " ++ double_quote ++ s ++ double_quote ++ " is not available."),
               extra_options)
      | Some it =>
          let extra_options := extra_options ++ [it] in
          let after_eos := ParseExtraOptions_loop sp rest extra_options in
          let after_bos :=
            if ExtraOption_eqb it EOS
            then check_special_piece sp ModelInterface.eos_piece extra_options after_eos
            else after_eos in
          if ExtraOption_eqb it BOS
          then check_special_piece sp ModelInterface.bos_piece extra_options after_bos
          else after_bos
      end
  end.

(** [ParseExtraOptions(_extra_option, extra_options)]: the vector is
    cleared first, whatever comes next. *)
Definition ParseExtraOptions (sp : SentencePieceProcessor) (_extra_option : string)
  : outcome (returns (list ExtraOption)) :=
  let extra_option := _extra_option in
  if string_empty extra_option then Ret (OkStatus, [])
  else if negb (ok (status sp)) then Ret (status sp, [])
  else ParseExtraOptions_loop sp (StrSplit extra_option ":") [].

(** The processor with another [encode_extra_options_], and with another
    [decode_extra_options_]. *)
Definition set_encode_extra_options (sp : SentencePieceProcessor)
    (extra_options : list ExtraOption) : SentencePieceProcessor :=
  {| model_ := model_ sp; normalizer_ := normalizer_ sp;
     denormalizer_ := denormalizer_ sp; model_proto_ := model_proto_ sp;
     encode_extra_options_ := extra_options;
     decode_extra_options_ := decode_extra_options_ sp |}.

Definition set_decode_extra_options (sp : SentencePieceProcessor)
    (extra_options : list ExtraOption) : SentencePieceProcessor :=
  {| model_ := model_ sp; normalizer_ := normalizer_ sp;
     denormalizer_ := denormalizer_ sp; model_proto_ := model_proto_ sp;
     encode_extra_options_ := encode_extra_options_ sp;
     decode_extra_options_ := extra_options |}.

(** [SetEncodeExtraOptions] and [SetDecodeExtraOptions] parse into the
    member itself. *)
Definition SetEncodeExtraOptions (sp : SentencePieceProcessor) (extra_options : string)
  : outcome (returns SentencePieceProcessor) :=
  r <- ParseExtraOptions sp extra_options ;;
  Ret (fst r, set_encode_extra_options sp (snd r)).

Definition SetDecodeExtraOptions (sp : SentencePieceProcessor) (extra_options : string)
  : outcome (returns SentencePieceProcessor) :=
  r <- ParseExtraOptions sp extra_options ;;
  Ret (fst r, set_decode_extra_options sp (snd r)).

(** ** Decoding into a tokenized text *)

(** Modelled from the spec: the helpers of byte-fallback reassembly,
    which live in other files ([model_interface.h], [util.h]):
    [PieceToByte] gives the raw byte value of a byte piece (negative for
    any other piece), [UTF8ToUnicodeText] decodes a byte string into code
    points, [UnicodeCharToUTF8] encodes one code point. *)
Module string_util.

Record t : Type := {
  PieceToByte : string -> Z;
  UTF8ToUnicodeText : string -> list Z;
  UnicodeCharToUTF8 : Z -> string
}.

End string_util.

(** Modelled from the spec: U+FFFD, the code point that stands for an
    invalid unit. *)
Definition kUnicodeError : Z := 65533.

(** [spt->mutable_pieces(index)] updated by [f]. *)
Definition update_piece (ps : list SentencePiece) (index : nat)
    (f : SentencePiece -> SentencePiece) : outcome (list SentencePiece) :=
  match nth_error ps index with
  | Some p => Ret (firstn index ps ++ f p :: skipn (S index) ps)
  | None => Undefined
  end.

(** The lambda [SetSurface] of [Decode]: the piece at [index] gets the
    surface and the span it takes at the end of the text, and the text
    grows by the surface. *)
Definition SetSurface (spt : SentencePieceText) (index : nat) (surface : string)
  : outcome SentencePieceText :=
  ps <- update_piece (pieces spt) index (fun p =>
          {| piece := piece p; id := SentencePieceText.id p; surface := surface;
             begin_ := String.length (text spt);
             end_ := String.length (text spt) + String.length surface |}) ;;
  Ret {| text := (text spt ++ surface)%string; pieces := ps |}.

(** The first loop of [ProcessBytePieces]: the bytes of the pieces at
    [i], [i + 1], ..., [todo] of them. *)
Fixpoint collect_bytes (su : string_util.t) (ps : list SentencePiece) (i todo : nat)
    (bytes : string) : outcome string :=
  match todo with
  | O => Ret bytes
  | S todo' =>
      p <- iter_deref ps i ;;
      let byte := string_util.PieceToByte su (piece p) in
      CHECK_OR_RETURN (0 <=? byte) "0 <= byte" (
      collect_bytes su ps (S i) todo'
        (bytes ++ String (ascii_of_nat (Z.to_nat (byte mod 256))) ""))
  end.

(** The loop over the bytes of one decoded character: [todo] bytes are
    left, the last of them takes the whole [utf8]. *)
Fixpoint spread_char (utf8 : string) (todo : nat) (i : nat) (spt : SentencePieceText)
  : outcome (nat * SentencePieceText) :=
  match todo with
  | O => Ret (i, spt)
  | S todo' =>
      spt' <- SetSurface spt i (if (todo' =? 0)%nat then utf8 else "") ;;
      spread_char utf8 todo' (S i) spt'
  end.

(** The loop over the decoded characters. *)
Fixpoint spread_text (su : string_util.t) (ucs : list Z) (i : nat)
    (spt : SentencePieceText) : outcome (nat * SentencePieceText) :=
  match ucs with
  | [] => Ret (i, spt)
  | uc :: ucs' =>
      if uc =? kUnicodeError then
        spt' <- SetSurface spt i (string_util.UnicodeCharToUTF8 su kUnicodeError) ;;
        spread_text su ucs' (S i) spt'
      else
        let utf8 := string_util.UnicodeCharToUTF8 su uc in
        r <- spread_char utf8 (String.length utf8) i spt ;;
        spread_text su ucs' (fst r) (snd r)
  end.

(** The lambda [ProcessBytePieces(begin, end)]. *)
Definition ProcessBytePieces (su : string_util.t) (begin end' : nat)
    (spt : SentencePieceText) : outcome SentencePieceText :=
  if (begin <? end')%nat then
    bytes <- collect_bytes su (pieces spt) begin (end' - begin) "" ;;
    r <- spread_text su (string_util.UTF8ToUnicodeText su bytes) begin spt ;;
    CHECK_OR_RETURN (fst r =? end')%nat "i == end" (Ret (snd r))
  else Ret spt.

(** The main loop of [Decode] from position [i], [todo] pieces being
    left; the number of pieces does not change while it runs.  The result
    carries [byte_start]. *)
Fixpoint Decode_loop (su : string_util.t) (sp : SentencePieceProcessor)
    (todo i byte_start : nat) (spt : SentencePieceText)
  : outcome (nat * SentencePieceText) :=
  match todo with
  | O => Ret (byte_start, spt)
  | S todo' =>
      p <- iter_deref (pieces spt) i ;;
      if negb (IsByte sp (SentencePieceText.id p)) then
        spt1 <- ProcessBytePieces su byte_start i spt ;;
        let is_eos_space := (i =? List.length (pieces spt) - 1)%nat in
        spt2 <- SetSurface spt1 i
                  (DecodeSentencePiece sp (piece p) (SentencePieceText.id p)
                     (string_empty (text spt1)) is_eos_space) ;;
        Decode_loop su sp todo' (S i) (S i) spt2
      else Decode_loop su sp todo' (S i) byte_start spt
  end.

(** *** The denormalizer's remap *)

(** The [std::map<int, int> orig_to_norm], as its bindings in insertion
    order; a key is inserted once. *)
Fixpoint map_find (key : nat) (m : list (nat * nat)) : option nat :=
  match m with
  | [] => None
  | (k, v) :: m' => if (k =? key)%nat then Some v else map_find key m'
  end.

Fixpoint build_orig_to_norm (norm_to_orig : list nat) (i : nat)
    (orig_to_norm : list (nat * nat)) : list (nat * nat) :=
  match norm_to_orig with
  | [] => orig_to_norm
  | o :: rest =>
      build_orig_to_norm rest (S i)
        (match map_find o orig_to_norm with
         | None => orig_to_norm ++ [(o, i)]
         | Some _ => orig_to_norm
         end)
  end.

(** [s[k]] for a [std::string]: the position [size()] holds the
    terminating NUL, there is nothing after it. *)
Definition string_at (s : string) (k : nat) : outcome ascii :=
  match String.get k s with
  | Some c => Ret c
  | None => if (k =? String.length s)%nat then Ret Ascii.zero else Undefined
  end.

(** [for (k = last_consumed_byte + 1; k <= second - 1; k++)
    new_surface.push_back(normalized[k]);] with [todo] turns left. *)
Fixpoint push_normalized (normalized : string) (k todo : nat) (new_surface : string)
  : outcome string :=
  match todo with
  | O => Ret new_surface
  | S todo' =>
      c <- string_at normalized k ;;
      push_normalized normalized (S k) todo' (new_surface ++ String c "")
  end.

(** The loop over the bytes [j] of one piece's surface, [todo] of them
    left. *)
Fixpoint remap_surface (orig_to_norm : list (nat * nat)) (normalized : string)
    (j todo : nat) (last_consumed_byte : Z) (new_surface : string)
  : outcome (Z * string) :=
  match todo with
  | O => Ret (last_consumed_byte, new_surface)
  | S todo' =>
      match map_find (j + 1) orig_to_norm with
      | Some second =>
          new_surface' <-
            push_normalized normalized (Z.to_nat (last_consumed_byte + 1))
              (Z.to_nat (Z.of_nat second - 1 - last_consumed_byte)) new_surface ;;
          remap_surface orig_to_norm normalized (S j) todo'
            (Z.of_nat second - 1) new_surface'
      | None =>
          remap_surface orig_to_norm normalized (S j) todo'
            last_consumed_byte new_surface
      end
  end.

(** The loop over the pieces. *)
Fixpoint remap_pieces (orig_to_norm : list (nat * nat)) (normalized : string)
    (ps : list SentencePiece)
    (normalized_piece_surface_index text_piece_surface_index : nat)
    (last_consumed_byte : Z) : outcome (list SentencePiece) :=
  match ps with
  | [] => Ret []
  | spiece :: ps' =>
      let curr_surface := surface spiece in
      r <- remap_surface orig_to_norm normalized text_piece_surface_index
             (String.length curr_surface) last_consumed_byte "" ;;
      let new_surface := snd r in
      rest <- remap_pieces orig_to_norm normalized ps'
                (normalized_piece_surface_index + String.length new_surface)
                (text_piece_surface_index + String.length curr_surface) (fst r) ;;
      Ret ({| piece := piece spiece; id := SentencePieceText.id spiece;
              surface := new_surface;
              begin_ := normalized_piece_surface_index;
              end_ := normalized_piece_surface_index + String.length new_surface |}
             :: rest)
  end.

(** The block [if (denormalizer_) { ... }]: the status of [Normalize] is
    not looked at. *)
Definition Denormalize (d : normalizer.Normalizer) (spt : SentencePieceText)
  : outcome SentencePieceText :=
  let '(_, normalized, norm_to_orig) := normalizer.Normalize d (text spt) in
  let orig_to_norm := build_orig_to_norm norm_to_orig 0 [] in
  ps <- remap_pieces orig_to_norm normalized (pieces spt) 0 0 (-1) ;;
  Ret {| text := normalized; pieces := ps |}.

(** [Decode(pieces, SentencePieceText *spt)]. *)
Definition Decode (su : string_util.t) (sp : SentencePieceProcessor)
    (pieces : list string) : outcome SentencePieceText :=
  RETURN_IF_ERROR (status sp) (
  let added := map (fun w => {| piece := w; id := PieceToId sp w; surface := "";
                                begin_ := 0; end_ := 0 |}) pieces in
  ps <- ApplyExtraOptions sp (decode_extra_options_ sp) added ;;
  r <- Decode_loop su sp (List.length ps) 0 0 {| text := ""; pieces := ps |} ;;
  spt <- ProcessBytePieces su (fst r) (List.length ps) (snd r) ;;
  match denormalizer_ sp with
  | Some d => Denormalize d spt
  | None => Ret spt
  end).

(** [Decode(ids, SentencePieceText *spt)]. *)
Definition Decode_ids_spt (su : string_util.t) (sp : SentencePieceProcessor)
    (ids : list Z) : outcome SentencePieceText :=
  Decode su sp (map (IdToPiece sp) ids).

(** [Decode(pieces, std::string *detokenized)]. *)
Definition Decode_pieces (fuel : nat) (su : string_util.t) (sp : SentencePieceProcessor)
    (pieces : list string) : outcome string :=
  RETURN_IF_ERROR (status sp) (
  new_pieces <- expand_from_pieces fuel pieces ;;
  spt <- Decode su sp new_pieces ;;
  Ret (text spt)).

(** [Decode(ids, std::string *detokenized)]. *)
Definition Decode_ids (fuel : nat) (su : string_util.t) (sp : SentencePieceProcessor)
    (ids : list Z) : outcome string :=
  RETURN_IF_ERROR (status sp) (
  new_ids <- expand_from_ids fuel sp ids ;;
  spt <- Decode_ids_spt su sp new_ids ;;
  Ret (text spt)).

(* ================================================================== *)
(** * Notions used in the statements                                   *)
(* ================================================================== *)

(** A string with a NUL byte inside is cut short when it is passed as a
    C string. *)
Fixpoint has_nul (s : string) : bool :=
  match s with
  | EmptyString => false
  | String c s' => Ascii.eqb c Ascii.zero || has_nul s'
  end.

(** A decimal digit, as [extract_each_digit] produces them. *)
Definition is_digit (d : Z) : Prop := 0 <= d <= 9.

(** Some model-emitted piece is the empty string. *)
Definition has_empty_piece (result : EncodeResult) : bool :=
  existsb (fun p => string_empty (fst p)) result.

(** The bytes of the normalized text that the pieces of [result] stand
    for: control pieces stand for none. *)
Fixpoint consumed_by (sp : SentencePieceProcessor) (result : EncodeResult) : nat :=
  match result with
  | [] => 0
  | (w, id) :: rest =>
      ((if IsControl sp id then 0 else String.length w) + consumed_by sp rest)%nat
  end.

(** What the normalizer promises about [norm_to_orig]: one offset per
    normalized byte and one past the end, non-decreasing, inside the
    input. *)
Record offsets_well_formed (input normalized : string) (norm_to_orig : list nat)
  : Prop := {
  offsets_length : List.length norm_to_orig = S (String.length normalized);
  offsets_monotone : forall i j a b, (i <= j)%nat ->
    nth_error norm_to_orig i = Some a -> nth_error norm_to_orig j = Some b ->
    (a <= b)%nat;
  offsets_bounded : forall i a,
    nth_error norm_to_orig i = Some a -> (a <= String.length input)%nat
}.

(** What holds of the loop state between two pieces of a walk over
    [normalized]. *)
Definition walk_ok (normalized : string) (st : walk) : Prop :=
  (consumed st <= String.length normalized)%nat
  /\ (is_prev_unk st = true -> added st <> []).

(** A record that, if its id is CONTROL, spans nothing. *)
Definition control_span_empty (sp : SentencePieceProcessor) (r : SentencePiece) : Prop :=
  IsControl sp (id r) = true -> begin_ r = end_ r.

(** What the loop keeps true of the records it has added: control records
    span nothing, and while unknown pieces are being merged the last
    record is not a control record. *)
Definition walk_spans_ok (sp : SentencePieceProcessor) (m : ModelInterface.t)
    (st : walk) : Prop :=
  Forall (control_span_empty sp) (added st)
  /\ (is_prev_unk st = true -> ModelInterface.ByteFallbackEnabled m = false ->
      exists before last,
        added st = before ++ [last] /\ IsControl sp (id last) = false).

(** [pat] occurs somewhere in [s]. *)
Fixpoint occurs (pat s : string) : bool :=
  match s with
  | EmptyString => prefix pat EmptyString
  | String _ s' => prefix pat s || occurs pat s'
  end.

(** A stretch of text without the meta-space marker. *)
Definition meta_free (s : string) : Prop := occurs kSpaceSymbol s = false.

(** A leading marker shows as an empty first segment that is not the only
    one; stripping the marker drops that segment. *)
Definition drop_leading_marker (segments : list string) : list string :=
  match segments with
  | s :: (_ :: _) as rest => if string_empty s then rest else segments
  | _ => segments
  end.

Fixpoint drop_last_empty (segments : list string) : list string :=
  match segments with
  | [] => []
  | s :: rest =>
      match rest with
      | [] => if string_empty s then [] else [s]
      | _ :: _ => s :: drop_last_empty rest
      end
  end.

(** A trailing marker shows as an empty last segment that is not the only
    one. *)
Definition drop_trailing_marker (segments : list string) : list string :=
  match segments with
  | [] => []
  | s :: rest => s :: drop_last_empty rest
  end.

(** The rule of the suffix branch of [DecodeSentencePiece]. *)
Definition strip_trailing_marker (piece : string) : string :=
  if EndsWith piece kSpaceSymbol then remove_suffix 3 piece else piece.

(** No piece is followed by an equal piece: the sequence has no run to
    fold. *)
Fixpoint no_adjacent_repeat (p : list string) : bool :=
  match p with
  | [] => true
  | a :: rest =>
      match rest with
      | [] => true
      | b :: _ => negb (String.eqb a b) && no_adjacent_repeat rest
      end
  end.

(** The piece at position [i] is [what]. *)
Definition is_at (v : list string) (what : string) (i : nat) : bool :=
  match nth_error v i with
  | Some s => String.eqb s what
  | None => false
  end.

(** [w] reads as the number [v]. *)
Definition reads_as (w : string) (v : Z) : Prop := stoi w = Ret v.

(** The surface of a record is the stretch of the input that its span
    delimits. *)
Definition surface_is_span (input : string) (r : SentencePiece) : Prop :=
  (begin_ r <= end_ r)%nat
  /\ surface r = substring (begin_ r) (end_ r - begin_ r) input.

(** Every record begins where the one before it ended, the first at
    [from]. *)
Fixpoint spans_chained (from : nat) (ps : list SentencePiece) : Prop :=
  match ps with
  | [] => True
  | r :: rest => begin_ r = from /\ spans_chained (end_ r) rest
  end.

(** Where a chain of records that starts at [from] ends. *)
Fixpoint chain_end (from : nat) (ps : list SentencePiece) : nat :=
  match ps with
  | [] => from
  | r :: rest => chain_end (end_ r) rest
  end.

(** The surfaces of the records, one after the other. *)
Definition surfaces (ps : list SentencePiece) : string :=
  fold_right String.append "" (map surface ps).

(** What the encode walk keeps true of the records it has added: every
    surface is the stretch of the input that its span delimits, the spans
    follow one another from the first offset, and the last one ends at
    the offset of the cursor. *)
Definition walk_tiles (input : string) (norm_to_orig : list nat) (st : walk) : Prop :=
  Forall (surface_is_span input) (added st)
  /\ spans_chained (nth 0 norm_to_orig O) (added st)
  /\ ((added st = [] /\ consumed st = O)
      \/ nth_error norm_to_orig (consumed st)
         = Some (chain_end (nth 0 norm_to_orig O) (added st))).

(** The record that an extra option adds, if it adds one. *)
Definition added_by (sp : SentencePieceProcessor) (m : ModelInterface.t)
    (extra_option : ExtraOption) : list SentencePiece :=
  match extra_option with
  | REVERSE => []
  | BOS =>
      [{| piece := ModelInterface.bos_piece m;
          id := PieceToId sp (string_view_of_c_str (ModelInterface.bos_piece m));
          surface := ""; begin_ := 0; end_ := 0 |}]
  | EOS =>
      [{| piece := ModelInterface.eos_piece m;
          id := PieceToId sp (string_view_of_c_str (ModelInterface.eos_piece m));
          surface := ""; begin_ := 0; end_ := 0 |}]
  end.

(** An n-best entry is the walk of a candidate of the model, with the
    candidate's score. *)
Definition walk_of_candidate (sp : SentencePieceProcessor) (input normalized : string)
    (norm_to_orig : list nat) (entry : SentencePieceText * float)
    (candidate : EncodeResult * float) : Prop :=
  PopulateSentencePieceText sp input normalized norm_to_orig (fst candidate)
  = Ret (fst entry)
  /\ snd entry = snd candidate.

(** The name of an extra option, and an option string: the names joined
    by colons. *)
Definition ExtraOption_name (extra_option : ExtraOption) : string :=
  match extra_option with
  | BOS => "bos"
  | EOS => "eos"
  | REVERSE => "reverse"
  end.

Definition spell_extra_options (extra_options : list ExtraOption) : string :=
  String.concat ":" (map ExtraOption_name extra_options).

(** The special piece that an option needs resolves to an id that is not
    unknown. *)
Definition special_piece_known (sp : SentencePieceProcessor) (m : ModelInterface.t)
    (extra_option : ExtraOption) : bool :=
  match extra_option with
  | BOS => negb (IsUnknown sp
                   (PieceToId sp (string_view_of_c_str (ModelInterface.bos_piece m))))
  | EOS => negb (IsUnknown sp
                   (PieceToId sp (string_view_of_c_str (ModelInterface.eos_piece m))))
  | REVERSE => true
  end.

(** No byte of [s] is [c]. *)
Fixpoint free_of (c : ascii) (s : string) : bool :=
  match s with
  | EmptyString => true
  | String c' s' => negb (Ascii.eqb c' c) && free_of c s'
  end.

(** What a piece of the model proto is once the vocabulary has been set
    and reset: the special types stay, every other piece is NORMAL. *)
Definition after_set_and_reset (p : ModelProto_SentencePiece.t)
  : ModelProto_SentencePiece.t :=
  match ModelProto_SentencePiece.type p with
  | CONTROL | UNKNOWN | USER_DEFINED => p
  | _ => set_type p NORMAL
  end.

(** The span of a record is as long as its surface. *)
Definition span_is_surface_length (r : SentencePiece) : Prop :=
  end_ r = (begin_ r + String.length (surface r))%nat.

(** What decoding keeps true while it sets the surfaces in turn: the
    first [k] records have their surfaces, their spans follow one another
    from [0] and are as long as the surfaces, and the text is these
    surfaces put together. *)
Definition tiles_prefix (k : nat) (spt : SentencePieceText) : Prop :=
  (k <= List.length (pieces spt))%nat
  /\ Forall span_is_surface_length (firstn k (pieces spt))
  /\ spans_chained 0 (firstn k (pieces spt))
  /\ chain_end 0 (firstn k (pieces spt)) = String.length (text spt)
  /\ surfaces (firstn k (pieces spt)) = text spt.

(** The processor without its denormalizer. *)
Definition without_denormalizer (sp : SentencePieceProcessor) : SentencePieceProcessor :=
  {| model_ := model_ sp; normalizer_ := normalizer_ sp;
     denormalizer_ := None; model_proto_ := model_proto_ sp;
     encode_extra_options_ := encode_extra_options_ sp;
     decode_extra_options_ := decode_extra_options_ sp |}.

(** The records that [Decode] starts from: one for every piece, with the
    id that the piece resolves to. *)
Definition records_of (sp : SentencePieceProcessor) (pieces : list string)
  : list SentencePiece :=
  map (fun w => {| piece := w; id := PieceToId sp w; surface := "";
                   begin_ := 0; end_ := 0 |}) pieces.

(** Decoding without byte pieces, read from left to right: every record
    takes the surface that [DecodeSentencePiece] gives its piece, at the
    end of the text so far; a piece is "first" as long as the text is
    empty, and "last" when no record follows. *)
Fixpoint decode_records (sp : SentencePieceProcessor) (pending : list SentencePiece)
    (so_far : string) : SentencePieceText :=
  match pending with
  | [] => {| text := so_far; pieces := [] |}
  | p :: rest =>
      let s := DecodeSentencePiece sp (piece p) (SentencePieceText.id p)
                 (string_empty so_far)
                 (match rest with [] => true | _ :: _ => false end) in
      let spt := decode_records sp rest (so_far ++ s) in
      {| text := text spt;
         pieces := {| piece := piece p; id := SentencePieceText.id p; surface := s;
                      begin_ := String.length so_far;
                      end_ := String.length so_far + String.length s |}
                   :: pieces spt |}
  end.

(** What [rle] writes for a run of [k] copies of [x]. *)
Definition folded_run (x : string) (k : nat) : list string :=
  if (k =? 1)%nat then [x]
  else x :: kStartRepeat
         :: map to_string (extract_each_digit (Z.of_nat k)) ++ [kEndRepeat].

(** The positions that the characters of a decoded byte run take: one for
    a U+FFFD, as many as its UTF-8 bytes for any other character. *)
Definition positions_taken (su : string_util.t) (ucs : list Z) : nat :=
  fold_right
    (fun (uc : Z) (n : nat) =>
       ((if Z.eqb uc kUnicodeError then 1
         else String.length (string_util.UnicodeCharToUTF8 su uc)) + n)%nat)
    O ucs.

(* ================================================================== *)
(** * A small concrete processor                                       *)
(* ================================================================== *)

(** A vocabulary-backed model and an identity normalizer, used to run the
    definitions on concrete inputs. *)
Module Toy.

Definition vocab : list (string * PieceType) :=
  [ ("<unk>", UNKNOWN); ("<s>", CONTROL); ("</s>", CONTROL);
    ("(#startrepeat)", USER_DEFINED); ("(#endrepeat)", USER_DEFINED);
    ("0", NORMAL); ("1", NORMAL); ("2", NORMAL); ("3", NORMAL); ("4", NORMAL);
    ("5", NORMAL); ("6", NORMAL); ("7", NORMAL); ("8", NORMAL); ("9", NORMAL);
    ("a", NORMAL); ("b", NORMAL); ("ab", NORMAL);
    ("<0xE2>", BYTE); ("<0x82>", BYTE); ("<0xAC>", BYTE) ].

Fixpoint lookup (v : list (string * PieceType)) (piece : string) (i : Z) : Z :=
  match v with
  | [] => 0
  | (p, _) :: v' => if String.eqb p piece then i else lookup v' piece (i + 1)
  end.

Definition PieceToId (piece : string) : Z := lookup vocab piece 0.

Definition IdToPiece (id : Z) : string :=
  if id <? 0 then "" else fst (nth (Z.to_nat id) vocab ("", NORMAL)).

Definition piece_type (id : Z) : PieceType :=
  if id <? 0 then NORMAL else snd (nth (Z.to_nat id) vocab ("", NORMAL)).

(** One piece per byte of the normalized text. *)
Fixpoint encode_bytes (normalized : string) : EncodeResult :=
  match normalized with
  | EmptyString => []
  | String c s' =>
      (String c EmptyString, PieceToId (String c EmptyString)) :: encode_bytes s'
  end.

(** The whole normalized text as one piece, when there is any. *)
Definition encode_whole (normalized : string) : EncodeResult :=
  if string_empty normalized then [] else [(normalized, PieceToId normalized)].

Definition model (nbest sample byte_fallback : bool) : ModelInterface.t :=
  {| ModelInterface.status := OkStatus;
     ModelInterface.Encode := encode_whole;
     ModelInterface.NBestEncode := fun normalized _ => [(encode_whole normalized, 0%float)];
     ModelInterface.SampleEncode := fun normalized _ => encode_bytes normalized;
     ModelInterface.IsNBestEncodeAvailable := nbest;
     ModelInterface.IsSampleEncodeAvailable := sample;
     ModelInterface.PieceToId := PieceToId;
     ModelInterface.IdToPiece := IdToPiece;
     ModelInterface.GetPieceSize := Z.of_nat (List.length vocab);
     ModelInterface.piece_type := piece_type;
     ModelInterface.ByteFallbackEnabled := byte_fallback;
     ModelInterface.unk_piece := "<unk>";
     ModelInterface.bos_piece := "<s>";
     ModelInterface.eos_piece := "</s>";
     ModelInterface.pad_piece := "<pad>" |}.

(** The same model with the byte-wise tokenization as its [Encode]. *)
Definition model_bytes : ModelInterface.t :=
  {| ModelInterface.status := OkStatus;
     ModelInterface.Encode := encode_bytes;
     ModelInterface.NBestEncode := fun normalized _ => [(encode_bytes normalized, 0%float)];
     ModelInterface.SampleEncode := fun normalized _ => encode_bytes normalized;
     ModelInterface.IsNBestEncodeAvailable := true;
     ModelInterface.IsSampleEncodeAvailable := true;
     ModelInterface.PieceToId := PieceToId;
     ModelInterface.IdToPiece := IdToPiece;
     ModelInterface.GetPieceSize := Z.of_nat (List.length vocab);
     ModelInterface.piece_type := piece_type;
     ModelInterface.ByteFallbackEnabled := false;
     ModelInterface.unk_piece := "<unk>";
     ModelInterface.bos_piece := "<s>";
     ModelInterface.eos_piece := "</s>";
     ModelInterface.pad_piece := "<pad>" |}.

(** The identity normalizer: [norm_to_orig] is [0, 1, ..., |input|]. *)
Definition identity : normalizer.Normalizer :=
  {| normalizer.status := OkStatus;
     normalizer.Normalize := fun input =>
       (OkStatus, input, seq 0 (S (String.length input))) |}.

Definition proto (suffix dummy_prefix extra_ws : bool) : ModelProto :=
  {| opt_trainer_spec :=
       Some {| treat_whitespace_as_suffix := suffix; unk_surface := None |};
     normalizer_spec :=
       {| add_dummy_prefix := dummy_prefix;
          remove_extra_whitespaces := extra_ws |} |}.

Definition processor (m : ModelInterface.t) (mp : ModelProto)
    (options : list ExtraOption) : SentencePieceProcessor :=
  {| model_ := Some m;
     normalizer_ := Some identity;
     denormalizer_ := None;
     model_proto_ := Some mp;
     encode_extra_options_ := options;
     decode_extra_options_ := [] |}.

Definition sp : SentencePieceProcessor :=
  processor (model true true false) (proto false true true) [].

(** The same vocabulary behind a model without n-best encoding. *)
Definition sp_sampling : SentencePieceProcessor :=
  processor (model false true false) (proto false true true) [].

Definition sp_byte_fallback : SentencePieceProcessor :=
  processor (model true true true) (proto false true true) [].

Definition sp_bytes : SentencePieceProcessor :=
  processor model_bytes (proto false true true) [].

Definition draw_first : float -> list float -> nat := fun _ _ => O.

End Toy.

(** More concrete pieces to run the definitions on. *)
Module Sample.

(** A processor with a model and no normalizer: its status is not OK. *)
Definition not_ready : SentencePieceProcessor :=
  {| model_ := Some (Toy.model true true false);
     normalizer_ := None;
     denormalizer_ := None;
     model_proto_ := None;
     encode_extra_options_ := [];
     decode_extra_options_ := [] |}.

(** A processor whose BOS piece is not in the vocabulary. *)
Definition model_without_bos : ModelInterface.t :=
  {| ModelInterface.status := OkStatus;
     ModelInterface.Encode := Toy.encode_whole;
     ModelInterface.NBestEncode := fun normalized _ => [(Toy.encode_whole normalized, 0%float)];
     ModelInterface.SampleEncode := fun normalized _ => Toy.encode_bytes normalized;
     ModelInterface.IsNBestEncodeAvailable := true;
     ModelInterface.IsSampleEncodeAvailable := true;
     ModelInterface.PieceToId := Toy.PieceToId;
     ModelInterface.IdToPiece := Toy.IdToPiece;
     ModelInterface.GetPieceSize := Z.of_nat (List.length Toy.vocab);
     ModelInterface.piece_type := Toy.piece_type;
     ModelInterface.ByteFallbackEnabled := false;
     ModelInterface.unk_piece := "<unk>";
     ModelInterface.bos_piece := "<bos>";
     ModelInterface.eos_piece := "</s>";
     ModelInterface.pad_piece := "<pad>" |}.

Definition sp_without_bos : SentencePieceProcessor :=
  Toy.processor model_without_bos (Toy.proto false true true) [].

(** A small model proto vocabulary. *)
Definition vocabulary : Vocabulary :=
  {| model_type := UNIGRAM;
     proto_pieces :=
       [ {| ModelProto_SentencePiece.piece := "<unk>";
            ModelProto_SentencePiece.type := UNKNOWN |};
         {| ModelProto_SentencePiece.piece := "<s>";
            ModelProto_SentencePiece.type := CONTROL |};
         {| ModelProto_SentencePiece.piece := "a";
            ModelProto_SentencePiece.type := NORMAL |};
         {| ModelProto_SentencePiece.piece := "ab";
            ModelProto_SentencePiece.type := NORMAL |};
         {| ModelProto_SentencePiece.piece := "abc";
            ModelProto_SentencePiece.type := UNUSED |};
         {| ModelProto_SentencePiece.piece := "<0xE2>";
            ModelProto_SentencePiece.type := BYTE |} ] |}.

(** Byte helpers that take every byte for a character of its own. *)
Definition PieceToByte (piece : string) : Z :=
  match find (fun b => String.eqb (ByteToPiece (ascii_of_nat b)) piece) (seq 0 256) with
  | Some b => Z.of_nat b
  | None => -1
  end.

Definition bytes_as_chars : string_util.t :=
  {| string_util.PieceToByte := PieceToByte;
     string_util.UTF8ToUnicodeText :=
       fun bytes => map (fun c => Z.of_nat (nat_of_ascii c)) (list_ascii_of_string bytes);
     string_util.UnicodeCharToUTF8 :=
       fun uc => String (ascii_of_nat (Z.to_nat uc)) "" |}.

(** The identity as a denormalizer. *)
Definition sp_denormalized : SentencePieceProcessor :=
  {| model_ := Some (Toy.model true true false);
     normalizer_ := Some Toy.identity;
     denormalizer_ := Some Toy.identity;
     model_proto_ := Some (Toy.proto false true true);
     encode_extra_options_ := [];
     decode_extra_options_ := [] |}.

(** A ready processor without model proto: model and normalizer installed
    through [SetModel] and [SetNormalizer]. *)
Definition sp_without_proto : SentencePieceProcessor :=
  {| model_ := Some (Toy.model true true false);
     normalizer_ := Some Toy.identity;
     denormalizer_ := None;
     model_proto_ := None;
     encode_extra_options_ := [];
     decode_extra_options_ := [] |}.

(** A model whose unk and bos pieces hold a NUL byte: [a\0] and
    [<s>\0zz]. *)
Definition model_nul_pieces : ModelInterface.t :=
  {| ModelInterface.status := OkStatus;
     ModelInterface.Encode := Toy.encode_whole;
     ModelInterface.NBestEncode := fun normalized _ => [(Toy.encode_whole normalized, 0%float)];
     ModelInterface.SampleEncode := fun normalized _ => Toy.encode_bytes normalized;
     ModelInterface.IsNBestEncodeAvailable := true;
     ModelInterface.IsSampleEncodeAvailable := true;
     ModelInterface.PieceToId := Toy.PieceToId;
     ModelInterface.IdToPiece := Toy.IdToPiece;
     ModelInterface.GetPieceSize := Z.of_nat (List.length Toy.vocab);
     ModelInterface.piece_type := Toy.piece_type;
     ModelInterface.ByteFallbackEnabled := false;
     ModelInterface.unk_piece := String "a" (String Ascii.zero "");
     ModelInterface.bos_piece := ("<s>" ++ String Ascii.zero "zz")%string;
     ModelInterface.eos_piece := "</s>";
     ModelInterface.pad_piece := "<pad>" |}.

Definition sp_nul_pieces : SentencePieceProcessor :=
  Toy.processor model_nul_pieces (Toy.proto false true true) [].

End Sample.

(* ================================================================== *)
(** * Properties                                                       *)
(* ================================================================== *)

(** ** Outcomes and the loaded processor *)

Lemma bind_Ret {A B : Type} (a : A) (k : A -> outcome B) :
  (x <- Ret a ;; k x) = k a.
Proof. reflexivity. Qed.

Lemma with_model_ok {A : Type} (sp : SentencePieceProcessor) (m : ModelInterface.t)
    (default : A) (f : ModelInterface.t -> A) :
  model_ sp = Some m -> ok (status sp) = true -> with_model sp default f = f m.
Proof. intros Hm Hs. unfold with_model. rewrite Hs, Hm. reflexivity. Qed.

(** A piece type is one type: an id is not both unknown and control. *)
Lemma model_unknown_not_control (m : ModelInterface.t) (id : Z) :
  ModelInterface.IsUnknown m id = true -> ModelInterface.IsControl m id = false.
Proof.
  unfold ModelInterface.IsUnknown, ModelInterface.IsControl.
  destruct (ModelInterface.piece_type m id); simpl; congruence.
Qed.

Lemma IsUnknown_not_IsControl (sp : SentencePieceProcessor) (id : Z) :
  IsUnknown sp id = true -> IsControl sp id = false.
Proof.
  unfold IsUnknown, IsControl, with_model.
  destruct (ok (status sp)); [|discriminate].
  destruct (model_ sp) as [m|]; [|discriminate].
  apply model_unknown_not_control.
Qed.

Lemma IsControl_not_IsUnknown (sp : SentencePieceProcessor) (id : Z) :
  IsControl sp id = true -> IsUnknown sp id = false.
Proof.
  intros H. destruct (IsUnknown sp id) eqn:E; [|reflexivity].
  apply IsUnknown_not_IsControl in E. congruence.
Qed.

(** ** Searching a vector *)

Section FindPos.

Variable A : Type.
Variable eqb : A -> A -> bool.
Hypothesis eqb_spec : forall a b, reflect (a = b) (eqb a b).

Lemma find_pos_absent_gen (x : A) (v : list A) :
  ~ In x v -> find_pos eqb x v = List.length v.
Proof.
  induction v as [|y v IH]; intros Hin; simpl; [reflexivity|].
  destruct (eqb_spec y x) as [->|Hne].
  - exfalso. apply Hin. left. reflexivity.
  - f_equal. apply IH. intros H. apply Hin. right. exact H.
Qed.

Lemma find_pos_app_gen (x : A) (pre rest : list A) :
  ~ In x pre ->
  find_pos eqb x (pre ++ rest) = (List.length pre + find_pos eqb x rest)%nat.
Proof.
  induction pre as [|y pre IH]; intros Hin; simpl; [reflexivity|].
  destruct (eqb_spec y x) as [->|Hne].
  - exfalso. apply Hin. left. reflexivity.
  - f_equal. apply IH. intros H. apply Hin. right. exact H.
Qed.

Lemma find_pos_head_gen (x : A) (rest : list A) : find_pos eqb x (x :: rest) = O.
Proof. simpl. destruct (eqb_spec x x); [reflexivity | contradiction]. Qed.

Lemma find_pos_skip_gen (x y : A) (rest : list A) :
  y <> x -> find_pos eqb x (y :: rest) = S (find_pos eqb x rest).
Proof. intros Hne. simpl. destruct (eqb_spec y x); [contradiction|reflexivity]. Qed.

Lemma find_pos_present_gen (x : A) (v : list A) :
  In x v -> (find_pos eqb x v < List.length v)%nat.
Proof.
  induction v as [|y v IH]; intros Hin; [destruct Hin|]. simpl.
  destruct (eqb_spec y x) as [->|Hne]; [lia|].
  destruct Hin as [H|H]; [congruence|]. specialize (IH H). lia.
Qed.

End FindPos.

Lemma find_pos_absent (x : string) (v : list string) :
  ~ In x v -> find_pos String.eqb x v = List.length v.
Proof. apply find_pos_absent_gen, String.eqb_spec. Qed.

Lemma find_pos_app (x : string) (pre rest : list string) :
  ~ In x pre ->
  find_pos String.eqb x (pre ++ rest)
  = (List.length pre + find_pos String.eqb x rest)%nat.
Proof. apply find_pos_app_gen, String.eqb_spec. Qed.

Lemma find_pos_head (x : string) (rest : list string) :
  find_pos String.eqb x (x :: rest) = O.
Proof. apply find_pos_head_gen, String.eqb_spec. Qed.

Lemma find_pos_skip (x y : string) (rest : list string) :
  y <> x -> find_pos String.eqb x (y :: rest) = S (find_pos String.eqb x rest).
Proof. apply find_pos_skip_gen, String.eqb_spec. Qed.

Lemma find_pos_present (x : string) (v : list string) :
  In x v -> (find_pos String.eqb x v < List.length v)%nat.
Proof. apply find_pos_present_gen, String.eqb_spec. Qed.

Lemma find_id_app (x : Z) (pre rest : list Z) :
  ~ In x pre ->
  find_pos Z.eqb x (pre ++ rest) = (List.length pre + find_pos Z.eqb x rest)%nat.
Proof. apply find_pos_app_gen, Z.eqb_spec. Qed.

Lemma find_id_head (x : Z) (rest : list Z) : find_pos Z.eqb x (x :: rest) = O.
Proof. apply find_pos_head_gen, Z.eqb_spec. Qed.

Lemma find_id_skip (x y : Z) (rest : list Z) :
  y <> x -> find_pos Z.eqb x (y :: rest) = S (find_pos Z.eqb x rest).
Proof. apply find_pos_skip_gen, Z.eqb_spec. Qed.

(** ** Special ids *)

Lemma string_view_of_c_str_id (s : string) :
  has_nul s = false -> string_view_of_c_str s = s.
Proof.
  induction s as [|c s IH]; simpl; [reflexivity|].
  intros H. apply orb_false_iff in H. destruct H as [Hc Hs].
  rewrite Hc. f_equal. auto.
Qed.

(** What is looked up is the piece up to its first NUL byte: the piece
    is this view, followed by nothing or by a NUL byte and a rest. *)
Lemma string_view_of_c_str_cut (s : string) :
  has_nul (string_view_of_c_str s) = false
  /\ (s = string_view_of_c_str s
      \/ exists rest,
           s = (string_view_of_c_str s ++ String Ascii.zero rest)%string).
Proof.
  induction s as [|c s [IHfree IHcut]]; simpl.
  - split; [reflexivity | left; reflexivity].
  - destruct (Ascii.eqb c Ascii.zero) eqn:E.
    + split; [reflexivity|]. right. exists s.
      apply Ascii.eqb_eq in E. subst c. reflexivity.
    + split.
      * simpl. rewrite E. exact IHfree.
      * destruct IHcut as [Heq | [rest Heq]].
        -- left. congruence.
        -- right. exists rest. simpl. congruence.
Qed.

(** C8.  For a loaded processor, each special piece is looked up as a C
    string, that is up to its first NUL byte.  [unk_id] is the id of that
    view of the unk piece when the model types the id UNKNOWN and [-1]
    otherwise; [bos_id], [eos_id] and [pad_id] are the id of that view of
    their piece when the model types the id CONTROL and [-1] otherwise.
    For a piece without NUL byte the view is the piece, and the id looked
    up is the id of the piece. *)
Theorem special_ids_type_checked (sp : SentencePieceProcessor) (m : ModelInterface.t) :
  model_ sp = Some m ->
  ok (status sp) = true ->
  let id_of := fun piece => ModelInterface.PieceToId m (string_view_of_c_str piece) in
  unk_id sp = Ret (if ModelInterface.IsUnknown m (id_of (ModelInterface.unk_piece m))
                   then id_of (ModelInterface.unk_piece m) else -1)
  /\ bos_id sp = Ret (if ModelInterface.IsControl m (id_of (ModelInterface.bos_piece m))
                      then id_of (ModelInterface.bos_piece m) else -1)
  /\ eos_id sp = Ret (if ModelInterface.IsControl m (id_of (ModelInterface.eos_piece m))
                      then id_of (ModelInterface.eos_piece m) else -1)
  /\ pad_id sp = Ret (if ModelInterface.IsControl m (id_of (ModelInterface.pad_piece m))
                      then id_of (ModelInterface.pad_piece m) else -1)
  /\ (forall piece, has_nul piece = false ->
        id_of piece = ModelInterface.PieceToId m piece).
Proof.
  intros Hm Hs id_of. subst id_of.
  unfold unk_id, bos_id, eos_id, pad_id, PieceToId, IsUnknown, IsControl.
  rewrite Hm. simpl.
  rewrite !(with_model_ok sp m) by assumption.
  repeat split;
    try (match goal with |- context [if ?b then _ else _] => destruct b; reflexivity end).
  intros piece Hpiece. rewrite string_view_of_c_str_id by exact Hpiece. reflexivity.
Qed.

Lemma special_ids_type_checked_witness :
  unk_id Sample.sp_nul_pieces = Ret (-1) /\ bos_id Sample.sp_nul_pieces = Ret 1
  /\ eos_id Sample.sp_nul_pieces = Ret 2 /\ pad_id Sample.sp_nul_pieces = Ret (-1)
  /\ (forall piece, has_nul piece = false ->
        Toy.PieceToId (string_view_of_c_str piece) = Toy.PieceToId piece).
Proof.
  exact (special_ids_type_checked Sample.sp_nul_pieces Sample.model_nul_pieces
           eq_refl eq_refl).
Defined.

(** A special piece with a NUL byte inside is not looked up whole.  The
    bos piece [<s>\0zz] is not in the vocabulary, so its id is the unknown
    id and not CONTROL, yet [bos_id] is [1], the id of [<s>]; the unk
    piece [a\0] has the unknown id [0], yet [unk_id] is [-1], because [a]
    is a normal piece. *)
Lemma special_ids_read_c_strings :
  ok (status Sample.sp_nul_pieces) = true
  /\ ModelInterface.IsControl Sample.model_nul_pieces
       (ModelInterface.PieceToId Sample.model_nul_pieces
          (ModelInterface.bos_piece Sample.model_nul_pieces)) = false
  /\ bos_id Sample.sp_nul_pieces = Ret 1
  /\ ModelInterface.PieceToId Sample.model_nul_pieces
       (ModelInterface.unk_piece Sample.model_nul_pieces) = 0
  /\ ModelInterface.IsUnknown Sample.model_nul_pieces 0 = true
  /\ unk_id Sample.sp_nul_pieces = Ret (-1).
Proof. repeat split; reflexivity. Qed.

(** ** Sampling with one candidate *)

(** C3, for the models that offer n-best encoding.  [SampleEncode] with
    [nbest_size] 0 or 1 takes the branch that calls the model's plain
    [Encode], and its result is that of [Encode] on the same input,
    whatever the generator draws. *)
Theorem SampleEncode_single_is_Encode
    (draw : float -> list float -> nat) (sp : SentencePieceProcessor)
    (m : ModelInterface.t) (input : string) (nbest_size : Z) (alpha : float) :
  model_ sp = Some m ->
  ModelInterface.IsNBestEncodeAvailable m = true ->
  nbest_size = 0 \/ nbest_size = 1 ->
  SampleEncode draw sp input nbest_size alpha = Encode sp input.
Proof.
  intros Hm Hn Hsize. unfold SampleEncode, Encode, RETURN_IF_ERROR.
  destruct (ok (status sp)); [|reflexivity].
  assert (Hle : (nbest_size <=? 512) = true) by (apply Z.leb_le; lia).
  unfold CHECK_OR_RETURN at 1. rewrite Hle.
  destruct (normalizer_ sp) as [n|]; simpl; [|reflexivity].
  destruct (normalizer.Normalize n input) as [[st normalized] norm_to_orig].
  destruct (ok st); [|reflexivity].
  rewrite Hm. simpl. rewrite Hn. simpl.
  assert (Hneg : (nbest_size <? 0) = false) by (apply Z.ltb_ge; lia).
  rewrite Hneg.
  assert (Hone : (nbest_size =? 1) || (nbest_size =? 0) = true).
  { destruct Hsize; subst; reflexivity. }
  rewrite Hone. reflexivity.
Qed.

Lemma SampleEncode_single_is_Encode_witness :
  SampleEncode Toy.draw_first Toy.sp "ab" 1 0%float = Encode Toy.sp "ab".
Proof.
  apply (SampleEncode_single_is_Encode Toy.draw_first Toy.sp
           (Toy.model true true false) "ab" 1 0%float eq_refl eq_refl).
  right. reflexivity.
Defined.

(** Without n-best encoding the first branch is taken whatever
    [nbest_size] is: [SampleEncode] with [nbest_size = 1] asks the model to
    sample, and what it returns need not be the greedy tokenization. *)
Lemma SampleEncode_single_without_nbest :
  SampleEncode Toy.draw_first Toy.sp_sampling "ab" 1 0%float
    <> Encode Toy.sp_sampling "ab".
Proof. vm_compute. discriminate. Qed.

(** For every model without n-best encoding and every [nbest_size] up to
    512, the walk is run on what the model's [SampleEncode] returns, and
    the call fails when the model cannot sample. *)
Lemma SampleEncode_samples_without_nbest
    (draw : float -> list float -> nat) (sp : SentencePieceProcessor)
    (m : ModelInterface.t) (n : normalizer.Normalizer) (input : string)
    (nbest_size : Z) (alpha : float) :
  ok (status sp) = true ->
  model_ sp = Some m ->
  normalizer_ sp = Some n ->
  ModelInterface.IsNBestEncodeAvailable m = false ->
  nbest_size <= 512 ->
  SampleEncode draw sp input nbest_size alpha
  = let '(st, normalized, norm_to_orig) := normalizer.Normalize n input in
    RETURN_IF_ERROR st (
    CHECK_OR_RETURN (ModelInterface.IsSampleEncodeAvailable m)
      "SampleEncode is not available for the current model." (
    PopulateSentencePieceText sp input normalized norm_to_orig
      (ModelInterface.SampleEncode m normalized alpha))).
Proof.
  intros Hs Hm Hn Hnbest Hsize. unfold SampleEncode, RETURN_IF_ERROR.
  rewrite Hs, Hn.
  assert (Hle : (nbest_size <=? 512) = true) by (apply Z.leb_le; exact Hsize).
  unfold CHECK_OR_RETURN at 1. rewrite Hle. simpl.
  destruct (normalizer.Normalize n input) as [[st normalized] norm_to_orig].
  destruct (ok st); [|reflexivity].
  rewrite Hm. simpl. rewrite Hnbest. reflexivity.
Qed.

(** The equality is one of [SentencePieceText]s.  The overloads that return
    pieces differ on a run: [Encode] folds it, [SampleEncode] does not. *)
Lemma SampleEncode_pieces_not_folded :
  Encode_pieces Toy.sp_bytes "aaa" = Ret ["a"; kStartRepeat; "3"; kEndRepeat]
  /\ SampleEncode_pieces Toy.draw_first Toy.sp_bytes "aaa" 1 0%float
     = Ret ["a"; "a"; "a"].
Proof. split; reflexivity. Qed.

(** ** The encode walk: control pieces and byte fallback *)

Lemma string_empty_false (w : string) : w <> "" -> string_empty w = false.
Proof. destruct w; [congruence | reflexivity]. Qed.

(** The walk is a left fold: what follows a prefix starts from the state
    the prefix leaves. *)
Lemma populate_loop_app (sp : SentencePieceProcessor) (input : string)
    (norm_to_orig : list nat) (pre post : EncodeResult) (st : walk) :
  populate_loop sp input norm_to_orig (pre ++ post) st
  = (st' <- populate_loop sp input norm_to_orig pre st ;;
     populate_loop sp input norm_to_orig post st').
Proof.
  revert st. induction pre as [|p pre IH]; intros st; simpl; [reflexivity|].
  destruct (populate_piece sp input norm_to_orig st p); simpl; auto.
Qed.

(** The control arm of the loop body. *)
Lemma populate_piece_control_arm (sp : SentencePieceProcessor) (input : string)
    (norm_to_orig : list nat) (st : walk) (w : string) (id : Z) (b : nat) :
  IsControl sp id = true ->
  w <> "" ->
  nth_error norm_to_orig (consumed st) = Some b ->
  populate_piece sp input norm_to_orig st (w, id)
  = Ret {| consumed := consumed st; is_prev_unk := false;
           added := added st ++ [{| piece := w; id := id; surface := "";
                                    begin_ := b; end_ := b |}] |}.
Proof.
  intros Hc Hw Hb.
  unfold populate_piece, CHECK_OR_RETURN. simpl fst. simpl snd.
  rewrite (string_empty_false w Hw). simpl negb. cbv iota.
  rewrite Hc, (IsControl_not_IsUnknown sp id Hc).
  unfold offset_at. rewrite Hb. reflexivity.
Qed.

(** C5.  A model-emitted piece whose id is CONTROL adds one record with
    [begin = end = norm_to_orig[consumed]] and leaves [consumed] where it
    was. *)
Theorem control_piece_has_empty_span (sp : SentencePieceProcessor) (input : string)
    (norm_to_orig : list nat) (st : walk) (w : string) (id : Z) (b : nat) :
  IsControl sp id = true ->
  w <> "" ->
  nth_error norm_to_orig (consumed st) = Some b ->
  exists r st',
    populate_piece sp input norm_to_orig st (w, id) = Ret st'
    /\ added st' = added st ++ [r]
    /\ piece r = w /\ SentencePieceText.id r = id
    /\ begin_ r = b /\ end_ r = b /\ begin_ r = end_ r
    /\ consumed st' = consumed st.
Proof.
  intros Hc Hw Hb.
  eexists. eexists. split.
  - apply populate_piece_control_arm; eassumption.
  - simpl. repeat split.
Qed.

Lemma control_piece_has_empty_span_witness :
  exists r st',
    populate_piece Toy.sp "ab" [0; 1; 2]%nat
      {| consumed := 1; is_prev_unk := false; added := [] |} ("<s>", 1) = Ret st'
    /\ added st' = [] ++ [r]
    /\ piece r = "<s>" /\ SentencePieceText.id r = 1
    /\ begin_ r = 1%nat /\ end_ r = 1%nat /\ begin_ r = end_ r
    /\ consumed st' = 1%nat.
Proof.
  apply (control_piece_has_empty_span Toy.sp "ab" [0; 1; 2]%nat
           {| consumed := 1; is_prev_unk := false; added := [] |} "<s>" 1 1%nat).
  - reflexivity.
  - discriminate.
  - reflexivity.
Defined.

(** The same along a walk: after any prefix of the model's result that
    the loop got through, a control piece leaves the cursor where the
    prefix left it. *)
Lemma control_piece_in_walk (sp : SentencePieceProcessor) (input : string)
    (norm_to_orig : list nat) (pre : EncodeResult) (st : walk)
    (w : string) (id : Z) (b : nat) :
  populate_loop sp input norm_to_orig pre walk_start = Ret st ->
  IsControl sp id = true ->
  w <> "" ->
  nth_error norm_to_orig (consumed st) = Some b ->
  populate_loop sp input norm_to_orig (pre ++ [(w, id)]) walk_start
  = Ret {| consumed := consumed st; is_prev_unk := false;
           added := added st ++ [{| piece := w; id := id; surface := "";
                                    begin_ := b; end_ := b |}] |}.
Proof.
  intros Hpre Hc Hw Hb. rewrite populate_loop_app, Hpre, bind_Ret. simpl.
  rewrite (populate_piece_control_arm sp input norm_to_orig st w id b Hc Hw Hb).
  reflexivity.
Qed.

(** The records of the byte-fallback loop, position by position. *)
Lemma byte_fallback_pieces_length (m : ModelInterface.t) (w surface : string)
    (orig_begin orig_end : nat) :
  List.length (byte_fallback_pieces m w surface orig_begin orig_end) = String.length w.
Proof.
  induction w as [|b w IH]; [reflexivity|].
  destruct w as [|b' w']; [reflexivity|].
  change (byte_fallback_pieces m (String b (String b' w')) surface orig_begin orig_end)
    with ({| piece := ByteToPiece b; id := ModelInterface.PieceToId m (ByteToPiece b);
             surface := ""; begin_ := orig_begin; end_ := orig_begin |}
            :: byte_fallback_pieces m (String b' w') surface orig_begin orig_end).
  cbn [List.length]. rewrite IH. reflexivity.
Qed.

Lemma byte_fallback_pieces_nth (m : ModelInterface.t) (w surface : string)
    (orig_begin orig_end : nat) (i : nat) (b : ascii) :
  String.get i w = Some b ->
  nth_error (byte_fallback_pieces m w surface orig_begin orig_end) i
  = Some (if (S i =? String.length w)%nat
          then {| piece := ByteToPiece b; id := ModelInterface.PieceToId m (ByteToPiece b);
                  surface := surface; begin_ := orig_begin; end_ := orig_end |}
          else {| piece := ByteToPiece b; id := ModelInterface.PieceToId m (ByteToPiece b);
                  surface := ""; begin_ := orig_begin; end_ := orig_begin |}).
Proof.
  revert i. induction w as [|c w IH]; intros i Hget; [discriminate|].
  destruct w as [|c' w'].
  - destruct i as [|i]; simpl in Hget; [|destruct i; discriminate].
    injection Hget as ->. reflexivity.
  - change (byte_fallback_pieces m (String c (String c' w')) surface orig_begin orig_end)
      with ({| piece := ByteToPiece c; id := ModelInterface.PieceToId m (ByteToPiece c);
               surface := ""; begin_ := orig_begin; end_ := orig_begin |}
              :: byte_fallback_pieces m (String c' w') surface orig_begin orig_end).
    destruct i as [|i].
    + simpl in Hget. injection Hget as ->. reflexivity.
    + cbn [nth_error]. rewrite (IH i) by exact Hget.
      change (String.length (String c (String c' w')))
        with (S (String.length (String c' w'))).
      reflexivity.
Qed.

(** C4.  With byte fallback enabled, a model-emitted piece [w] whose id
    is UNKNOWN adds exactly [|w|] records, the [i]-th spelling byte [i] of
    [w] with that byte piece's id; all but the last are empty at
    [orig_begin], the last carries the surface and [[orig_begin,
    orig_end)]. *)
Theorem byte_fallback_one_record_per_byte (sp : SentencePieceProcessor)
    (m : ModelInterface.t) (input : string) (norm_to_orig : list nat) (st : walk)
    (w : string) (id : Z) (orig_begin orig_end : nat) :
  model_ sp = Some m ->
  IsUnknown sp id = true ->
  ModelInterface.ByteFallbackEnabled m = true ->
  w <> "" ->
  nth_error norm_to_orig (consumed st) = Some orig_begin ->
  nth_error norm_to_orig (consumed st + String.length w) = Some orig_end ->
  (orig_begin <= orig_end <= String.length input)%nat ->
  exists records,
    populate_piece sp input norm_to_orig st (w, id)
    = Ret {| consumed := (consumed st + String.length w)%nat; is_prev_unk := true;
             added := added st ++ records |}
    /\ List.length records = String.length w
    /\ forall i b, String.get i w = Some b ->
         exists r, nth_error records i = Some r
           /\ piece r = ByteToPiece b
           /\ SentencePieceText.id r = ModelInterface.PieceToId m (ByteToPiece b)
           /\ begin_ r = orig_begin
           /\ (S i < String.length w -> end_ r = orig_begin /\ surface r = "")%nat
           /\ (S i = String.length w ->
               end_ r = orig_end
               /\ surface r = ClippedSubstr input orig_begin (orig_end - orig_begin))%nat.
Proof.
  intros Hm Hunk Hbf Hw Hb He [Hle Hin].
  exists (byte_fallback_pieces m w
            (ClippedSubstr input orig_begin (orig_end - orig_begin)) orig_begin orig_end).
  split; [|split].
  - unfold populate_piece, CHECK_OR_RETURN. simpl fst. simpl snd.
    rewrite (string_empty_false w Hw). simpl negb. cbv iota.
    rewrite (IsUnknown_not_IsControl sp id Hunk), Hunk.
    assert (Hlt1 : (consumed st <? List.length norm_to_orig)%nat = true).
    { apply Nat.ltb_lt. apply nth_error_Some. congruence. }
    assert (Hlt2 : (consumed st + String.length w <? List.length norm_to_orig)%nat = true).
    { apply Nat.ltb_lt. apply nth_error_Some. congruence. }
    rewrite Hlt1, Hlt2. unfold offset_at. rewrite Hb, He. simpl bind.
    assert (H1 : (orig_begin <=? String.length input)%nat = true)
      by (apply Nat.leb_le; lia).
    assert (H2 : (orig_end <=? String.length input)%nat = true)
      by (apply Nat.leb_le; lia).
    assert (H3 : (orig_begin <=? orig_end)%nat = true) by (apply Nat.leb_le; lia).
    rewrite H1, H2, H3, Hm. simpl. rewrite Hbf. reflexivity.
  - apply byte_fallback_pieces_length.
  - intros i b Hget. eexists. split.
    + apply byte_fallback_pieces_nth. exact Hget.
    + destruct (S i =? String.length w)%nat eqn:E; simpl.
      * apply Nat.eqb_eq in E. repeat split; auto; intros; lia.
      * apply Nat.eqb_neq in E. repeat split; auto; intros; lia.
Qed.

Lemma byte_fallback_one_record_per_byte_witness :
  exists records,
    populate_piece Toy.sp_byte_fallback (String "226" (String "130" (String "172" "")))
      [0; 0; 0; 3]%nat walk_start (String "226" (String "130" (String "172" "")), 0)
    = Ret {| consumed := 3; is_prev_unk := true; added := [] ++ records |}
    /\ List.length records = 3%nat
    /\ forall i b,
         String.get i (String "226" (String "130" (String "172" ""))) = Some b ->
         exists r, nth_error records i = Some r
           /\ piece r = ByteToPiece b
           /\ SentencePieceText.id r = Toy.PieceToId (ByteToPiece b)
           /\ begin_ r = 0%nat
           /\ (S i < 3 -> end_ r = 0 /\ surface r = "")%nat
           /\ (S i = 3 ->
               end_ r = 3
               /\ surface r
                  = ClippedSubstr (String "226" (String "130" (String "172" ""))) 0 (3 - 0))%nat.
Proof.
  apply (byte_fallback_one_record_per_byte Toy.sp_byte_fallback
           (Toy.model true true true) (String "226" (String "130" (String "172" "")))
           [0; 0; 0; 3]%nat walk_start (String "226" (String "130" (String "172" ""))) 0
           0%nat 3%nat).
  - reflexivity.
  - reflexivity.
  - reflexivity.
  - discriminate.
  - reflexivity.
  - reflexivity.
  - simpl. lia.
Defined.

(** ** Control records in the result of [Encode] *)

Lemma update_last_piece_snoc (before : list SentencePiece) (last : SentencePiece)
    (f : SentencePiece -> SentencePiece) :
  update_last_piece (before ++ [last]) f = Ret (before ++ [f last]).
Proof.
  unfold update_last_piece. rewrite rev_app_distr. simpl.
  rewrite rev_involutive. reflexivity.
Qed.

Lemma byte_fallback_pieces_ids (m : ModelInterface.t) (w surface : string)
    (orig_begin orig_end : nat) :
  Forall (fun r => exists b, id r = ModelInterface.PieceToId m (ByteToPiece b))
         (byte_fallback_pieces m w surface orig_begin orig_end).
Proof.
  induction w as [|c w IH]; [constructor|].
  destruct w as [|c' w'].
  - constructor; [exists c; reflexivity | constructor].
  - change (byte_fallback_pieces m (String c (String c' w')) surface orig_begin orig_end)
      with ({| piece := ByteToPiece c; id := ModelInterface.PieceToId m (ByteToPiece c);
               surface := ""; begin_ := orig_begin; end_ := orig_begin |}
              :: byte_fallback_pieces m (String c' w') surface orig_begin orig_end).
    constructor; [exists c; reflexivity | exact IH].
Qed.

Section ControlSpans.

Variable sp : SentencePieceProcessor.
Variable m : ModelInterface.t.
Variable input : string.
Variable norm_to_orig : list nat.

Hypothesis model_loaded : model_ sp = Some m.

(** The byte pieces are not control pieces of the vocabulary. *)
Hypothesis byte_ids_not_control :
  forall b, IsControl sp (ModelInterface.PieceToId m (ByteToPiece b)) = false.

Lemma populate_piece_spans (st st' : walk) (p : string * Z) :
  walk_spans_ok sp m st ->
  populate_piece sp input norm_to_orig st p = Ret st' ->
  walk_spans_ok sp m st'.
Proof.
  destruct p as [w id]. intros [Hall Hlast] Hstep.
  unfold populate_piece, CHECK_OR_RETURN in Hstep. simpl fst in Hstep. simpl snd in Hstep.
  destruct (string_empty w); [discriminate|]. simpl negb in Hstep. cbv iota in Hstep.
  destruct (IsControl sp id) eqn:Hctl.
  - destruct (offset_at norm_to_orig (consumed st)) as [b| | | |] eqn:Hb;
      simpl in Hstep; try discriminate.
    injection Hstep as <-. split; simpl.
    + apply Forall_app. split; [exact Hall|]. constructor; [|constructor].
      intros _. reflexivity.
    + rewrite (IsControl_not_IsUnknown sp id Hctl). discriminate.
  - destruct (consumed st <? List.length norm_to_orig)%nat; [|discriminate].
    destruct (consumed st + String.length w <? List.length norm_to_orig)%nat;
      [|discriminate].
    destruct (offset_at norm_to_orig (consumed st)) as [ob| | | |];
      simpl in Hstep; try discriminate.
    destruct (offset_at norm_to_orig (consumed st + String.length w)) as [oe| | | |];
      simpl in Hstep; try discriminate.
    destruct (ob <=? String.length input)%nat; [|discriminate].
    destruct (oe <=? String.length input)%nat; [|discriminate].
    destruct (ob <=? oe)%nat; [|discriminate].
    destruct (IsUnknown sp id) eqn:Hunk.
    + rewrite model_loaded in Hstep. simpl deref in Hstep. rewrite bind_Ret in Hstep.
      destruct (ModelInterface.ByteFallbackEnabled m) eqn:Hbf.
      * (* byte fallback *)
        rewrite bind_Ret in Hstep. injection Hstep as <-. split; simpl.
        -- apply Forall_app. split; [exact Hall|].
           eapply Forall_impl; [|apply byte_fallback_pieces_ids].
           intros r [b Hr] Hc. rewrite Hr, byte_ids_not_control in Hc. discriminate.
        -- intros _ H. congruence.
      * (* an unknown piece without byte fallback: merged or added *)
        unfold merge_or_add in Hstep.
        destruct (is_prev_unk st) eqn:Hprev; cbn [andb] in Hstep.
        -- destruct (Hlast eq_refl eq_refl) as [before [last [Hadded Hnot]]].
           rewrite Hadded, update_last_piece_snoc, bind_Ret in Hstep.
           injection Hstep as <-. rewrite Hadded in Hall.
           apply Forall_app in Hall. destruct Hall as [Hbefore _].
           split; simpl.
           ++ apply Forall_app. split; [exact Hbefore|]. constructor; [|constructor].
              unfold control_span_empty. simpl. rewrite Hnot. discriminate.
           ++ intros _ _. eexists. eexists. split; [reflexivity|]. exact Hnot.
        -- rewrite bind_Ret in Hstep. injection Hstep as <-. split; simpl.
           ++ apply Forall_app. split; [exact Hall|]. constructor; [|constructor].
              unfold control_span_empty. simpl. rewrite Hctl. discriminate.
           ++ intros _ _. eexists. eexists. split; [reflexivity|]. exact Hctl.
    + (* a known piece *)
      unfold merge_or_add in Hstep. rewrite andb_false_r in Hstep.
      rewrite bind_Ret in Hstep. injection Hstep as <-. split; simpl.
      * apply Forall_app. split; [exact Hall|]. constructor; [|constructor].
        unfold control_span_empty. simpl. rewrite Hctl. discriminate.
      * discriminate.
Qed.

Lemma populate_loop_spans (result : EncodeResult) :
  forall st st',
    walk_spans_ok sp m st ->
    populate_loop sp input norm_to_orig result st = Ret st' ->
    walk_spans_ok sp m st'.
Proof.
  induction result as [|p rest IH]; intros st st' Hok Hloop; simpl in Hloop.
  - injection Hloop as <-. exact Hok.
  - destruct (populate_piece sp input norm_to_orig st p) as [st1| | | |] eqn:Hstep;
      simpl in Hloop; try discriminate.
    apply (IH st1 st'); [|exact Hloop].
    apply (populate_piece_spans st st1 p Hok Hstep).
Qed.

Lemma ApplyExtraOptions_spans (extra_options : list ExtraOption) :
  forall ps ps',
    Forall (control_span_empty sp) ps ->
    ApplyExtraOptions sp extra_options ps = Ret ps' ->
    Forall (control_span_empty sp) ps'.
Proof.
  induction extra_options as [|o rest IH]; intros ps ps' Hall Happly; simpl in Happly.
  - injection Happly as <-. exact Hall.
  - destruct o; simpl in Happly; rewrite ?model_loaded in Happly; simpl in Happly;
      apply (IH _ ps' ) in Happly; try exact Happly.
    + apply Forall_rev. exact Hall.
    + constructor; [intros _; reflexivity | exact Hall].
    + apply Forall_app. split; [exact Hall|].
      constructor; [intros _; reflexivity | constructor].
Qed.

(** In the result of the walk every record whose id is CONTROL has
    [begin = end]. *)
Lemma PopulateSentencePieceText_control_spans (normalized : string)
    (result : EncodeResult) (spt : SentencePieceText) :
  PopulateSentencePieceText sp input normalized norm_to_orig result = Ret spt ->
  Forall (control_span_empty sp) (pieces spt).
Proof.
  unfold PopulateSentencePieceText, CHECK_OR_RETURN. intros H.
  destruct (populate_loop sp input norm_to_orig result walk_start) as [st| | | |] eqn:Hloop;
    simpl in H; try discriminate.
  destruct (consumed st =? String.length normalized)%nat; [|discriminate].
  destruct (ApplyExtraOptions sp (encode_extra_options_ sp) (added st))
    as [ps| | | |] eqn:Hps; simpl in H; try discriminate.
  injection H as <-. simpl.
  assert (Hstart : walk_spans_ok sp m walk_start).
  { split; [constructor | simpl; discriminate]. }
  destruct (populate_loop_spans result walk_start st Hstart Hloop) as [Hall _].
  exact (ApplyExtraOptions_spans _ _ _ Hall Hps).
Qed.

End ControlSpans.

(** So in every result of [Encode], whatever the extra options, a record
    whose id is CONTROL has [begin = end]. *)
Lemma Encode_control_spans (sp : SentencePieceProcessor) (m : ModelInterface.t)
    (input : string) (spt : SentencePieceText) :
  model_ sp = Some m ->
  (forall b, IsControl sp (ModelInterface.PieceToId m (ByteToPiece b)) = false) ->
  Encode sp input = Ret spt ->
  Forall (control_span_empty sp) (pieces spt).
Proof.
  intros Hm Hbytes. unfold Encode, RETURN_IF_ERROR.
  destruct (ok (status sp)); [|discriminate].
  destruct (normalizer_ sp) as [n|]; simpl; [|discriminate].
  destruct (normalizer.Normalize n input) as [[st normalized] norm_to_orig].
  destruct (ok st); [|discriminate].
  rewrite Hm. simpl.
  apply (PopulateSentencePieceText_control_spans sp m input norm_to_orig Hm Hbytes).
Qed.

(** ** The encode walk: when it fails *)

Lemma ApplyExtraOptions_loaded (sp : SentencePieceProcessor) (m : ModelInterface.t)
    (extra_options : list ExtraOption) (ps : list SentencePiece) :
  model_ sp = Some m -> exists ps', ApplyExtraOptions sp extra_options ps = Ret ps'.
Proof.
  intros Hm. revert ps.
  induction extra_options as [|o rest IH]; intros ps; simpl; [eauto|].
  destruct o; simpl; rewrite ?Hm; simpl; apply IH.
Qed.

Lemma update_last_piece_nonempty (ps : list SentencePiece)
    (f : SentencePiece -> SentencePiece) :
  ps <> [] -> exists ps', update_last_piece ps f = Ret ps' /\ ps' <> [].
Proof.
  intros Hps. unfold update_last_piece.
  destruct (rev ps) as [|last before] eqn:E.
  - apply (f_equal (@rev _)) in E. rewrite rev_involutive in E. contradiction.
  - eexists. split; [reflexivity|]. intros H. apply app_eq_nil in H.
    destruct H as [_ H]. discriminate.
Qed.

Lemma byte_fallback_pieces_nonempty (m : ModelInterface.t) (w surface : string)
    (orig_begin orig_end : nat) :
  w <> "" -> byte_fallback_pieces m w surface orig_begin orig_end <> [].
Proof.
  intros Hw H. apply (f_equal (@List.length _)) in H.
  rewrite byte_fallback_pieces_length in H. destruct w; [congruence|discriminate].
Qed.

Section EncodeWalk.

Variable sp : SentencePieceProcessor.
Variable m : ModelInterface.t.
Variables input normalized : string.
Variable norm_to_orig : list nat.

Hypothesis model_loaded : model_ sp = Some m.
Hypothesis well_formed : offsets_well_formed input normalized norm_to_orig.

Lemma offset_in_range (i : nat) :
  (i <= String.length normalized)%nat ->
  exists a, nth_error norm_to_orig i = Some a.
Proof.
  intros Hi. destruct (nth_error norm_to_orig i) as [a|] eqn:E; [eauto|].
  apply nth_error_None in E. rewrite (offsets_length _ _ _ well_formed) in E. lia.
Qed.

Lemma populate_piece_empty (st : walk) (id : Z) :
  populate_piece sp input norm_to_orig st ("", id)
  = Failed (InternalError "Empty piece is not allowed.").
Proof. reflexivity. Qed.

Lemma populate_piece_control (st : walk) (w : string) (id : Z) :
  walk_ok normalized st -> w <> "" -> IsControl sp id = true ->
  exists st', populate_piece sp input norm_to_orig st (w, id) = Ret st'
              /\ consumed st' = consumed st /\ walk_ok normalized st'.
Proof.
  intros [Hc Hp] Hw Hctl.
  destruct (offset_in_range (consumed st) Hc) as [b Hb].
  eexists. split.
  - apply (populate_piece_control_arm sp input norm_to_orig st w id b Hctl Hw Hb).
  - split; [reflexivity|]. split; simpl; [exact Hc | discriminate].
Qed.

Lemma populate_piece_overrun (st : walk) (w : string) (id : Z) :
  walk_ok normalized st -> w <> "" -> IsControl sp id = false ->
  (String.length normalized < consumed st + String.length w)%nat ->
  exists msg, populate_piece sp input norm_to_orig st (w, id)
              = Failed (InternalError msg).
Proof.
  intros [Hc Hp] Hw Hctl Hover.
  unfold populate_piece, CHECK_OR_RETURN. simpl fst. simpl snd.
  rewrite (string_empty_false w Hw). simpl negb. cbv iota. rewrite Hctl.
  rewrite (offsets_length _ _ _ well_formed).
  assert (H1 : (consumed st <? S (String.length normalized))%nat = true)
    by (apply Nat.ltb_lt; lia).
  assert (H2 : (consumed st + String.length w <? S (String.length normalized))%nat
               = false) by (apply Nat.ltb_ge; lia).
  rewrite H1, H2. eauto.
Qed.

Lemma populate_piece_advance (st : walk) (w : string) (id : Z) :
  walk_ok normalized st -> w <> "" -> IsControl sp id = false ->
  (consumed st + String.length w <= String.length normalized)%nat ->
  exists st', populate_piece sp input norm_to_orig st (w, id) = Ret st'
              /\ consumed st' = (consumed st + String.length w)%nat
              /\ walk_ok normalized st'.
Proof.
  intros [Hc Hp] Hw Hctl Hfit.
  destruct (offset_in_range (consumed st) Hc) as [ob Hob].
  destruct (offset_in_range (consumed st + String.length w) Hfit) as [oe Hoe].
  unfold populate_piece, CHECK_OR_RETURN. simpl fst. simpl snd.
  rewrite (string_empty_false w Hw). simpl negb. cbv iota. rewrite Hctl.
  rewrite (offsets_length _ _ _ well_formed).
  assert (H1 : (consumed st <? S (String.length normalized))%nat = true)
    by (apply Nat.ltb_lt; lia).
  assert (H2 : (consumed st + String.length w <? S (String.length normalized))%nat
               = true) by (apply Nat.ltb_lt; lia).
  rewrite H1, H2. unfold offset_at. rewrite Hob, Hoe. simpl bind.
  assert (H3 : (ob <=? String.length input)%nat = true).
  { apply Nat.leb_le. exact (offsets_bounded _ _ _ well_formed _ _ Hob). }
  assert (H4 : (oe <=? String.length input)%nat = true).
  { apply Nat.leb_le. exact (offsets_bounded _ _ _ well_formed _ _ Hoe). }
  assert (H5 : (ob <=? oe)%nat = true).
  { apply Nat.leb_le.
    apply (offsets_monotone _ _ _ well_formed (consumed st)
             (consumed st + String.length w)%nat); [lia|assumption|assumption]. }
  rewrite H3, H4, H5.
  assert (Hmerge : forall surface,
            exists ps, merge_or_add st w id (IsUnknown sp id) surface ob oe = Ret ps
                       /\ ps <> []).
  { intros surface. unfold merge_or_add.
    destruct (is_prev_unk st && IsUnknown sp id) eqn:Emerge.
    - apply andb_true_iff in Emerge. destruct Emerge as [Hprev _].
      apply update_last_piece_nonempty. exact (Hp Hprev).
    - eexists. split; [reflexivity|]. intros H. apply app_eq_nil in H.
      destruct H as [_ H]. discriminate. }
  destruct (Hmerge (ClippedSubstr input ob (oe - ob))) as [ps [Hps Hne]].
  destruct (IsUnknown sp id) eqn:Hunk.
  - rewrite model_loaded. simpl deref. rewrite bind_Ret.
    destruct (ModelInterface.ByteFallbackEnabled m).
    + rewrite bind_Ret. eexists. split; [reflexivity|]. split; [reflexivity|].
      split; simpl; [lia|]. intros _ H. apply app_eq_nil in H. destruct H as [_ H].
      exact (byte_fallback_pieces_nonempty m w _ ob oe Hw H).
    + rewrite Hps, bind_Ret. eexists. split; [reflexivity|]. split; [reflexivity|].
      split; simpl; [lia | intros _; exact Hne].
  - rewrite Hps, bind_Ret. eexists. split; [reflexivity|]. split; [reflexivity|].
    split; simpl; [lia | discriminate].
Qed.

(** The loop either walks all of [result], consuming what its pieces
    stand for, or stops with an [Internal] status at an empty piece or
    at a piece that runs past the normalized text. *)
Lemma populate_loop_outcome (result : EncodeResult) (st : walk) :
  walk_ok normalized st ->
  (has_empty_piece result = false
   /\ (consumed st + consumed_by sp result <= String.length normalized)%nat
   /\ exists st', populate_loop sp input norm_to_orig result st = Ret st'
                  /\ consumed st' = (consumed st + consumed_by sp result)%nat)
  \/ ((has_empty_piece result = true
       \/ (String.length normalized < consumed st + consumed_by sp result)%nat)
      /\ exists msg, populate_loop sp input norm_to_orig result st
                     = Failed (InternalError msg)).
Proof.
  revert st. induction result as [|[w id] rest IH]; intros st Hok.
  - left. simpl. destruct Hok as [Hc _]. repeat split; [lia|].
    exists st. split; [reflexivity|lia].
  - destruct (string_dec w "") as [->|Hw].
    { right. split; [left; reflexivity|]. simpl. eauto. }
    assert (He : has_empty_piece ((w, id) :: rest) = has_empty_piece rest).
    { unfold has_empty_piece. simpl. rewrite (string_empty_false w Hw). reflexivity. }
    rewrite He. cbn [populate_loop consumed_by].
    destruct (IsControl sp id) eqn:Hctl.
    + destruct (populate_piece_control st w id Hok Hw Hctl) as [st' [Hst' [Hc' Hok']]].
      rewrite Hst', bind_Ret. simpl Nat.add. rewrite <- Hc'. apply IH. exact Hok'.
    + destruct (Nat.le_gt_cases (consumed st + String.length w)
                                (String.length normalized)) as [Hfit|Hover].
      * destruct (populate_piece_advance st w id Hok Hw Hctl Hfit)
          as [st' [Hst' [Hc' Hok']]].
        rewrite Hst', bind_Ret.
        replace (consumed st + (String.length w + consumed_by sp rest))%nat
          with (consumed st' + consumed_by sp rest)%nat by lia.
        apply IH. exact Hok'.
      * destruct (populate_piece_overrun st w id Hok Hw Hctl Hover) as [msg Hmsg].
        right. split; [right; lia|]. rewrite Hmsg. simpl. eauto.
Qed.

(** [PopulateSentencePieceText] on a well-formed offset map: an
    [Internal] status exactly for an empty piece or a consumed count
    other than [|normalized|], a result otherwise. *)
Lemma PopulateSentencePieceText_outcome (result : EncodeResult) :
  ((exists msg, PopulateSentencePieceText sp input normalized norm_to_orig result
                = Failed (InternalError msg))
   <-> (has_empty_piece result = true
        \/ consumed_by sp result <> String.length normalized))
  /\ ((has_empty_piece result = false
       /\ consumed_by sp result = String.length normalized)
      -> exists spt, PopulateSentencePieceText sp input normalized norm_to_orig result
                     = Ret spt).
Proof.
  assert (Hstart : walk_ok normalized walk_start) by (split; simpl; [lia|discriminate]).
  unfold PopulateSentencePieceText.
  destruct (populate_loop_outcome result walk_start Hstart)
    as [[He [Hle [st' [Hst' Hc']]]] | [Hbad [msg Hmsg]]].
  - rewrite Hst', bind_Ret. simpl in Hc', Hle. unfold CHECK_OR_RETURN.
    destruct (ApplyExtraOptions_loaded sp m (encode_extra_options_ sp) (added st')
                model_loaded) as [ps Hps].
    destruct (consumed st' =? String.length normalized)%nat eqn:E.
    + apply Nat.eqb_eq in E. rewrite Hps, bind_Ret. split; [split|].
      * intros [msg H]. discriminate.
      * intros [H|H]; [congruence | lia].
      * intros _. eauto.
    + apply Nat.eqb_neq in E. split; [split|].
      * intros _. right. lia.
      * intros _. eauto.
      * intros [_ H]. lia.
  - rewrite Hmsg. simpl. split; [split|].
    + intros _. destruct Hbad as [H|H]; [left; exact H | right; simpl in H; lia].
    + intros _. eauto.
    + intros [He Hc]. destruct Hbad as [H|H]; [congruence | simpl in H; lia].
Qed.

End EncodeWalk.


(** The identity normalizer keeps its promise. *)
Lemma nth_error_seq_0 (n i a : nat) : nth_error (seq 0 n) i = Some a -> a = i.
Proof.
  intros H. assert (Hi : (i < n)%nat).
  { rewrite <- (length_seq n 0%nat). apply nth_error_Some. congruence. }
  apply (nth_error_nth _ _ O) in H. rewrite seq_nth in H by exact Hi. lia.
Qed.

Lemma identity_offsets_well_formed (input : string) :
  offsets_well_formed input input (seq 0 (S (String.length input))).
Proof.
  split.
  - apply length_seq.
  - intros i j a b Hij Ha Hb.
    apply nth_error_seq_0 in Ha. apply nth_error_seq_0 in Hb. lia.
  - intros i a Ha. assert (Hi : (i < S (String.length input))%nat).
    { rewrite <- (length_seq (S (String.length input)) 0%nat).
      apply nth_error_Some. congruence. }
    apply nth_error_seq_0 in Ha. lia.
Qed.


(** ** The run-length layer: folding then unfolding *)

Lemma wrap_int_small (z : Z) : INT_MIN <= z <= INT_MAX -> wrap_int z = z.
Proof.
  unfold INT_MIN, INT_MAX, wrap_int. intros H.
  rewrite Z.mod_small by lia. lia.
Qed.

(** Linear arithmetic with the bounds of [int] spelled out. *)
Ltac int_range := unfold INT_MIN, INT_MAX in *; lia.

(** *** Digits *)

Lemma extract_each_digit_loop_zero (fuel : nat) : extract_each_digit_loop fuel 0 = [].
Proof. destruct fuel; reflexivity. Qed.

Lemma extract_each_digit_loop_digits (fuel : nat) (x : Z) :
  Forall is_digit (extract_each_digit_loop fuel x).
Proof.
  revert x. induction fuel as [|fuel IH]; intros x; simpl; [constructor|].
  destruct (0 <? x) eqn:E; [|constructor].
  apply Z.ltb_lt in E. constructor; [|apply IH].
  unfold is_digit. pose proof (Z.rem_bound_pos x 10). lia.
Qed.

Lemma extract_each_digit_loop_length (fuel : nat) (x : Z) :
  0 <= x -> Z.of_nat (List.length (extract_each_digit_loop fuel x)) <= x.
Proof.
  revert x. induction fuel as [|fuel IH]; intros x Hx; simpl; [lia|].
  destruct (0 <? x) eqn:E; simpl List.length; [|lia].
  apply Z.ltb_lt in E.
  assert (Hq : 0 <= Z.quot x 10) by (apply Z.quot_pos; lia).
  specialize (IH (Z.quot x 10) Hq).
  pose proof (Z.quot_rem' x 10). pose proof (Z.rem_bound_pos x 10). lia.
Qed.

Lemma extract_each_digit_loop_length_run (fuel : nat) (x : Z) :
  2 <= x -> Z.of_nat (List.length (extract_each_digit_loop fuel x)) + 1 <= x.
Proof.
  intros Hx. destruct fuel as [|fuel]; simpl; [lia|].
  destruct (0 <? x) eqn:E; simpl List.length; [|lia].
  assert (Hq : 0 <= Z.quot x 10) by (apply Z.quot_pos; lia).
  pose proof (extract_each_digit_loop_length fuel (Z.quot x 10) Hq).
  pose proof (Z.quot_rem' x 10). pose proof (Z.rem_bound_pos x 10). lia.
Qed.

Lemma log2_quot_10 (x : Z) :
  0 < x -> 0 < Z.quot x 10 -> Z.log2 (Z.quot x 10) < Z.log2 x.
Proof.
  intros Hx Hq. pose proof (Z.quot_rem' x 10). pose proof (Z.rem_bound_pos x 10).
  assert (Hd : Z.log2 (2 * Z.quot x 10) = Z.succ (Z.log2 (Z.quot x 10)))
    by (apply Z.log2_double; exact Hq).
  assert (Hm : Z.log2 (2 * Z.quot x 10) <= Z.log2 x) by (apply Z.log2_le_mono; lia).
  lia.
Qed.

(** [VectorToInt] reads back what [extract_each_digit] wrote, as long as
    the value fits an [int]: the one product that may wrap is the last
    [decimal *= 10], which nothing reads. *)
Lemma VectorToInt_loop_extract (fuel : nat) (x decimal total : Z) :
  0 <= x -> (x = 0 \/ Z.log2 x < Z.of_nat fuel) ->
  0 <= total -> 0 < decimal -> total + decimal * x <= INT_MAX ->
  VectorToInt_loop (extract_each_digit_loop fuel x) decimal total
  = total + decimal * x.
Proof.
  revert x decimal total.
  induction fuel as [|fuel IH]; intros x decimal total Hx Hfuel Ht Hd Hmax.
  - assert (x = 0) by (pose proof (Z.log2_nonneg x); lia). subst. simpl. lia.
  - simpl. destruct (0 <? x) eqn:E.
    + apply Z.ltb_lt in E.
      pose proof (Z.quot_rem' x 10) as Hqr. pose proof (Z.rem_bound_pos x 10) as Hr.
      assert (Hq : 0 <= Z.quot x 10) by (apply Z.quot_pos; lia).
      cbn [VectorToInt_loop].
      assert (Hprod : 0 <= Z.rem x 10 * decimal <= decimal * x) by nia.
      rewrite (wrap_int_small (Z.rem x 10 * decimal))
        by int_range.
      rewrite (wrap_int_small (total + Z.rem x 10 * decimal))
        by int_range.
      destruct (Z.eq_dec (Z.quot x 10) 0) as [Hz|Hnz].
      * rewrite Hz, extract_each_digit_loop_zero. simpl. nia.
      * assert (Hten : decimal * 10 <= decimal * x) by nia.
        rewrite (wrap_int_small (decimal * 10))
          by int_range.
        rewrite IH; [nia | lia | | lia | lia | nia].
        right. pose proof (log2_quot_10 x E). lia.
    + apply Z.ltb_ge in E. assert (x = 0) by lia. subst. simpl. lia.
Qed.

Lemma VectorToInt_extract_each_digit (x : Z) :
  0 <= x <= INT_MAX -> VectorToInt (extract_each_digit x) = x.
Proof.
  intros Hx. unfold VectorToInt, extract_each_digit. rewrite rev_involutive.
  pose proof (Z.log2_nonneg x).
  rewrite VectorToInt_loop_extract; lia.
Qed.

Lemma extract_each_digit_digits (x : Z) : Forall is_digit (extract_each_digit x).
Proof.
  unfold extract_each_digit. apply Forall_rev. apply extract_each_digit_loop_digits.
Qed.

Lemma extract_each_digit_length (x : Z) :
  2 <= x -> Z.of_nat (List.length (extract_each_digit x)) + 1 <= x.
Proof.
  intros Hx. unfold extract_each_digit. rewrite length_rev.
  apply extract_each_digit_loop_length_run. exact Hx.
Qed.

Lemma digit_cases (d : Z) :
  is_digit d ->
  d = 0 \/ d = 1 \/ d = 2 \/ d = 3 \/ d = 4 \/ d = 5 \/ d = 6 \/ d = 7 \/ d = 8 \/ d = 9.
Proof. unfold is_digit. lia. Qed.

Ltac each_digit H :=
  apply digit_cases in H;
  repeat (destruct H as [H|H]; [subst|]); [..|subst].

Lemma stoi_to_string (d : Z) : is_digit d -> stoi (to_string d) = Ret d.
Proof. intros H. each_digit H; reflexivity. Qed.

Lemma to_string_not_marker (d : Z) :
  is_digit d -> to_string d <> kStartRepeat /\ to_string d <> kEndRepeat.
Proof. intros H. each_digit H; split; discriminate. Qed.

(** *** Vectors *)

Lemma vec_at_app_head {A : Type} (pre : list A) (x : A) (rest : list A) :
  vec_at (pre ++ x :: rest) (Z.of_nat (List.length pre)) = Ret x.
Proof.
  unfold vec_at. assert (H : (0 <=? Z.of_nat (List.length pre)) = true)
    by (apply Z.leb_le; lia).
  rewrite H, Nat2Z.id, nth_error_app2, Nat.sub_diag by lia. reflexivity.
Qed.

Lemma firstn_length_app {A : Type} (a b : list A) : firstn (List.length a) (a ++ b) = a.
Proof. induction a as [|x a IH]; simpl; [destruct b; reflexivity | f_equal; exact IH]. Qed.

Lemma skipn_length_app {A : Type} (a b : list A) : skipn (List.length a) (a ++ b) = b.
Proof. induction a as [|x a IH]; simpl; [reflexivity | exact IH]. Qed.

Lemma digits_not_end_marker (ds : list Z) :
  Forall is_digit ds -> ~ In kEndRepeat (map to_string ds).
Proof.
  intros Hds Hin. apply in_map_iff in Hin. destruct Hin as [d [Hd Hin]].
  rewrite Forall_forall in Hds. destruct (to_string_not_marker d (Hds d Hin)). congruence.
Qed.

(** The digit loop of the piece layer reads the digit pieces back. *)
Lemma read_count_pieces_digits (ds : list Z) :
  forall (fuel : nat) (pre rest : list string) (num : list Z),
    Forall is_digit ds ->
    (List.length ds <= fuel)%nat ->
    Z.of_nat (List.length pre + List.length ds) <= INT_MAX ->
    read_count_pieces fuel (pre ++ map to_string ds ++ rest)
      (Z.of_nat (List.length pre)) (Z.of_nat (List.length pre + List.length ds)) num
    = Ret (num ++ ds).
Proof.
  induction ds as [|d ds IH]; intros fuel pre rest num Hds Hfuel Hmax.
  - simpl List.length. rewrite Nat.add_0_r.
    destruct fuel; simpl; rewrite Z.eqb_refl, app_nil_r; reflexivity.
  - destruct fuel as [|fuel]; [simpl in Hfuel; lia|].
    inversion Hds as [|d' ds' Hd Hds']; subst.
    cbn [read_count_pieces].
    assert (Hne : (Z.of_nat (List.length pre)
                   =? Z.of_nat (List.length pre + List.length (d :: ds))) = false).
    { apply Z.eqb_neq. simpl List.length. lia. }
    rewrite Hne. cbn [map]. cbn [app]. rewrite vec_at_app_head, bind_Ret.
    rewrite (stoi_to_string d Hd), bind_Ret.
    simpl List.length in Hmax, Hfuel.
    rewrite wrap_int_small by int_range.
    replace (Z.of_nat (List.length pre) + 1)
      with (Z.of_nat (List.length (pre ++ [to_string d])))
      by (rewrite length_app; simpl; lia).
    replace (List.length pre + List.length (d :: ds))%nat
      with (List.length (pre ++ [to_string d]) + List.length ds)%nat
      by (rewrite length_app; simpl; lia).
    replace (pre ++ to_string d :: map to_string ds ++ rest)
      with ((pre ++ [to_string d]) ++ map to_string ds ++ rest)
      by (rewrite <- app_assoc; reflexivity).
    rewrite IH; [rewrite <- app_assoc; reflexivity | exact Hds' | lia |].
    rewrite length_app. simpl. lia.
Qed.

(** One unfolding step on a well-formed run: the symbol, the start
    marker, the digits of [count], the end marker. *)
Lemma _expand_from_pieces_run (pre : list string) (x : string) (ds : list Z)
    (count : Z) (rest : list string) :
  ~ In kStartRepeat pre -> ~ In kEndRepeat pre ->
  x <> kStartRepeat -> x <> kEndRepeat ->
  Forall is_digit ds -> VectorToInt ds = count -> 2 <= count <= INT_MAX ->
  Z.of_nat (List.length pre) + Z.of_nat (List.length ds) + 2 <= INT_MAX ->
  _expand_from_pieces (pre ++ x :: kStartRepeat :: map to_string ds ++ kEndRepeat :: rest)
  = Ret (pre ++ repeat x (Z.to_nat count) ++ rest).
Proof.
  intros Hps Hpe Hxs Hxe Hds Hval Hcount Hmax.
  set (pieces := pre ++ x :: kStartRepeat :: map to_string ds ++ kEndRepeat :: rest).
  assert (Hit1 : find_pos String.eqb kStartRepeat pieces = S (List.length pre)).
  { unfold pieces. rewrite find_pos_app by exact Hps.
    rewrite find_pos_skip by exact Hxs. rewrite find_pos_head. lia. }
  assert (Hit2 : find_pos String.eqb kEndRepeat pieces
                 = (List.length pre + 2 + List.length ds)%nat).
  { unfold pieces. rewrite find_pos_app by exact Hpe.
    rewrite find_pos_skip by exact Hxe.
    rewrite find_pos_skip by discriminate.
    rewrite find_pos_app by (apply digits_not_end_marker; exact Hds).
    rewrite find_pos_head, length_map. lia. }
  assert (Hlen : List.length pieces
                 = (List.length pre + 2 + List.length ds + 1 + List.length rest)%nat).
  { unfold pieces. rewrite length_app. simpl. rewrite length_app, length_map. simpl. lia. }
  unfold _expand_from_pieces. fold pieces. rewrite Hit1, Hit2.
  rewrite (wrap_int_small (Z.of_nat (S (List.length pre))))
    by int_range.
  rewrite (wrap_int_small (Z.of_nat (List.length pre + 2 + List.length ds)))
    by int_range.
  rewrite (wrap_int_small (Z.of_nat (S (List.length pre)) - 1))
    by int_range.
  rewrite (wrap_int_small (Z.of_nat (S (List.length pre)) + 1))
    by int_range.
  replace (Z.of_nat (S (List.length pre)) - 1) with (Z.of_nat (List.length pre)) by lia.
  unfold pieces at 1. rewrite vec_at_app_head, bind_Ret.
  assert (Hin : ((S (List.length pre) <? List.length pieces)
                 && (List.length pre + 2 + List.length ds <? List.length pieces))%nat
                = true).
  { rewrite Hlen. apply andb_true_iff. split; apply Nat.ltb_lt; lia. }
  rewrite Hin.
  assert (Hread : read_count_pieces (S (List.length pieces)) pieces
                    (Z.of_nat (S (List.length pre)) + 1)
                    (Z.of_nat (List.length pre + 2 + List.length ds)) []
                  = Ret ds).
  { replace pieces
      with ((pre ++ [x; kStartRepeat]) ++ map to_string ds ++ kEndRepeat :: rest)
      by (unfold pieces; rewrite <- app_assoc; reflexivity).
    replace (Z.of_nat (S (List.length pre)) + 1)
      with (Z.of_nat (List.length (pre ++ [x; kStartRepeat])))
      by (rewrite length_app; simpl; lia).
    replace (List.length pre + 2 + List.length ds)%nat
      with (List.length (pre ++ [x; kStartRepeat]) + List.length ds)%nat
      by (rewrite length_app; simpl; lia).
    rewrite read_count_pieces_digits; [reflexivity | exact Hds | | ].
    - rewrite !length_app, length_map. simpl. lia.
    - rewrite length_app. simpl. lia. }
  rewrite Hread, bind_Ret, Hval.
  rewrite (wrap_int_small (count - 1)) by int_range.
  assert (Herase : vec_erase pieces (S (List.length pre))
                     (S (List.length pre + 2 + List.length ds))
                   = Ret ((pre ++ [x]) ++ rest)).
  { unfold vec_erase.
    assert (Hrange : ((S (List.length pre) <=? S (List.length pre + 2 + List.length ds))
                      && (S (List.length pre + 2 + List.length ds) <=? List.length pieces))%nat
                     = true).
    { rewrite Hlen. apply andb_true_iff. split; apply Nat.leb_le; lia. }
    rewrite Hrange. f_equal. f_equal.
    - replace pieces
        with ((pre ++ [x]) ++ kStartRepeat :: map to_string ds ++ kEndRepeat :: rest)
        by (unfold pieces; rewrite <- app_assoc; reflexivity).
      replace (S (List.length pre)) with (List.length (pre ++ [x]))
        by (rewrite length_app; simpl; lia).
      apply firstn_length_app.
    - replace pieces
        with ((pre ++ x :: kStartRepeat :: map to_string ds ++ [kEndRepeat]) ++ rest).
      + replace (S (List.length pre + 2 + List.length ds))
          with (List.length (pre ++ x :: kStartRepeat :: map to_string ds ++ [kEndRepeat])).
        * apply skipn_length_app.
        * rewrite length_app. simpl. rewrite length_app, length_map. simpl. lia.
      + unfold pieces. rewrite <- app_assoc. simpl. rewrite <- app_assoc. reflexivity. }
  rewrite Herase, bind_Ret. unfold vec_insert_n.
  assert (Hneg : (count - 1 <? 0) = false) by (apply Z.ltb_ge; lia).
  assert (Hpos : (S (List.length pre) <=? List.length ((pre ++ [x]) ++ rest))%nat = true).
  { apply Nat.leb_le. rewrite !length_app. simpl. lia. }
  rewrite Hneg, Hpos.
  replace (S (List.length pre)) with (List.length (pre ++ [x]))
    by (rewrite length_app; simpl; lia).
  rewrite firstn_length_app, skipn_length_app.
  replace (Z.to_nat count) with (S (Z.to_nat (count - 1))) by lia.
  simpl repeat. rewrite <- app_assoc. reflexivity.
Qed.

(** *** The inner loops are bounded *)

Lemma wrap_int_range (z : Z) : INT_MIN <= wrap_int z <= INT_MAX.
Proof.
  unfold INT_MIN, INT_MAX, wrap_int.
  pose proof (Z.mod_pos_bound (z + 2147483648) 4294967296). lia.
Qed.

(** Counting up from a position of the vector either stays an [int] or
    wraps to a negative number. *)
Lemma wrap_int_succ (j : Z) :
  0 <= j <= INT_MAX -> wrap_int (j + 1) = j + 1 \/ wrap_int (j + 1) < 0.
Proof.
  intros Hj. destruct (Z.eq_dec j INT_MAX) as [->|Hne].
  - right. reflexivity.
  - left. apply wrap_int_small. int_range.
Qed.

Lemma vec_at_outcome {A : Type} (v : list A) (i : Z) :
  (exists a, vec_at v i = Ret a /\ 0 <= i < Z.of_nat (List.length v))
  \/ vec_at v i = Undefined.
Proof.
  unfold vec_at. destruct (0 <=? i) eqn:E; [|right; reflexivity].
  apply Z.leb_le in E.
  destruct (nth_error v (Z.to_nat i)) as [a|] eqn:En; [|right; reflexivity].
  left. exists a. split; [reflexivity|].
  assert (H : (Z.to_nat i < List.length v)%nat) by (apply nth_error_Some; congruence).
  lia.
Qed.

Lemma stoi_outcome (s : string) : stoi s <> OutOfFuel.
Proof.
  unfold stoi. destruct (skip_space s) as [|c t]; simpl.
  - discriminate.
  - match goal with |- context [let '(_, _) := ?x in _] => destruct x as [neg s2] end.
    destruct (read_digits s2 None); [|discriminate].
    destruct (_ && _)%bool; discriminate.
Qed.

Lemma read_count_pieces_fuel (pieces : list string) (end_position : Z) (fuel : nat) :
  forall j num,
    INT_MIN <= j <= INT_MAX ->
    j < 0 \/ Z.of_nat (List.length pieces) <= Z.of_nat fuel + j ->
    read_count_pieces (S fuel) pieces j end_position num <> OutOfFuel.
Proof.
  induction fuel as [|fuel IH]; intros j num Hj Hfuel;
    cbn [read_count_pieces]; destruct (j =? end_position); try discriminate;
    destruct (vec_at_outcome pieces j) as [[piece [Hat Hin]] | Hat];
    rewrite Hat; simpl; try discriminate; [lia|].
  pose proof (stoi_outcome piece) as Hstoi.
  destruct (stoi piece) as [d| | | |]; simpl; try discriminate; [|congruence].
  apply IH; [apply wrap_int_range|].
  destruct (wrap_int_succ j) as [-> | Hneg]; [int_range | lia | left; exact Hneg].
Qed.

Lemma copy_ids_fuel (ids : list Z) (stop : Z) (fuel : nat) :
  forall p new_ids,
    INT_MIN <= p <= INT_MAX ->
    p < 0 \/ Z.of_nat (List.length ids) <= Z.of_nat fuel + p ->
    copy_ids (S fuel) ids p stop new_ids <> OutOfFuel.
Proof.
  induction fuel as [|fuel IH]; intros p new_ids Hp Hfuel;
    cbn [copy_ids]; destruct (p =? stop); try discriminate;
    destruct (vec_at_outcome ids p) as [[x [Hat Hin]] | Hat];
    rewrite Hat; simpl; try discriminate; [lia|].
  apply IH; [apply wrap_int_range|].
  destruct (wrap_int_succ p) as [-> | Hneg]; [int_range | lia | left; exact Hneg].
Qed.

Lemma read_count_ids_fuel (m : ModelInterface.t) (ids : list Z) (it2 : nat)
    (fuel : nat) :
  forall it1 num,
    (List.length ids <= fuel + it1)%nat ->
    read_count_ids (S fuel) m ids it1 it2 num <> OutOfFuel.
Proof.
  induction fuel as [|fuel IH]; intros it1 num Hfuel;
    cbn [read_count_ids]; destruct (it1 =? it2)%nat; try discriminate;
    unfold iter_deref; destruct (nth_error ids it1) as [x|] eqn:Hat; cbn [bind];
    try discriminate;
    assert (Hlt : (it1 < List.length ids)%nat) by (apply nth_error_Some; congruence);
    [lia|].
  pose proof (stoi_outcome (ModelInterface.IdToPiece m x)) as Hstoi.
  destruct (stoi (ModelInterface.IdToPiece m x)) as [d| | | |]; cbn [bind];
    try discriminate; [|congruence].
  apply IH. lia.
Qed.

(** One unfolding step never stops for lack of fuel: only the outer loops
    can turn without end. *)
Lemma _expand_from_pieces_fuel (pieces : list string) :
  _expand_from_pieces pieces <> OutOfFuel.
Proof.
  unfold _expand_from_pieces.
  set (it1 := find_pos String.eqb kStartRepeat pieces).
  set (it2 := find_pos String.eqb kEndRepeat pieces).
  set (j := wrap_int (wrap_int (Z.of_nat it1) + 1)).
  destruct (vec_at_outcome pieces (wrap_int (wrap_int (Z.of_nat it1) - 1)))
    as [[repeat_token [Hat _]] | Hat]; rewrite Hat; cbn [bind]; [|discriminate].
  destruct ((it1 <? List.length pieces) && (it2 <? List.length pieces))%nat;
    [|discriminate].
  assert (Hread : read_count_pieces (S (List.length pieces)) pieces j
                    (wrap_int (Z.of_nat it2)) [] <> OutOfFuel).
  { apply read_count_pieces_fuel; [apply wrap_int_range|].
    destruct (Z_lt_le_dec j 0); [left; assumption | right; lia]. }
  destruct (read_count_pieces (S (List.length pieces)) pieces j
              (wrap_int (Z.of_nat it2)) []) as [num| | | |];
    cbn [bind]; try discriminate; [|congruence].
  unfold vec_erase, vec_insert_n.
  destruct ((it1 <=? S it2) && (S it2 <=? List.length pieces))%nat; cbn [bind];
    [|discriminate].
  destruct (wrap_int (VectorToInt num - 1) <? 0); [discriminate|].
  destruct (it1 <=? List.length (firstn it1 pieces ++ skipn (S it2) pieces))%nat;
    discriminate.
Qed.

Lemma _expand_from_ids_fuel (m : ModelInterface.t) (ids : list Z) :
  _expand_from_ids m ids <> OutOfFuel.
Proof.
  unfold _expand_from_ids.
  set (it1 := find_pos Z.eqb (ModelInterface.PieceToId m kStartRepeat) ids).
  set (it2 := find_pos Z.eqb (ModelInterface.PieceToId m kEndRepeat) ids).
  assert (Hprefix : copy_ids (S (List.length ids)) ids 0 (wrap_int (Z.of_nat it1)) []
                    <> OutOfFuel).
  { apply copy_ids_fuel; [int_range | right; lia]. }
  destruct (copy_ids (S (List.length ids)) ids 0 (wrap_int (Z.of_nat it1)) [])
    as [new_ids| | | |]; cbn [bind]; try discriminate; [|congruence].
  assert (Hsym : iter_deref_prev ids it1 <> OutOfFuel).
  { unfold iter_deref_prev, iter_deref. destruct it1 as [|it]; [discriminate|].
    destruct (nth_error ids it); discriminate. }
  destruct (iter_deref_prev ids it1) as [symbol| | | |]; cbn [bind];
    try discriminate; [|congruence].
  assert (Hread : read_count_ids (S (List.length ids)) m ids (S it1) it2 []
                  <> OutOfFuel).
  { apply read_count_ids_fuel. lia. }
  destruct (read_count_ids (S (List.length ids)) m ids (S it1) it2 [])
    as [num| | | |]; cbn [bind]; try discriminate; [|congruence].
  apply copy_ids_fuel; [apply wrap_int_range|].
  destruct (Z_lt_le_dec (wrap_int (wrap_int (Z.of_nat it2) + 1)) 0);
    [left; assumption | right; lia].
Qed.

(** *** The loop *)

Lemma expand_from_pieces_no_marker (pieces : list string) (fuel : nat) :
  ~ In kStartRepeat pieces -> expand_from_pieces fuel pieces = Ret pieces.
Proof.
  intros Hfree.
  assert (H : has_start_marker pieces = false).
  { unfold has_start_marker. rewrite find_pos_absent by exact Hfree.
    apply Nat.ltb_irrefl. }
  destruct fuel; simpl; rewrite H; reflexivity.
Qed.

Lemma has_start_marker_present (pieces : list string) :
  In kStartRepeat pieces -> has_start_marker pieces = true.
Proof.
  intros Hin. unfold has_start_marker. apply Nat.ltb_lt.
  apply find_pos_present. exact Hin.
Qed.

Lemma emit_run_single (cur : string) : emit_run cur 1 = [cur].
Proof. reflexivity. Qed.

(** One turn of the loop undoes the first folded run. *)
Lemma expand_from_pieces_unfold_run (pre : list string) (cur : string) (count : Z)
    (tail : list string) (fuel : nat) :
  ~ In kStartRepeat pre -> ~ In kEndRepeat pre ->
  cur <> kStartRepeat -> cur <> kEndRepeat ->
  2 <= count -> Z.of_nat (List.length pre) + count < INT_MAX ->
  expand_from_pieces (S fuel) (pre ++ emit_run cur count ++ tail)
  = expand_from_pieces fuel ((pre ++ repeat cur (Z.to_nat count)) ++ tail).
Proof.
  intros Hps Hpe Hcs Hce Hcount Hmax.
  unfold emit_run.
  assert (Hrun : (1 <? count) = true) by (apply Z.ltb_lt; lia). rewrite Hrun.
  replace (pre ++ (cur :: kStartRepeat
                     :: map to_string (extract_each_digit count) ++ [kEndRepeat]) ++ tail)
    with (pre ++ cur :: kStartRepeat
            :: map to_string (extract_each_digit count) ++ kEndRepeat :: tail)
    by (simpl; rewrite <- app_assoc; reflexivity).
  cbn [expand_from_pieces].
  rewrite has_start_marker_present
    by (apply in_or_app; right; right; left; reflexivity).
  pose proof (extract_each_digit_length count Hcount) as Hlen.
  rewrite (_expand_from_pieces_run pre cur (extract_each_digit count) count tail);
    try assumption.
  - rewrite bind_Ret, <- app_assoc. reflexivity.
  - apply extract_each_digit_digits.
  - apply VectorToInt_extract_each_digit. int_range.
  - int_range.
  - int_range.
Qed.

Lemma not_in_repeat (x y : string) (n : nat) : y <> x -> ~ In x (repeat y n).
Proof. intros Hne Hin. apply repeat_spec in Hin. congruence. Qed.

Lemma repeat_snoc (x : string) (n : nat) : repeat x (S n) = repeat x n ++ [x].
Proof. induction n as [|n IH]; [reflexivity|]. simpl in *. rewrite <- IH. reflexivity. Qed.

(** Unfolding what [rle]'s loop emits from a run in progress gives back
    the run and what follows it. *)
Lemma expand_from_pieces_rle_run (rest : list string) :
  forall (pre : list string) (cur : string) (count : Z) (fuel : nat),
    ~ In kStartRepeat pre -> ~ In kEndRepeat pre ->
    cur <> kStartRepeat -> cur <> kEndRepeat ->
    ~ In kStartRepeat rest -> ~ In kEndRepeat rest ->
    1 <= count ->
    Z.of_nat (List.length pre) + count + Z.of_nat (List.length rest) < INT_MAX ->
    (List.length rest < fuel)%nat ->
    expand_from_pieces fuel (pre ++ rle_run cur count rest)
    = Ret (pre ++ repeat cur (Z.to_nat count) ++ rest).
Proof.
  induction rest as [|next rest IH];
    intros pre cur count fuel Hps Hpe Hcs Hce Hrs Hre Hcount Hmax Hfuel.
  - cbn [rle_run]. destruct fuel as [|fuel]; [simpl in Hfuel; lia|].
    rewrite (app_nil_r (repeat cur (Z.to_nat count))).
    destruct (Z.eq_dec count 1) as [->|Hne].
    + apply expand_from_pieces_no_marker. intros Hin.
      apply in_app_or in Hin. destruct Hin as [H|[H|[]]]; [auto | congruence].
    + rewrite <- (app_nil_r (emit_run cur count)).
      rewrite expand_from_pieces_unfold_run; try assumption; [|lia|simpl in Hmax; lia].
      rewrite app_nil_r. rewrite expand_from_pieces_no_marker; [reflexivity|].
      intros Hin. apply in_app_or in Hin. destruct Hin as [H|H]; [auto|].
      revert H. apply not_in_repeat. exact Hcs.
  - simpl List.length in Hmax, Hfuel.
    assert (Hns : next <> kStartRepeat) by (intros ->; apply Hrs; left; reflexivity).
    assert (Hne : next <> kEndRepeat) by (intros ->; apply Hre; left; reflexivity).
    assert (Hrs' : ~ In kStartRepeat rest) by (intros H; apply Hrs; right; exact H).
    assert (Hre' : ~ In kEndRepeat rest) by (intros H; apply Hre; right; exact H).
    cbn [rle_run]. destruct (String.eqb_spec cur next) as [<-|Hdiff].
    + rewrite wrap_int_small by int_range.
      rewrite IH; try assumption; [|lia|lia|lia].
      replace (Z.to_nat (count + 1)) with (S (Z.to_nat count)) by lia.
      rewrite repeat_snoc, <- app_assoc. reflexivity.
    + destruct (Z.eq_dec count 1) as [->|Hmany].
      * rewrite emit_run_single.
        replace (pre ++ [cur] ++ rle_run next 1 rest)
          with ((pre ++ [cur]) ++ rle_run next 1 rest)
          by (rewrite <- app_assoc; reflexivity).
        rewrite IH; try assumption; try lia;
          try (rewrite length_app; simpl; lia).
        -- rewrite <- app_assoc. reflexivity.
        -- intros Hin. apply in_app_or in Hin. destruct Hin as [H|[H|[]]]; [auto|congruence].
        -- intros Hin. apply in_app_or in Hin. destruct Hin as [H|[H|[]]]; [auto|congruence].
      * destruct fuel as [|fuel]; [lia|].
        rewrite expand_from_pieces_unfold_run; try assumption; [|lia|lia].
        rewrite IH; try assumption; try lia;
          try (rewrite length_app, repeat_length; lia).
        -- rewrite <- app_assoc. reflexivity.
        -- intros Hin. apply in_app_or in Hin. destruct Hin as [H|H]; [auto|].
           revert H. apply not_in_repeat. exact Hcs.
        -- intros Hin. apply in_app_or in Hin. destruct Hin as [H|H]; [auto|].
           revert H. apply not_in_repeat. exact Hce.
Qed.

(** C1.  For a piece sequence [p] that holds neither marker (and whose
    length is below [INT_MAX], so that [rle]'s and the unfolder's [int]
    counters hold every position), unfolding the fold of [p] returns [p]:
    the loop of [expand_from_pieces] ends within [|p|] turns. *)
Theorem expand_from_pieces_rle (p : list string) (fuel : nat) :
  ~ In kStartRepeat p -> ~ In kEndRepeat p ->
  Z.of_nat (List.length p) < INT_MAX ->
  (List.length p <= fuel)%nat ->
  expand_from_pieces fuel (rle p) = Ret p.
Proof.
  intros Hs He Hmax Hfuel. unfold rle.
  rewrite wrap_int_small by int_range.
  rewrite Nat2Z.id, firstn_all.
  destruct p as [|first rest].
  - apply expand_from_pieces_no_marker. intros [].
  - simpl List.length in Hmax, Hfuel.
    rewrite <- (app_nil_l (rle_run first 1 rest)).
    rewrite expand_from_pieces_rle_run.
    + reflexivity.
    + intros [].
    + intros [].
    + intros ->. apply Hs. left. reflexivity.
    + intros ->. apply He. left. reflexivity.
    + intros H. apply Hs. right. exact H.
    + intros H. apply He. right. exact H.
    + lia.
    + simpl List.length. lia.
    + lia.
Qed.

Lemma expand_from_pieces_rle_witness :
  expand_from_pieces 5 (rle ["a"; "a"; "a"; "b"; "b"]) = Ret ["a"; "a"; "a"; "b"; "b"].
Proof.
  apply (expand_from_pieces_rle ["a"; "a"; "a"; "b"; "b"] 5).
  - simpl. intros [H|[H|[H|[H|[H|[]]]]]]; discriminate.
  - simpl. intros [H|[H|[H|[H|[H|[]]]]]]; discriminate.
  - reflexivity.
  - simpl. lia.
Defined.

(** ** The run-length layer: where unfolding goes wrong *)

(** A sequence that one unfolding step gives back unchanged, and that
    holds the start marker, keeps the loop turning for ever. *)
Lemma expand_from_pieces_stuck (pieces : list string) :
  has_start_marker pieces = true ->
  _expand_from_pieces pieces = Ret pieces ->
  forall fuel, expand_from_pieces fuel pieces = OutOfFuel.
Proof.
  intros Hs Hstep fuel. induction fuel as [|fuel IH]; simpl; rewrite Hs.
  - reflexivity.
  - rewrite Hstep. simpl. exact IH.
Qed.

(** A start marker in second place with no end marker anywhere: the step
    changes nothing. *)
Lemma _expand_from_pieces_no_end_marker (x : string) (rest : list string) :
  x <> kStartRepeat -> x <> kEndRepeat -> ~ In kEndRepeat rest ->
  _expand_from_pieces (x :: kStartRepeat :: rest) = Ret (x :: kStartRepeat :: rest).
Proof.
  intros Hxs Hxe Hrest. unfold _expand_from_pieces.
  assert (H1 : find_pos String.eqb kStartRepeat (x :: kStartRepeat :: rest) = 1%nat).
  { simpl. destruct (String.eqb_spec x kStartRepeat); [contradiction|reflexivity]. }
  assert (H2 : find_pos String.eqb kEndRepeat (x :: kStartRepeat :: rest)
               = List.length (x :: kStartRepeat :: rest)).
  { apply find_pos_absent. simpl. intros [H|[H|H]]; [congruence|discriminate|auto]. }
  rewrite H1, H2. rewrite Nat.ltb_irrefl, andb_false_r. reflexivity.
Qed.

(** So the loop never ends on such a sequence. *)
Lemma expand_from_pieces_no_end_marker (x : string) (rest : list string) (fuel : nat) :
  x <> kStartRepeat -> x <> kEndRepeat -> ~ In kEndRepeat rest ->
  expand_from_pieces fuel (x :: kStartRepeat :: rest) = OutOfFuel.
Proof.
  intros Hxs Hxe Hrest. apply expand_from_pieces_stuck.
  - apply has_start_marker_present. right. left. reflexivity.
  - apply _expand_from_pieces_no_end_marker; assumption.
Qed.

(** C9.  The unfold loop does not end on every input: on the two pieces
    ["a"], ["(#startrepeat)"], which hold no end marker, every turn of the
    loop of [expand_from_pieces] returns the sequence unchanged, so no
    amount of fuel lets the loop finish. *)
Theorem expand_from_pieces_loops_without_end_marker :
  _expand_from_pieces ["a"; kStartRepeat] = Ret ["a"; kStartRepeat]
  /\ forall fuel, expand_from_pieces fuel ["a"; kStartRepeat] = OutOfFuel.
Proof.
  assert (Hstep : _expand_from_pieces ["a"; kStartRepeat] = Ret ["a"; kStartRepeat]).
  { apply _expand_from_pieces_no_end_marker; [discriminate|discriminate|]. intros []. }
  split; [exact Hstep|].
  apply expand_from_pieces_stuck; [reflexivity | exact Hstep].
Qed.

(** On ids the same shape of input runs the second copy loop past the end
    of the vector. *)
Lemma expand_from_ids_without_end_marker :
  expand_from_ids 1 Toy.sp (map (PieceToId Toy.sp) ["a"; kStartRepeat]) = Undefined.
Proof. reflexivity. Qed.

(** C10.  The read of the element before the start marker is not always
    within bounds: when the start marker is the first element, both
    unfolding steps read the element before position 0, which is outside
    the vector. *)
Theorem expand_reads_before_the_first_element :
  (forall rest, _expand_from_pieces (kStartRepeat :: rest) = Undefined)
  /\ (forall m rest,
        _expand_from_ids m (ModelInterface.PieceToId m kStartRepeat :: rest) = Undefined).
Proof.
  split.
  - intros rest. reflexivity.
  - intros m rest. unfold _expand_from_ids.
    assert (H : find_pos Z.eqb (ModelInterface.PieceToId m kStartRepeat)
                  (ModelInterface.PieceToId m kStartRepeat :: rest) = O).
    { simpl. rewrite Z.eqb_refl. reflexivity. }
    rewrite H. reflexivity.
Qed.

(** Through [Decode]: a well-formed run at the head of the sequence. *)
Lemma Decode_unfold_reads_before_the_first_element :
  Decode_unfold_pieces 1 Toy.sp [kStartRepeat; "2"; kEndRepeat] = Undefined
  /\ Decode_unfold_ids 1 Toy.sp
       (map (PieceToId Toy.sp) [kStartRepeat; "2"; kEndRepeat]) = Undefined.
Proof. split; reflexivity. Qed.

(** *** The id layer on a well-formed run *)

Lemma iter_deref_app_head {A : Type} (pre : list A) (x : A) (rest : list A) :
  iter_deref (pre ++ x :: rest) (List.length pre) = Ret x.
Proof.
  unfold iter_deref. rewrite nth_error_app2, Nat.sub_diag by lia. reflexivity.
Qed.

(** A copy loop that starts and stops inside the vector copies what lies
    between. *)
Lemma copy_ids_segment (b : list Z) :
  forall (fuel : nat) (a c acc : list Z),
    (List.length b <= fuel)%nat ->
    Z.of_nat (List.length a + List.length b) <= INT_MAX ->
    copy_ids fuel (a ++ b ++ c) (Z.of_nat (List.length a))
      (Z.of_nat (List.length a + List.length b)) acc
    = Ret (acc ++ b).
Proof.
  induction b as [|x b IH]; intros fuel a c acc Hfuel Hmax.
  - simpl List.length. rewrite Nat.add_0_r.
    destruct fuel; simpl; rewrite Z.eqb_refl, app_nil_r; reflexivity.
  - destruct fuel as [|fuel]; [simpl in Hfuel; lia|].
    simpl List.length in Hmax, Hfuel. cbn [copy_ids].
    assert (Hne : (Z.of_nat (List.length a)
                   =? Z.of_nat (List.length a + List.length (x :: b))) = false).
    { apply Z.eqb_neq. simpl List.length. lia. }
    rewrite Hne. cbn [app]. rewrite vec_at_app_head, bind_Ret.
    rewrite wrap_int_small by int_range.
    replace (Z.of_nat (List.length a) + 1) with (Z.of_nat (List.length (a ++ [x])))
      by (rewrite length_app; simpl; lia).
    replace (List.length a + List.length (x :: b))%nat
      with (List.length (a ++ [x]) + List.length b)%nat
      by (rewrite length_app; simpl; lia).
    replace (a ++ x :: b ++ c) with ((a ++ [x]) ++ b ++ c)
      by (rewrite <- app_assoc; reflexivity).
    rewrite IH; [rewrite <- app_assoc; reflexivity | lia |].
    rewrite length_app. simpl. lia.
Qed.

(** The digit loop of the id layer reads the digits back through
    [IdToPiece]. *)
Lemma read_count_ids_digits (m : ModelInterface.t) (ds : list Z) :
  forall (fuel : nat) (pre rest num : list Z),
    Forall is_digit ds ->
    (forall d, is_digit d ->
       ModelInterface.IdToPiece m (ModelInterface.PieceToId m (to_string d))
       = to_string d) ->
    (List.length ds <= fuel)%nat ->
    read_count_ids fuel m
      (pre ++ map (fun d => ModelInterface.PieceToId m (to_string d)) ds ++ rest)
      (List.length pre) (List.length pre + List.length ds) num
    = Ret (num ++ ds).
Proof.
  induction ds as [|d ds IH]; intros fuel pre rest num Hds Hback Hfuel.
  - simpl List.length. rewrite Nat.add_0_r.
    destruct fuel; simpl; rewrite Nat.eqb_refl, app_nil_r; reflexivity.
  - destruct fuel as [|fuel]; [simpl in Hfuel; lia|].
    inversion Hds as [|d' ds' Hd Hds']; subst.
    simpl List.length in Hfuel. cbn [read_count_ids].
    assert (Hne : (List.length pre =? List.length pre + List.length (d :: ds))%nat = false).
    { apply Nat.eqb_neq. simpl List.length. lia. }
    rewrite Hne. cbn [map app]. rewrite iter_deref_app_head, bind_Ret.
    rewrite (Hback d Hd), (stoi_to_string d Hd), bind_Ret.
    replace (S (List.length pre)) with (List.length (pre ++ [ModelInterface.PieceToId m (to_string d)]))
      by (rewrite length_app; simpl; lia).
    replace (List.length pre + List.length (d :: ds))%nat
      with (List.length (pre ++ [ModelInterface.PieceToId m (to_string d)])
            + List.length ds)%nat
      by (rewrite length_app; simpl; lia).
    replace (pre ++ ModelInterface.PieceToId m (to_string d)
               :: map (fun d0 => ModelInterface.PieceToId m (to_string d0)) ds ++ rest)
      with ((pre ++ [ModelInterface.PieceToId m (to_string d)])
              ++ map (fun d0 => ModelInterface.PieceToId m (to_string d0)) ds ++ rest)
      by (rewrite <- app_assoc; reflexivity).
    rewrite IH; [rewrite <- app_assoc; reflexivity | exact Hds' | exact Hback | lia].
Qed.

(** One unfolding step of the id layer on a well-formed run, in a model
    whose vocabulary holds the markers and the digits: the symbol comes
    out [count + 1] times, once with the copied prefix and [count] times
    from the repeat loop. *)
Lemma _expand_from_ids_run (m : ModelInterface.t) (pre : list Z) (x : Z)
    (ds : list Z) (rest : list Z) :
  let start_id := ModelInterface.PieceToId m kStartRepeat in
  let end_id := ModelInterface.PieceToId m kEndRepeat in
  let digit_id := fun d => ModelInterface.PieceToId m (to_string d) in
  ~ In start_id pre -> ~ In end_id pre ->
  x <> start_id -> x <> end_id -> start_id <> end_id ->
  Forall is_digit ds ->
  (forall d, is_digit d ->
     digit_id d <> end_id /\ ModelInterface.IdToPiece m (digit_id d) = to_string d) ->
  Z.of_nat (List.length (pre ++ x :: start_id :: map digit_id ds ++ end_id :: rest))
    <= INT_MAX ->
  _expand_from_ids m (pre ++ x :: start_id :: map digit_id ds ++ end_id :: rest)
  = Ret (pre ++ x :: repeat x (Z.to_nat (VectorToInt ds)) ++ rest).
Proof.
  intros start_id end_id digit_id Hps Hpe Hxs Hxe Hse Hds Hvocab Hmax.
  set (ids := pre ++ x :: start_id :: map digit_id ds ++ end_id :: rest) in *.
  assert (Hlen : List.length ids
                 = (List.length pre + 2 + List.length ds + 1 + List.length rest)%nat).
  { unfold ids. rewrite length_app. simpl. rewrite length_app, length_map. simpl. lia. }
  assert (Hit1 : find_pos Z.eqb start_id ids = S (List.length pre)).
  { unfold ids. rewrite find_id_app by exact Hps.
    rewrite find_id_skip by exact Hxs. rewrite find_id_head. lia. }
  assert (Hit2 : find_pos Z.eqb end_id ids = (List.length pre + 2 + List.length ds)%nat).
  { unfold ids. rewrite find_id_app by exact Hpe.
    rewrite find_id_skip by exact Hxe. rewrite find_id_skip by exact Hse.
    rewrite find_id_app.
    - rewrite find_id_head, length_map. lia.
    - intros Hin. apply in_map_iff in Hin. destruct Hin as [d [Hd Hin]].
      rewrite Forall_forall in Hds. destruct (Hvocab d (Hds d Hin)). congruence. }
  unfold _expand_from_ids. fold start_id end_id. rewrite Hit1, Hit2.
  rewrite (wrap_int_small (Z.of_nat (S (List.length pre))))
    by int_range.
  rewrite (wrap_int_small (Z.of_nat (List.length pre + 2 + List.length ds)))
    by int_range.
  rewrite (wrap_int_small (Z.of_nat (List.length pre + 2 + List.length ds) + 1))
    by int_range.
  assert (Hprefix : copy_ids (S (List.length ids)) ids 0 (Z.of_nat (S (List.length pre))) []
                    = Ret (pre ++ [x])).
  { replace ids with ([] ++ (pre ++ [x]) ++ start_id :: map digit_id ds ++ end_id :: rest)
      by (unfold ids; simpl; rewrite <- app_assoc; reflexivity).
    change 0 with (Z.of_nat (List.length (@nil Z))).
    replace (S (List.length pre))
      with (List.length (@nil Z) + List.length (pre ++ [x]))%nat
      by (rewrite length_app; simpl; lia).
    rewrite copy_ids_segment; [reflexivity | |].
    - simpl app. rewrite !length_app. simpl. rewrite length_app, length_map. simpl. lia.
    - rewrite length_app. simpl. unfold INT_MAX in *. lia. }
  rewrite Hprefix, bind_Ret.
  assert (Hsym : iter_deref_prev ids (S (List.length pre)) = Ret x).
  { unfold iter_deref_prev, ids. apply iter_deref_app_head. }
  rewrite Hsym, bind_Ret.
  assert (Hread : read_count_ids (S (List.length ids)) m ids (S (S (List.length pre)))
                    (List.length pre + 2 + List.length ds) [] = Ret ds).
  { replace ids
      with ((pre ++ [x; start_id]) ++ map digit_id ds ++ end_id :: rest)
      by (unfold ids; rewrite <- app_assoc; reflexivity).
    replace (S (S (List.length pre))) with (List.length (pre ++ [x; start_id]))
      by (rewrite length_app; simpl; lia).
    replace (List.length pre + 2 + List.length ds)%nat
      with (List.length (pre ++ [x; start_id]) + List.length ds)%nat
      by (rewrite length_app; simpl; lia).
    rewrite (read_count_ids_digits m ds); [reflexivity | exact Hds | | ].
    - intros d Hd. apply (Hvocab d Hd).
    - rewrite !length_app, length_map. simpl. lia. }
  rewrite Hread, bind_Ret.
  replace ids
    with ((pre ++ x :: start_id :: map digit_id ds ++ [end_id]) ++ rest ++ [])
    by (unfold ids; rewrite app_nil_r, <- app_assoc; simpl;
        rewrite <- app_assoc; reflexivity).
  replace (Z.of_nat (List.length pre + 2 + List.length ds) + 1)
    with (Z.of_nat (List.length (pre ++ x :: start_id :: map digit_id ds ++ [end_id])))
    by (rewrite length_app; simpl; rewrite length_app, length_map; simpl; lia).
  replace (List.length ((pre ++ x :: start_id :: map digit_id ds ++ [end_id]) ++ rest ++ []))
    with (List.length (pre ++ x :: start_id :: map digit_id ds ++ [end_id])
          + List.length rest)%nat
    by (rewrite !length_app; simpl; lia).
  rewrite copy_ids_segment.
  - rewrite <- !app_assoc. reflexivity.
  - lia.
  - rewrite length_app. simpl. rewrite length_app, length_map. simpl.
    unfold INT_MAX in *. lia.
Qed.

(** C2.  The two layers do not unfold alike: the fold of ["a"], ["a"],
    ["a"], ["b"] is ["a"], ["(#startrepeat)"], ["3"], ["(#endrepeat)"],
    ["b"]; the piece layer unfolds it to the three copies of ["a"] it came
    from, while the id layer, which keeps the symbol in the copied prefix
    and then adds the full count, unfolds the corresponding ids to four
    copies. *)
Theorem expand_from_ids_differs_from_pieces :
  rle ["a"; "a"; "a"; "b"] = ["a"; kStartRepeat; "3"; kEndRepeat; "b"]
  /\ expand_from_pieces 1 (rle ["a"; "a"; "a"; "b"]) = Ret ["a"; "a"; "a"; "b"]
  /\ expand_from_ids 1 Toy.sp (map (PieceToId Toy.sp) (rle ["a"; "a"; "a"; "b"]))
     = Ret (map (PieceToId Toy.sp) ["a"; "a"; "a"; "a"; "b"])
  /\ map (PieceToId Toy.sp) ["a"; "a"; "a"; "a"; "b"]
     <> map (PieceToId Toy.sp) ["a"; "a"; "a"; "b"].
Proof. repeat split; try reflexivity. discriminate. Qed.

(** ** Decoding a normal piece *)

(** *** Strings *)

Lemma append_nil_r (s : string) : (s ++ "")%string = s.
Proof. induction s as [|c s IH]; simpl; [reflexivity | rewrite IH; reflexivity]. Qed.

Lemma append_assoc (a b c : string) : ((a ++ b) ++ c)%string = (a ++ b ++ c)%string.
Proof. induction a as [|x a IH]; simpl; [reflexivity | rewrite IH; reflexivity]. Qed.

Lemma length_append (a b : string) :
  String.length (a ++ b) = (String.length a + String.length b)%nat.
Proof. induction a as [|x a IH]; simpl; [reflexivity | rewrite IH; reflexivity]. Qed.

Lemma prefix_nil (s : string) : prefix "" s = true.
Proof. destruct s; reflexivity. Qed.

Lemma prefix_append (p s : string) : prefix p (p ++ s) = true.
Proof.
  induction p as [|c p IH]; simpl; [apply prefix_nil|].
  destruct (ascii_dec c c) as [_|Hne]; [exact IH | contradiction].
Qed.

Lemma prefix_inv (p s : string) : prefix p s = true -> exists t, s = (p ++ t)%string.
Proof.
  revert s. induction p as [|c p IH]; intros s H.
  - exists s. reflexivity.
  - destruct s as [|c' s]; [discriminate|]. simpl in H.
    destruct (ascii_dec c c') as [<-|]; [|discriminate].
    destruct (IH s H) as [t ->]. exists t. reflexivity.
Qed.

Lemma occurs_prefix (pat s : string) : prefix pat s = true -> occurs pat s = true.
Proof. intros H. destruct s; cbn [occurs]; rewrite H; reflexivity. Qed.

Lemma occurs_append (pat a b : string) : occurs pat (a ++ pat ++ b) = true.
Proof.
  induction a as [|c a IH].
  - cbn [append]. apply occurs_prefix. apply prefix_append.
  - simpl. rewrite IH. apply orb_true_r.
Qed.

Lemma occurs_inv (pat s : string) :
  occurs pat s = true -> exists a b, s = (a ++ pat ++ b)%string.
Proof.
  induction s as [|c s IH]; cbn [occurs]; intros H.
  - apply prefix_inv in H. destruct H as [t H]. exists "", t. exact H.
  - apply orb_true_iff in H. destruct H as [H|H].
    + apply prefix_inv in H. destruct H as [t H]. exists "", t. exact H.
    + destruct (IH H) as [a [b ->]]. exists (String c a), b. reflexivity.
Qed.

(** [meta_free] says what it should: the marker is nowhere in the text. *)
Lemma meta_free_spec (s : string) :
  meta_free s <-> forall a b, s <> (a ++ kSpaceSymbol ++ b)%string.
Proof.
  unfold meta_free. split.
  - intros H a b ->. rewrite occurs_append in H. discriminate.
  - intros H. destruct (occurs kSpaceSymbol s) eqn:E; [|reflexivity].
    apply occurs_inv in E. destruct E as [a [b E]]. exfalso. exact (H a b E).
Qed.

Lemma meta_free_tail (c : ascii) (s : string) : meta_free (String c s) -> meta_free s.
Proof. unfold meta_free. simpl. intros H. apply orb_false_iff in H. tauto. Qed.

Lemma meta_free_no_prefix (s : string) : meta_free s -> prefix kSpaceSymbol s = false.
Proof.
  unfold meta_free. destruct s; simpl; [auto|].
  intros H. apply orb_false_iff in H. tauto.
Qed.

(** The marker has no border: a non-empty marker-free text followed by the
    marker does not start with the marker. *)
Lemma meta_free_no_prefix_append (c : ascii) (s t : string) :
  meta_free (String c s) ->
  prefix kSpaceSymbol (String c s ++ kSpaceSymbol ++ t) = false.
Proof.
  intros H. apply meta_free_no_prefix in H. revert H.
  destruct s as [|c2 [|c3 s]]; simpl;
    repeat match goal with
           | |- context [ascii_dec ?a ?b] => destruct (ascii_dec a b); try discriminate; subst
           end;
    try reflexivity; rewrite ?prefix_nil; auto.
Qed.

(** *** Replacing the markers *)

Lemma StrReplaceAll_scan_marker (t : string) :
  StrReplaceAll_scan kSpaceSymbol " " O (kSpaceSymbol ++ t)
  = String " " (StrReplaceAll_scan kSpaceSymbol " " O t).
Proof.
  change (kSpaceSymbol ++ t)%string
    with (String "226" (String "150" (String "129" t))).
  cbn [StrReplaceAll_scan].
  change (String "226" (String "150" (String "129" t)))
    with (kSpaceSymbol ++ t)%string.
  rewrite prefix_append. reflexivity.
Qed.

Lemma StrReplaceAll_scan_segment (s t : string) :
  meta_free s ->
  StrReplaceAll_scan kSpaceSymbol " " O (s ++ kSpaceSymbol ++ t)
  = (s ++ " " ++ StrReplaceAll_scan kSpaceSymbol " " O t)%string.
Proof.
  induction s as [|c s IH]; intros Hfree.
  - apply StrReplaceAll_scan_marker.
  - pose proof (meta_free_no_prefix_append c s t Hfree) as Hno.
    cbn [append] in Hno |- *. cbn [StrReplaceAll_scan]. rewrite Hno.
    rewrite IH by (apply (meta_free_tail c s Hfree)). reflexivity.
Qed.

Lemma StrReplaceAll_scan_last (s : string) :
  meta_free s -> StrReplaceAll_scan kSpaceSymbol " " O s = s.
Proof.
  induction s as [|c s IH]; intros Hfree; [reflexivity|].
  cbn [StrReplaceAll_scan]. rewrite (meta_free_no_prefix _ Hfree).
  rewrite IH by (apply (meta_free_tail c s Hfree)). reflexivity.
Qed.

(** Every marker between two segments becomes one space, and nothing
    else changes. *)
Lemma StrReplaceAll_segments (segments : list string) :
  Forall meta_free segments ->
  StrReplaceAll (concat kSpaceSymbol segments) kSpaceSymbol " "
  = concat " " segments.
Proof.
  unfold StrReplaceAll. induction segments as [|s rest IH]; intros Hfree.
  - reflexivity.
  - inversion Hfree as [|s' rest' Hs Hrest]; subst.
    destruct rest as [|r rest].
    + apply StrReplaceAll_scan_last. exact Hs.
    + change (concat kSpaceSymbol (s :: r :: rest))
        with (s ++ kSpaceSymbol ++ concat kSpaceSymbol (r :: rest))%string.
      rewrite StrReplaceAll_scan_segment by exact Hs. rewrite IH by exact Hrest.
      reflexivity.
Qed.

(** *** Stripping a leading marker *)

Lemma ConsumePrefix_segments (segments : list string) :
  Forall meta_free segments ->
  ConsumePrefix (concat kSpaceSymbol segments) kSpaceSymbol
  = concat kSpaceSymbol (drop_leading_marker segments).
Proof.
  intros Hfree. unfold ConsumePrefix.
  destruct segments as [|s [|r rest]].
  - reflexivity.
  - inversion Hfree as [|s' rest' Hs _]; subst. cbn [concat drop_leading_marker].
    rewrite (meta_free_no_prefix s Hs). reflexivity.
  - inversion Hfree as [|s' rest' Hs _]; subst.
    change (concat kSpaceSymbol (s :: r :: rest))
      with (s ++ kSpaceSymbol ++ concat kSpaceSymbol (r :: rest))%string.
    destruct s as [|c s].
    + cbn [append]. rewrite prefix_append. reflexivity.
    + rewrite (meta_free_no_prefix_append c s _ Hs). reflexivity.
Qed.

(** *** Stripping a trailing marker *)

Lemma substring_append_skip (a s : string) (k n : nat) :
  substring (String.length a + k) n (a ++ s) = substring k n s.
Proof. induction a as [|c a IH]; simpl; [reflexivity | exact IH]. Qed.

Lemma substring_append_keep (a s : string) (k : nat) :
  substring 0 (String.length a + k) (a ++ s) = (a ++ substring 0 k s)%string.
Proof. induction a as [|c a IH]; simpl; [reflexivity | rewrite IH; reflexivity]. Qed.

Lemma substring_0_0 (s : string) : substring 0 0 s = "".
Proof. destruct s; reflexivity. Qed.

Lemma substring_all (s : string) : substring 0 (String.length s) s = s.
Proof. induction s as [|c s IH]; simpl; [reflexivity | rewrite IH; reflexivity]. Qed.

Lemma substring_split (s : string) (n : nat) :
  (n <= String.length s)%nat ->
  s = (substring 0 n s ++ substring n (String.length s - n) s)%string.
Proof.
  revert n. induction s as [|c s IH]; intros n Hn.
  - simpl in Hn. assert (n = O) by lia. subst. reflexivity.
  - destruct n as [|n].
    + rewrite substring_0_0. cbn [append]. rewrite Nat.sub_0_r.
      symmetry. apply substring_all.
    + simpl in Hn. simpl. f_equal. apply IH. lia.
Qed.

Lemma EndsWith_inv (s suffix : string) :
  EndsWith s suffix = true -> exists a, s = (a ++ suffix)%string.
Proof.
  unfold EndsWith. intros H. apply andb_true_iff in H. destruct H as [Hlen Heq].
  apply Nat.leb_le in Hlen. apply String.eqb_eq in Heq.
  exists (substring 0 (String.length s - String.length suffix) s).
  pose proof (substring_split s (String.length s - String.length suffix)%nat) as Hsplit.
  replace (String.length s - (String.length s - String.length suffix))%nat
    with (String.length suffix) in Hsplit by lia.
  rewrite Heq in Hsplit. apply Hsplit. lia.
Qed.

Lemma EndsWith_append (a suffix : string) : EndsWith (a ++ suffix) suffix = true.
Proof.
  unfold EndsWith. rewrite length_append. apply andb_true_iff. split.
  - apply Nat.leb_le. lia.
  - replace (String.length a + String.length suffix - String.length suffix)%nat
      with (String.length a + 0)%nat by lia.
    rewrite substring_append_skip, substring_all. apply String.eqb_refl.
Qed.

Lemma remove_suffix_append (a suffix : string) :
  remove_suffix (String.length suffix) (a ++ suffix) = a.
Proof.
  unfold remove_suffix. rewrite length_append.
  replace (String.length a + String.length suffix - String.length suffix)%nat
    with (String.length a + 0)%nat by lia.
  rewrite substring_append_keep, substring_0_0. apply append_nil_r.
Qed.

(** What a long enough tail ends with, the whole text ends with. *)
Lemma EndsWith_tail (a s suffix : string) :
  (String.length suffix <= String.length s)%nat ->
  EndsWith (a ++ s) suffix = EndsWith s suffix.
Proof.
  intros Hlen. unfold EndsWith. rewrite length_append.
  replace (String.length a + String.length s - String.length suffix)%nat
    with (String.length a + (String.length s - String.length suffix))%nat by lia.
  rewrite substring_append_skip.
  assert (H1 : (String.length suffix <=? String.length a + String.length s)%nat = true)
    by (apply Nat.leb_le; lia).
  assert (H2 : (String.length suffix <=? String.length s)%nat = true)
    by (apply Nat.leb_le; lia).
  rewrite H1, H2. reflexivity.
Qed.

Lemma remove_suffix_tail (a s : string) (n : nat) :
  (n <= String.length s)%nat ->
  remove_suffix n (a ++ s) = (a ++ remove_suffix n s)%string.
Proof.
  intros Hlen. unfold remove_suffix. rewrite length_append.
  replace (String.length a + String.length s - n)%nat
    with (String.length a + (String.length s - n))%nat by lia.
  apply substring_append_keep.
Qed.

Lemma meta_free_not_EndsWith (s : string) :
  meta_free s -> EndsWith s kSpaceSymbol = false.
Proof.
  intros Hfree. destruct (EndsWith s kSpaceSymbol) eqn:E; [|reflexivity].
  apply EndsWith_inv in E. destruct E as [a ->].
  exfalso. apply (proj1 (meta_free_spec _) Hfree a "").
  rewrite append_nil_r. reflexivity.
Qed.

(** A marker followed by a non-empty marker-free segment: the text does
    not end with the marker. *)
Lemma marker_then_segment_not_EndsWith (a r : string) :
  meta_free r -> r <> "" ->
  EndsWith (a ++ kSpaceSymbol ++ r) kSpaceSymbol = false.
Proof.
  intros Hfree Hne.
  rewrite EndsWith_tail by (rewrite length_append; simpl; lia).
  destruct r as [|c1 [|c2 [|c3 r]]]; [congruence| | |].
  - unfold EndsWith. simpl. reflexivity.
  - unfold EndsWith. simpl. reflexivity.
  - rewrite EndsWith_tail by (simpl; lia). apply meta_free_not_EndsWith. exact Hfree.
Qed.

Lemma concat_marker_length (r r2 : string) (rest : list string) :
  (3 <= String.length (concat kSpaceSymbol (r :: r2 :: rest)))%nat.
Proof.
  change (concat kSpaceSymbol (r :: r2 :: rest))
    with (r ++ kSpaceSymbol ++ concat kSpaceSymbol (r2 :: rest))%string.
  rewrite !length_append. simpl. lia.
Qed.

Lemma strip_trailing_marker_segments (rest : list string) :
  forall s, Forall meta_free (s :: rest) ->
    strip_trailing_marker (concat kSpaceSymbol (s :: rest))
    = concat kSpaceSymbol (s :: drop_last_empty rest).
Proof.
  unfold strip_trailing_marker.
  induction rest as [|r rest IH]; intros s Hfree;
    inversion Hfree as [|s' rest' Hs Hrest]; subst.
  - cbn [concat drop_last_empty]. rewrite (meta_free_not_EndsWith s Hs). reflexivity.
  - destruct rest as [|r2 rest].
    + inversion Hrest as [|r' rest' Hr _]; subst.
      change (concat kSpaceSymbol [s; r]) with (s ++ kSpaceSymbol ++ r)%string.
      destruct r as [|c r].
      * rewrite append_nil_r, EndsWith_append.
        change 3%nat with (String.length kSpaceSymbol).
        rewrite remove_suffix_append. reflexivity.
      * rewrite marker_then_segment_not_EndsWith by (assumption || discriminate).
        reflexivity.
    + change (concat kSpaceSymbol (s :: r :: r2 :: rest))
        with (s ++ kSpaceSymbol ++ concat kSpaceSymbol (r :: r2 :: rest))%string.
      pose proof (concat_marker_length r r2 rest) as Hlen.
      rewrite <- append_assoc.
      rewrite EndsWith_tail by (simpl String.length at 1; lia).
      rewrite remove_suffix_tail by lia.
      specialize (IH r Hrest).
      destruct (EndsWith (concat kSpaceSymbol (r :: r2 :: rest)) kSpaceSymbol);
        rewrite IH; rewrite append_assoc; reflexivity.
Qed.

Lemma drop_trailing_marker_segments (segments : list string) :
  Forall meta_free segments ->
  strip_trailing_marker (concat kSpaceSymbol segments)
  = concat kSpaceSymbol (drop_trailing_marker segments).
Proof.
  destruct segments as [|s rest]; [reflexivity|].
  apply strip_trailing_marker_segments.
Qed.

Lemma drop_last_empty_free (segments : list string) :
  Forall meta_free segments -> Forall meta_free (drop_last_empty segments).
Proof.
  induction segments as [|s rest IH]; intros H; [constructor|].
  inversion H as [|s' rest' Hs Hrest]; subst. cbn [drop_last_empty].
  destruct rest as [|r rest].
  - destruct (string_empty s); [constructor | exact H].
  - constructor; [exact Hs | apply IH; exact Hrest].
Qed.

Lemma drop_trailing_marker_free (segments : list string) :
  Forall meta_free segments -> Forall meta_free (drop_trailing_marker segments).
Proof.
  destruct segments as [|s rest]; intros H; [constructor|].
  inversion H as [|s' rest' Hs Hrest]; subst.
  constructor; [exact Hs | apply drop_last_empty_free; exact Hrest].
Qed.

Lemma drop_leading_marker_free (segments : list string) :
  Forall meta_free segments -> Forall meta_free (drop_leading_marker segments).
Proof.
  destruct segments as [|s [|r rest]]; intros H; try exact H.
  cbn [drop_leading_marker]. destruct (string_empty s); [|exact H].
  inversion H; assumption.
Qed.

(** Every piece is a sequence of marker-free segments joined by the
    marker. *)
Lemma meta_segments_exist (piece : string) :
  exists segments,
    Forall meta_free segments /\ piece = concat kSpaceSymbol segments.
Proof.
  induction piece as [|c piece IH].
  - exists [""]. split; [repeat constructor | reflexivity].
  - destruct IH as [segments [Hfree ->]].
    destruct segments as [|s rest].
    + exists [String c ""]. split; [|reflexivity].
      repeat constructor. unfold meta_free, kSpaceSymbol. cbn [occurs prefix].
      destruct (ascii_dec "226" c); reflexivity.
    + inversion Hfree as [|s' rest' Hs Hrest]; subst.
      destruct (prefix kSpaceSymbol (String c s)) eqn:E.
      * destruct (prefix_inv _ _ E) as [b Hb].
        change (kSpaceSymbol ++ b)%string
          with (String "226" (String "150" (String "129" b))) in Hb.
        injection Hb as -> ->.
        exists ("" :: b :: rest). split.
        -- constructor; [reflexivity|]. constructor; [|exact Hrest].
           apply meta_free_tail in Hs. apply meta_free_tail in Hs. exact Hs.
        -- destruct rest; reflexivity.
      * exists (String c s :: rest). split.
        -- constructor; [|exact Hrest]. unfold meta_free. cbn [occurs].
           rewrite E. exact Hs.
        -- destruct rest; reflexivity.
Qed.

(** C7.  For a piece that is neither control nor unknown, written as its
    marker-free segments joined by the meta-space marker: the surface is
    the segments joined by one ASCII space each, after at most one marker
    has been dropped.  The markers are stripped when the processor holds
    no model proto, or when the normalizer spec of its model proto has
    [add_dummy_prefix] or [remove_extra_whitespaces].  White space is a
    suffix when the model proto has a trainer spec with
    [treat_whitespace_as_suffix], and a prefix otherwise, also without
    model proto.  With white space as prefix a leading marker is dropped
    when the text buffer is empty and markers are stripped; with white
    space as suffix a trailing marker is dropped on the last piece when
    markers are stripped; in every other case no marker is dropped. *)
Theorem DecodeSentencePiece_normal_piece (sp : SentencePieceProcessor)
    (id : Z) (segments : list string) (text_empty is_last : bool) :
  IsControl sp id = false ->
  IsUnknown sp id = false ->
  Forall meta_free segments ->
  let strip :=
    match model_proto_ sp with
    | None => true
    | Some mp =>
        add_dummy_prefix (normalizer_spec mp)
        || remove_extra_whitespaces (normalizer_spec mp)
    end in
  let as_suffix :=
    match model_proto_ sp with
    | None => false
    | Some mp =>
        has_trainer_spec mp && treat_whitespace_as_suffix (trainer_spec mp)
    end in
  DecodeSentencePiece sp (concat kSpaceSymbol segments) id text_empty is_last
  = concat " "
      (if as_suffix
       then (if is_last && strip then drop_trailing_marker segments else segments)
       else (if text_empty && strip then drop_leading_marker segments else segments)).
Proof.
  intros Hctl Hunk Hfree strip as_suffix.
  unfold DecodeSentencePiece. rewrite Hctl, Hunk.
  assert (Hstrip : strips_dummy_whitespace sp = strip) by reflexivity.
  assert (Hprefix : whitespace_is_prefix sp = negb as_suffix).
  { unfold whitespace_is_prefix, as_suffix.
    destruct (model_proto_ sp) as [mp|]; [|reflexivity].
    symmetry. apply negb_andb. }
  rewrite Hstrip, Hprefix.
  destruct as_suffix; cbn [negb].
  - destruct (is_last && strip).
    + fold (strip_trailing_marker (concat kSpaceSymbol segments)).
      rewrite drop_trailing_marker_segments by exact Hfree.
      apply StrReplaceAll_segments. apply drop_trailing_marker_free. exact Hfree.
    + apply StrReplaceAll_segments. exact Hfree.
  - destruct (text_empty && strip).
    + rewrite ConsumePrefix_segments by exact Hfree.
      apply StrReplaceAll_segments. apply drop_leading_marker_free. exact Hfree.
    + apply StrReplaceAll_segments. exact Hfree.
Qed.

Lemma DecodeSentencePiece_normal_piece_witness :
  DecodeSentencePiece Toy.sp (concat kSpaceSymbol [""; "He"; "llo"]) 15 true false
  = concat " " ["He"; "llo"].
Proof.
  apply (DecodeSentencePiece_normal_piece Toy.sp 15 [""; "He"; "llo"] true false).
  - reflexivity.
  - reflexivity.
  - repeat constructor.
Defined.

(** A processor without model proto (a model and a normalizer installed
    through [SetModel] and [SetNormalizer]) is ready and has no normalizer
    spec, so neither flag is set; the first piece loses its leading marker
    all the same: the surface is [He llo], not [ He llo] with the marker
    kept as a space. *)
Lemma DecodeSentencePiece_without_model_proto :
  ok (status Sample.sp_without_proto) = true
  /\ model_proto_ Sample.sp_without_proto = None
  /\ IsControl Sample.sp_without_proto 15 = false
  /\ IsUnknown Sample.sp_without_proto 15 = false
  /\ DecodeSentencePiece Sample.sp_without_proto
       (concat kSpaceSymbol [""; "He"; "llo"]) 15 true false
     = "He llo"
  /\ DecodeSentencePiece Sample.sp_without_proto
       (concat kSpaceSymbol [""; "He"; "llo"]) 15 true false
     <> StrReplaceAll (concat kSpaceSymbol [""; "He"; "llo"]) kSpaceSymbol " ".
Proof.
  repeat split; try reflexivity.
  vm_compute. discriminate.
Qed.

(** ** The scenarios of the specification, run on the concrete processor *)

(** S2: folding two runs, and unfolding them again. *)
Example scenario_fold_unfold :
  rle ["a"; "a"; "a"; "b"; "b"]
  = ["a"; "(#startrepeat)"; "3"; "(#endrepeat)"; "b"; "(#startrepeat)"; "2"; "(#endrepeat)"]
  /\ expand_from_pieces 2 (rle ["a"; "a"; "a"; "b"; "b"])
     = Ret ["a"; "a"; "a"; "b"; "b"].
Proof. split; reflexivity. Qed.

(** A run of twelve takes two digit pieces. *)
Example scenario_two_digits :
  rle (repeat "a" 12) = ["a"; "(#startrepeat)"; "1"; "2"; "(#endrepeat)"]
  /\ expand_from_pieces 1 (rle (repeat "a" 12)) = Ret (repeat "a" 12).
Proof. split; reflexivity. Qed.

(** S3: the first piece loses its leading marker when the normalizer adds
    a dummy prefix, and keeps it as a space when it does not. *)
Example scenario_decode_first_piece :
  DecodeSentencePiece Toy.sp (kSpaceSymbol ++ "He") 15 true false = "He"
  /\ DecodeSentencePiece
       (Toy.processor (Toy.model true true false) (Toy.proto false false false) [])
       (kSpaceSymbol ++ "He") 15 true false = " He"
  /\ DecodeSentencePiece Toy.sp "llo" 15 false true = "llo".
Proof. repeat split; reflexivity. Qed.

(** S4: a character outside the vocabulary becomes its three byte pieces,
    the surface carried by the last. *)
Example scenario_byte_fallback :
  Encode Toy.sp_byte_fallback (String "226" (String "130" (String "172" "")))
  = Ret {| text := String "226" (String "130" (String "172" ""));
           pieces :=
             [{| piece := "<0xE2>"; id := 18; surface := ""; begin_ := 0; end_ := 0 |};
              {| piece := "<0x82>"; id := 19; surface := ""; begin_ := 0; end_ := 0 |};
              {| piece := "<0xAC>"; id := 20;
                 surface := String "226" (String "130" (String "172" ""));
                 begin_ := 0; end_ := 3 |}] |}.
Proof. reflexivity. Qed.

(** S6: [bos:eos] puts BOS first and EOS last; [reverse:eos] reverses,
    then appends EOS. *)
Example scenario_extra_options :
  (spt <- Encode (Toy.processor Toy.model_bytes (Toy.proto false true true) [BOS; EOS])
            "ab" ;;
   Ret (map piece (pieces spt)))
  = Ret ["<s>"; "a"; "b"; "</s>"]
  /\ (spt <- Encode (Toy.processor Toy.model_bytes (Toy.proto false true true)
                       [REVERSE; EOS]) "ab" ;;
      Ret (map piece (pieces spt)))
     = Ret ["b"; "a"; "</s>"].
Proof. split; reflexivity. Qed.

(** Unknown pieces in a row are merged into one record. *)
Example scenario_unknown_run :
  (spt <- Encode Toy.sp_bytes "axyb" ;;
   Ret (map (fun r => (piece r, id r, begin_ r, end_ r)) (pieces spt)))
  = Ret [("a", 15, 0%nat, 1%nat); ("xy", 0, 1%nat, 3%nat); ("b", 16, 3%nat, 4%nat)].
Proof. reflexivity. Qed.

(* ================================================================== *)
(** * Further properties                                               *)
(* ================================================================== *)

(** ** Digits *)

(** X1.  A count goes through its digits and back: the digits of an
    [int] [x] of at most nine digits are decimal digits and [VectorToInt]
    reads them back as [x]; a value that is not positive reads back as
    [0]. *)
Theorem VectorToInt_reads_back_digits (x : Z) :
  INT_MIN <= x <= 999999999 ->
  Forall is_digit (extract_each_digit x)
  /\ VectorToInt (extract_each_digit x) = Z.max 0 x.
Proof.
  intros Hx. split; [apply extract_each_digit_digits|].
  destruct (Z_le_gt_dec x 0) as [Hle|Hgt].
  - unfold extract_each_digit. cbn [extract_each_digit_loop].
    assert (H : (0 <? x) = false) by (apply Z.ltb_ge; exact Hle).
    rewrite H, Z.max_l by lia. reflexivity.
  - rewrite VectorToInt_extract_each_digit, Z.max_r by int_range. reflexivity.
Qed.

Lemma VectorToInt_reads_back_digits_witness :
  Forall is_digit (extract_each_digit 2024)
  /\ VectorToInt (extract_each_digit 2024) = Z.max 0 2024.
Proof.
  apply (VectorToInt_reads_back_digits 2024). unfold INT_MIN. lia.
Defined.

(** ** Folding *)

Lemma rle_run_no_repeat (rest : list string) :
  forall cur, no_adjacent_repeat (cur :: rest) = true -> rle_run cur 1 rest = cur :: rest.
Proof.
  induction rest as [|next rest IH]; intros cur H; [reflexivity|].
  cbn [no_adjacent_repeat] in H. apply andb_true_iff in H. destruct H as [Hne Hrest].
  cbn [rle_run]. apply negb_true_iff in Hne. rewrite Hne.
  rewrite emit_run_single. simpl. f_equal. apply IH. exact Hrest.
Qed.

(** X2.  A sequence in which no piece is followed by an equal piece is
    left as it is by [rle]: nothing is folded, no marker is added.  The
    empty sequence is such a sequence. *)
Theorem rle_without_repeats (p : list string) :
  Z.of_nat (List.length p) <= INT_MAX ->
  no_adjacent_repeat p = true ->
  rle p = p.
Proof.
  intros Hmax H. unfold rle.
  rewrite wrap_int_small by int_range.
  rewrite Nat2Z.id, firstn_all.
  destruct p as [|first rest]; [reflexivity|].
  apply rle_run_no_repeat. exact H.
Qed.

Lemma rle_without_repeats_witness : rle ["a"; "b"; "a"] = ["a"; "b"; "a"].
Proof.
  apply (rle_without_repeats ["a"; "b"; "a"]).
  - unfold INT_MAX. simpl. lia.
  - reflexivity.
Defined.

(** ** Positions of a piece *)

Lemma locate_all_from_filter (v : list string) (what : string) :
  forall i, locate_all_from i v what
            = filter (fun k => is_at v what (k - i)) (seq i (List.length v)).
Proof.
  induction v as [|s v IH]; intros i; [reflexivity|].
  cbn [locate_all_from List.length seq filter].
  rewrite Nat.sub_diag. unfold is_at at 1. cbn [nth_error].
  assert (Hrest : filter (fun k => is_at (s :: v) what (k - i)) (seq (S i) (List.length v))
                  = filter (fun k => is_at v what (k - S i)) (seq (S i) (List.length v))).
  { apply filter_ext_in. intros k Hk. apply in_seq in Hk.
    replace (k - i)%nat with (S (k - S i)) by lia. reflexivity. }
  rewrite Hrest, <- IH. reflexivity.
Qed.

(** X3.  [locate_all] returns exactly the positions at which the piece
    stands, each once and in ascending order. *)
Theorem locate_all_positions (v : list string) (what : string) :
  locate_all v what = filter (is_at v what) (seq 0 (List.length v)).
Proof.
  unfold locate_all. rewrite locate_all_from_filter.
  apply filter_ext. intros k. rewrite Nat.sub_0_r. reflexivity.
Qed.

(** ** Unfolding one group *)

Lemma stoi_cases (s : string) :
  (exists v, stoi s = Ret v) \/ (exists e, stoi s = Thrown e).
Proof.
  unfold stoi. destruct (skip_space s) as [|c t]; simpl.
  - right. eauto.
  - match goal with |- context [let '(_, _) := ?x in _] => destruct x as [neg s2] end.
    destruct (read_digits s2 None); [|right; eauto].
    destruct (_ && _)%bool; [left|right]; eauto.
Qed.

Lemma reads_as_not_end_marker (w : string) (v : Z) : reads_as w v -> w <> kEndRepeat.
Proof. intros H ->. discriminate H. Qed.

Lemma reads_as_no_end_marker (ws : list string) (vals : list Z) :
  Forall2 reads_as ws vals -> ~ In kEndRepeat ws.
Proof.
  induction 1 as [|w v ws vals Hw _ IH]; [intros []|].
  intros [H|H]; [|exact (IH H)].
  exact (reads_as_not_end_marker w v Hw H).
Qed.

(** The count loop goes over pieces that read as numbers and collects
    their values, as long as it has not reached [end_position]. *)
Lemma read_count_pieces_advance (ws : list string) (vals : list Z) :
  Forall2 reads_as ws vals ->
  forall (fuel : nat) (pre rest : list string) (num : list Z) (end_position : Z),
    Z.of_nat (List.length pre + List.length ws) <= end_position ->
    Z.of_nat (List.length pre + List.length ws) <= INT_MAX ->
    read_count_pieces (List.length ws + fuel) (pre ++ ws ++ rest)
      (Z.of_nat (List.length pre)) end_position num
    = read_count_pieces fuel (pre ++ ws ++ rest)
        (Z.of_nat (List.length pre + List.length ws)) end_position (num ++ vals).
Proof.
  induction 1 as [|w v ws vals Hw _ IH]; intros fuel pre rest num end_position Hend Hmax.
  - simpl. rewrite Nat.add_0_r, app_nil_r. reflexivity.
  - simpl List.length in *. cbn [Nat.add read_count_pieces].
    assert (Hne : (Z.of_nat (List.length pre) =? end_position) = false)
      by (apply Z.eqb_neq; lia).
    rewrite Hne. cbn [app]. rewrite vec_at_app_head, bind_Ret.
    unfold reads_as in Hw. rewrite Hw, bind_Ret.
    rewrite wrap_int_small by int_range.
    replace (Z.of_nat (List.length pre) + 1)
      with (Z.of_nat (List.length (pre ++ [w])))
      by (rewrite length_app; simpl; lia).
    replace (List.length pre + S (List.length ws))%nat
      with (List.length (pre ++ [w]) + List.length ws)%nat
      by (rewrite length_app; simpl; lia).
    replace (pre ++ w :: ws ++ rest) with ((pre ++ [w]) ++ ws ++ rest)
      by (rewrite <- app_assoc; reflexivity).
    rewrite IH.
    + rewrite <- !app_assoc. reflexivity.
    + rewrite length_app. simpl. lia.
    + rewrite length_app. simpl. lia.
Qed.

Lemma VectorToInt_loop_range (v : list Z) :
  forall decimal total,
    INT_MIN <= total <= INT_MAX ->
    INT_MIN <= VectorToInt_loop v decimal total <= INT_MAX.
Proof.
  induction v as [|it v IH]; intros decimal total Ht; cbn [VectorToInt_loop];
    [exact Ht|].
  apply IH. apply wrap_int_range.
Qed.

Lemma VectorToInt_range (v : list Z) : INT_MIN <= VectorToInt v <= INT_MAX.
Proof. unfold VectorToInt. apply VectorToInt_loop_range. int_range. Qed.

(** What [erase] leaves of a group. *)
Lemma vec_erase_group (pre : list string) (x : string) (ws rest : list string) :
  vec_erase (pre ++ x :: kStartRepeat :: ws ++ kEndRepeat :: rest)
    (S (List.length pre)) (S (List.length pre + 2 + List.length ws))
  = Ret ((pre ++ [x]) ++ rest).
Proof.
  unfold vec_erase.
  assert (Hrange : ((S (List.length pre) <=? S (List.length pre + 2 + List.length ws))
                    && (S (List.length pre + 2 + List.length ws)
                        <=? List.length (pre ++ x :: kStartRepeat :: ws ++ kEndRepeat :: rest)))%nat
                   = true).
  { apply andb_true_iff. split; apply Nat.leb_le; [lia|].
    rewrite length_app. simpl. rewrite length_app. simpl. lia. }
  rewrite Hrange. f_equal. f_equal.
  - replace (pre ++ x :: kStartRepeat :: ws ++ kEndRepeat :: rest)
      with ((pre ++ [x]) ++ kStartRepeat :: ws ++ kEndRepeat :: rest)
      by (rewrite <- app_assoc; reflexivity).
    replace (S (List.length pre)) with (List.length (pre ++ [x]))
      by (rewrite length_app; simpl; lia).
    apply firstn_length_app.
  - replace (pre ++ x :: kStartRepeat :: ws ++ kEndRepeat :: rest)
      with ((pre ++ x :: kStartRepeat :: ws ++ [kEndRepeat]) ++ rest)
      by (rewrite <- app_assoc; simpl; rewrite <- app_assoc; reflexivity).
    replace (S (List.length pre + 2 + List.length ws))
      with (List.length (pre ++ x :: kStartRepeat :: ws ++ [kEndRepeat]))
      by (rewrite length_app; simpl; rewrite length_app; simpl; lia).
    apply skipn_length_app.
Qed.

(** X4.  One unfolding step of the piece layer on a group [x],
    ["(#startrepeat)"], count pieces, ["(#endrepeat)"], the count pieces
    reading as at most nine decimal digits: when the digits make a number
    of at least one, the group is replaced by that many copies of [x] in
    all; when they make zero, or there are none, the step throws
    [std::length_error]. *)
Theorem _expand_from_pieces_group (pre : list string) (x : string) (ws : list string)
    (vals : list Z) (rest : list string) :
  ~ In kStartRepeat pre -> ~ In kEndRepeat pre ->
  x <> kStartRepeat -> x <> kEndRepeat ->
  Forall2 reads_as ws vals ->
  Forall is_digit vals -> (List.length vals <= 9)%nat ->
  INT_MIN < VectorToInt vals ->
  Z.of_nat (List.length pre) + Z.of_nat (List.length ws) + 2 <= INT_MAX ->
  _expand_from_pieces (pre ++ x :: kStartRepeat :: ws ++ kEndRepeat :: rest)
  = if VectorToInt vals <=? 0 then Thrown length_error
    else Ret (pre ++ repeat x (Z.to_nat (VectorToInt vals)) ++ rest).
Proof.
  intros Hps Hpe Hxs Hxe Hws _ _ Hval Hmax.
  set (pieces := pre ++ x :: kStartRepeat :: ws ++ kEndRepeat :: rest).
  assert (Hit1 : find_pos String.eqb kStartRepeat pieces = S (List.length pre)).
  { unfold pieces. rewrite find_pos_app by exact Hps.
    rewrite find_pos_skip by exact Hxs. rewrite find_pos_head. lia. }
  assert (Hit2 : find_pos String.eqb kEndRepeat pieces
                 = (List.length pre + 2 + List.length ws)%nat).
  { unfold pieces. rewrite find_pos_app by exact Hpe.
    rewrite find_pos_skip by exact Hxe.
    rewrite find_pos_skip by discriminate.
    rewrite find_pos_app by (apply (reads_as_no_end_marker ws vals); exact Hws).
    rewrite find_pos_head. lia. }
  assert (Hlen : List.length pieces
                 = (List.length pre + 2 + List.length ws + 1 + List.length rest)%nat).
  { unfold pieces. rewrite length_app. simpl. rewrite length_app. simpl. lia. }
  unfold _expand_from_pieces. fold pieces. rewrite Hit1, Hit2.
  rewrite (wrap_int_small (Z.of_nat (S (List.length pre)))) by int_range.
  rewrite (wrap_int_small (Z.of_nat (List.length pre + 2 + List.length ws)))
    by int_range.
  rewrite (wrap_int_small (Z.of_nat (S (List.length pre)) - 1)) by int_range.
  rewrite (wrap_int_small (Z.of_nat (S (List.length pre)) + 1)) by int_range.
  replace (Z.of_nat (S (List.length pre)) - 1) with (Z.of_nat (List.length pre)) by lia.
  unfold pieces at 1. rewrite vec_at_app_head, bind_Ret.
  assert (Hin : ((S (List.length pre) <? List.length pieces)
                 && (List.length pre + 2 + List.length ws <? List.length pieces))%nat
                = true).
  { rewrite Hlen. apply andb_true_iff. split; apply Nat.ltb_lt; lia. }
  rewrite Hin.
  assert (Hread : read_count_pieces (S (List.length pieces)) pieces
                    (Z.of_nat (S (List.length pre)) + 1)
                    (Z.of_nat (List.length pre + 2 + List.length ws)) []
                  = Ret vals).
  { replace pieces with ((pre ++ [x; kStartRepeat]) ++ ws ++ kEndRepeat :: rest)
      by (unfold pieces; rewrite <- app_assoc; reflexivity).
    replace (Z.of_nat (S (List.length pre)) + 1)
      with (Z.of_nat (List.length (pre ++ [x; kStartRepeat])))
      by (rewrite length_app; simpl; lia).
    replace (S (List.length ((pre ++ [x; kStartRepeat]) ++ ws ++ kEndRepeat :: rest)))
      with (List.length ws
            + S (List.length pre + 2 + 1 + List.length rest))%nat
      by (rewrite !length_app; simpl; lia).
    rewrite (read_count_pieces_advance ws vals Hws).
    - cbn [read_count_pieces].
      replace (List.length (pre ++ [x; kStartRepeat]) + List.length ws)%nat
        with (List.length pre + 2 + List.length ws)%nat
        by (rewrite length_app; simpl; lia).
      rewrite Z.eqb_refl. reflexivity.
    - rewrite length_app. simpl. lia.
    - rewrite length_app. simpl. lia. }
  rewrite Hread, bind_Ret.
  pose proof (VectorToInt_range vals) as Hrange.
  rewrite (wrap_int_small (VectorToInt vals - 1)) by int_range.
  unfold pieces. rewrite vec_erase_group, bind_Ret. unfold vec_insert_n.
  destruct (VectorToInt vals <=? 0) eqn:Hcount.
  - apply Z.leb_le in Hcount.
    assert (Hneg : (VectorToInt vals - 1 <? 0) = true) by (apply Z.ltb_lt; lia).
    rewrite Hneg. reflexivity.
  - apply Z.leb_gt in Hcount.
    assert (Hneg : (VectorToInt vals - 1 <? 0) = false) by (apply Z.ltb_ge; lia).
    assert (Hpos : (S (List.length pre) <=? List.length ((pre ++ [x]) ++ rest))%nat = true).
    { apply Nat.leb_le. rewrite !length_app. simpl. lia. }
    rewrite Hneg, Hpos.
    replace (S (List.length pre)) with (List.length (pre ++ [x]))
      by (rewrite length_app; simpl; lia).
    rewrite firstn_length_app, skipn_length_app.
    replace (Z.to_nat (VectorToInt vals)) with (S (Z.to_nat (VectorToInt vals - 1)))
      by lia.
    simpl repeat. rewrite <- app_assoc. reflexivity.
Qed.

Lemma _expand_from_pieces_group_witness :
  _expand_from_pieces (["z"] ++ "a" :: kStartRepeat :: ["0"; "3"] ++ kEndRepeat :: ["b"])
  = if VectorToInt [0; 3] <=? 0 then Thrown length_error
    else Ret (["z"] ++ repeat "a" (Z.to_nat (VectorToInt [0; 3])) ++ ["b"]).
Proof.
  apply (_expand_from_pieces_group ["z"] "a" ["0"; "3"] [0; 3] ["b"]).
  - simpl. intros [H|[]]. discriminate H.
  - simpl. intros [H|[]]. discriminate H.
  - discriminate.
  - discriminate.
  - repeat constructor.
  - repeat constructor; unfold is_digit; lia.
  - simpl. lia.
  - vm_compute. reflexivity.
  - vm_compute. discriminate.
Defined.

(** X5.  A piece between the markers that [std::stoi] rejects ends the
    step with the exception [std::stoi] throws: [std::invalid_argument]
    for a piece that is no number, [std::out_of_range] for one that does
    not fit an [int]. *)
Theorem _expand_from_pieces_bad_count (pre : list string) (x : string)
    (ws : list string) (vals : list Z) (w : string) (e : exception)
    (tail : list string) :
  ~ In kStartRepeat pre -> ~ In kEndRepeat pre ->
  x <> kStartRepeat -> x <> kEndRepeat ->
  Forall2 reads_as ws vals ->
  stoi w = Thrown e -> w <> kEndRepeat ->
  In kEndRepeat tail ->
  Z.of_nat (List.length (pre ++ x :: kStartRepeat :: ws ++ w :: tail)) <= INT_MAX ->
  _expand_from_pieces (pre ++ x :: kStartRepeat :: ws ++ w :: tail) = Thrown e.
Proof.
  intros Hps Hpe Hxs Hxe Hws Hw Hwe Htail Hmax.
  set (pieces := pre ++ x :: kStartRepeat :: ws ++ w :: tail) in *.
  assert (Hlen : List.length pieces
                 = (List.length pre + 2 + List.length ws + 1 + List.length tail)%nat).
  { unfold pieces. rewrite length_app. simpl. rewrite length_app. simpl. lia. }
  assert (Hit1 : find_pos String.eqb kStartRepeat pieces = S (List.length pre)).
  { unfold pieces. rewrite find_pos_app by exact Hps.
    rewrite find_pos_skip by exact Hxs. rewrite find_pos_head. lia. }
  pose proof (find_pos_present kEndRepeat tail Htail) as Hpos.
  assert (Hit2 : find_pos String.eqb kEndRepeat pieces
                 = (List.length pre + 2 + List.length ws + 1
                    + find_pos String.eqb kEndRepeat tail)%nat).
  { unfold pieces. rewrite find_pos_app by exact Hpe.
    rewrite find_pos_skip by exact Hxe.
    rewrite find_pos_skip by discriminate.
    rewrite find_pos_app by (apply (reads_as_no_end_marker ws vals); exact Hws).
    rewrite find_pos_skip by exact Hwe. lia. }
  unfold _expand_from_pieces. fold pieces. rewrite Hit1, Hit2.
  rewrite (wrap_int_small (Z.of_nat (S (List.length pre)))) by int_range.
  rewrite (wrap_int_small (Z.of_nat _)) by int_range.
  rewrite (wrap_int_small (Z.of_nat (S (List.length pre)) - 1)) by int_range.
  rewrite (wrap_int_small (Z.of_nat (S (List.length pre)) + 1)) by int_range.
  replace (Z.of_nat (S (List.length pre)) - 1) with (Z.of_nat (List.length pre)) by lia.
  unfold pieces at 1. rewrite vec_at_app_head, bind_Ret.
  assert (Hin : ((S (List.length pre) <? List.length pieces)
                 && (List.length pre + 2 + List.length ws + 1
                     + find_pos String.eqb kEndRepeat tail <? List.length pieces))%nat
                = true).
  { rewrite Hlen. apply andb_true_iff. split; apply Nat.ltb_lt; lia. }
  rewrite Hin.
  replace pieces with ((pre ++ [x; kStartRepeat]) ++ ws ++ w :: tail)
    by (unfold pieces; rewrite <- app_assoc; reflexivity).
  replace (Z.of_nat (S (List.length pre)) + 1)
    with (Z.of_nat (List.length (pre ++ [x; kStartRepeat])))
    by (rewrite length_app; simpl; lia).
  replace (S (List.length ((pre ++ [x; kStartRepeat]) ++ ws ++ w :: tail)))
    with (List.length ws + S (S (List.length pre + 2 + List.length tail)))%nat
    by (rewrite !length_app; simpl; lia).
  rewrite (read_count_pieces_advance ws vals Hws).
  - cbn [read_count_pieces].
    assert (Hne : (Z.of_nat (List.length (pre ++ [x; kStartRepeat]) + List.length ws)
                   =? Z.of_nat (List.length pre + 2 + List.length ws + 1
                                + find_pos String.eqb kEndRepeat tail)) = false).
    { apply Z.eqb_neq. rewrite length_app. simpl. lia. }
    rewrite Hne.
    replace ((pre ++ [x; kStartRepeat]) ++ ws ++ w :: tail)
      with (((pre ++ [x; kStartRepeat]) ++ ws) ++ w :: tail)
      by (rewrite <- app_assoc; reflexivity).
    rewrite <- length_app, vec_at_app_head, bind_Ret, Hw. reflexivity.
  - rewrite length_app. simpl. lia.
  - rewrite length_app. simpl. int_range.
Qed.

Lemma _expand_from_pieces_bad_count_witness :
  _expand_from_pieces ([] ++ "a" :: kStartRepeat :: ["1"] ++ "x" :: [kEndRepeat])
  = Thrown invalid_argument.
Proof.
  apply (_expand_from_pieces_bad_count [] "a" ["1"] [1] "x" invalid_argument [kEndRepeat]).
  - intros [].
  - intros [].
  - discriminate.
  - discriminate.
  - repeat constructor.
  - reflexivity.
  - discriminate.
  - left. reflexivity.
  - vm_compute. discriminate.
Defined.

(** Past [end_position] the count loop cannot stop by itself: it goes on
    until [std::stoi] throws or the vector ends. *)
Lemma read_count_pieces_past (pieces : list string) (end_position : Z) (fuel : nat) :
  forall j num,
    end_position < j -> 0 <= j <= Z.of_nat (List.length pieces) ->
    Z.of_nat (List.length pieces) < INT_MAX ->
    Z.of_nat (List.length pieces) - j < Z.of_nat fuel ->
    read_count_pieces fuel pieces j end_position num = Undefined
    \/ exists e, read_count_pieces fuel pieces j end_position num = Thrown e.
Proof.
  induction fuel as [|fuel IH]; intros j num Hend Hj Hmax Hfuel; [lia|].
  cbn [read_count_pieces].
  assert (Hne : (j =? end_position) = false) by (apply Z.eqb_neq; lia).
  rewrite Hne.
  destruct (vec_at_outcome pieces j) as [[piece [Hat Hin]] | Hat]; rewrite Hat;
    [|left; reflexivity].
  rewrite bind_Ret.
  destruct (stoi_cases piece) as [[d Hd] | [e He]].
  - rewrite Hd, bind_Ret, wrap_int_small by int_range.
    apply IH; lia.
  - rewrite He. right. exists e. reflexivity.
Qed.

(** X6.  When the first end marker stands before the first start marker,
    one unfolding step never returns: the count loop starts past the end
    marker and runs until [std::stoi] throws or it reads past the last
    piece. *)
Theorem _expand_from_pieces_end_before_start (pre mid rest : list string) :
  ~ In kStartRepeat pre -> ~ In kEndRepeat pre -> ~ In kStartRepeat mid ->
  Z.of_nat (List.length (pre ++ kEndRepeat :: mid ++ kStartRepeat :: rest)) < INT_MAX ->
  _expand_from_pieces (pre ++ kEndRepeat :: mid ++ kStartRepeat :: rest) = Undefined
  \/ exists e,
       _expand_from_pieces (pre ++ kEndRepeat :: mid ++ kStartRepeat :: rest) = Thrown e.
Proof.
  intros Hps Hpe Hms Hmax.
  set (pieces := pre ++ kEndRepeat :: mid ++ kStartRepeat :: rest) in *.
  assert (Hlen : List.length pieces
                 = (List.length pre + 1 + List.length mid + 1 + List.length rest)%nat).
  { unfold pieces. rewrite length_app. simpl. rewrite length_app. simpl. lia. }
  assert (Hit1 : find_pos String.eqb kStartRepeat pieces
                 = (List.length pre + 1 + List.length mid)%nat).
  { unfold pieces. rewrite find_pos_app by exact Hps.
    rewrite find_pos_skip by discriminate.
    rewrite find_pos_app by exact Hms. rewrite find_pos_head. lia. }
  assert (Hit2 : find_pos String.eqb kEndRepeat pieces = List.length pre).
  { unfold pieces. rewrite find_pos_app by exact Hpe. rewrite find_pos_head. lia. }
  unfold _expand_from_pieces. fold pieces. rewrite Hit1, Hit2.
  rewrite !(wrap_int_small (Z.of_nat _)) by int_range.
  rewrite (wrap_int_small (_ - 1)) by int_range.
  rewrite (wrap_int_small (_ + 1)) by int_range.
  destruct (vec_at_outcome pieces (Z.of_nat (List.length pre + 1 + List.length mid) - 1))
    as [[repeat_token [Hat _]] | Hat]; rewrite Hat; [|left; reflexivity].
  rewrite bind_Ret.
  assert (Hin : ((List.length pre + 1 + List.length mid <? List.length pieces)
                 && (List.length pre <? List.length pieces))%nat = true).
  { rewrite Hlen. apply andb_true_iff. split; apply Nat.ltb_lt; lia. }
  rewrite Hin.
  destruct (read_count_pieces_past pieces (Z.of_nat (List.length pre))
              (S (List.length pieces))
              (Z.of_nat (List.length pre + 1 + List.length mid) + 1) [])
    as [Hread | [e Hread]]; try lia; rewrite Hread.
  - left. reflexivity.
  - right. exists e. reflexivity.
Qed.

Lemma _expand_from_pieces_end_before_start_witness :
  _expand_from_pieces ([] ++ kEndRepeat :: ["a"] ++ kStartRepeat :: ["2"]) = Undefined
  \/ exists e,
       _expand_from_pieces ([] ++ kEndRepeat :: ["a"] ++ kStartRepeat :: ["2"]) = Thrown e.
Proof.
  apply (_expand_from_pieces_end_before_start [] ["a"] ["2"]).
  - intros [].
  - intros [].
  - simpl. intros [H|[]]. discriminate H.
  - vm_compute. reflexivity.
Defined.

(** ** Unfolding ids *)

Lemma find_id_absent (x : Z) (v : list Z) :
  ~ In x v -> find_pos Z.eqb x v = List.length v.
Proof. apply find_pos_absent_gen, Z.eqb_spec. Qed.

Lemma find_id_present (x : Z) (v : list Z) :
  In x v -> (find_pos Z.eqb x v < List.length v)%nat.
Proof. apply find_pos_present_gen, Z.eqb_spec. Qed.

(** X7.  The id layer on one group, in a model whose vocabulary holds
    the markers and the digits: the loop ends after one step, and the
    symbol stays where it was with as many further copies after it as the
    digits say; with a count of zero, or no digits, the symbol is left
    once. *)
Theorem expand_from_ids_group (sp : SentencePieceProcessor) (m : ModelInterface.t)
    (pre : list Z) (x : Z) (ds : list Z) (rest : list Z) :
  let start_id := ModelInterface.PieceToId m kStartRepeat in
  let end_id := ModelInterface.PieceToId m kEndRepeat in
  let digit_id := fun d => ModelInterface.PieceToId m (to_string d) in
  model_ sp = Some m ->
  ~ In start_id pre -> ~ In end_id pre ->
  x <> start_id -> x <> end_id -> start_id <> end_id ->
  Forall is_digit ds -> (List.length ds <= 9)%nat ->
  (forall d, is_digit d ->
     digit_id d <> end_id /\ ModelInterface.IdToPiece m (digit_id d) = to_string d) ->
  ~ In start_id rest ->
  Z.of_nat (List.length (pre ++ x :: start_id :: map digit_id ds ++ end_id :: rest))
    <= INT_MAX ->
  expand_from_ids 1 sp (pre ++ x :: start_id :: map digit_id ds ++ end_id :: rest)
  = Ret (pre ++ x :: repeat x (Z.to_nat (VectorToInt ds)) ++ rest).
Proof.
  intros start_id end_id digit_id Hm Hps Hpe Hxs Hxe Hse Hds _ Hvocab Hrs Hmax.
  subst start_id end_id digit_id.
  unfold expand_from_ids. rewrite Hm. simpl deref. rewrite bind_Ret.
  cbn [expand_from_ids_loop].
  match goal with
  | |- context [has_start_marker_id m ?ids] =>
      assert (Hhas : has_start_marker_id m ids = true)
  end.
  { unfold has_start_marker_id. apply Nat.ltb_lt. apply find_id_present.
    apply in_or_app. right. right. left. reflexivity. }
  rewrite Hhas.
  rewrite (_expand_from_ids_run m pre x ds rest Hps Hpe Hxs Hxe Hse Hds Hvocab Hmax).
  rewrite bind_Ret.
  assert (Hout : has_start_marker_id m
                   (pre ++ x :: repeat x (Z.to_nat (VectorToInt ds)) ++ rest) = false).
  { unfold has_start_marker_id. rewrite find_id_absent.
    - apply Nat.ltb_irrefl.
    - intros Hin. apply in_app_or in Hin. destruct Hin as [H|[H|H]].
      + exact (Hps H).
      + exact (Hxs H).
      + apply in_app_or in H. destruct H as [H|H]; [|exact (Hrs H)].
        apply repeat_spec in H. exact (Hxs (eq_sym H)). }
  rewrite Hout. reflexivity.
Qed.

Lemma expand_from_ids_group_witness :
  expand_from_ids 1 Toy.sp ([16] ++ 15 :: 3 :: map Toy.PieceToId (map to_string [2]) ++ 4 :: [16])
  = Ret ([16] ++ 15 :: repeat 15 (Z.to_nat (VectorToInt [2])) ++ [16]).
Proof.
  rewrite map_map.
  apply (expand_from_ids_group Toy.sp (Toy.model true true false) [16] 15 [2] [16]).
  - reflexivity.
  - simpl. intros [H|[]]. discriminate H.
  - simpl. intros [H|[]]. discriminate H.
  - discriminate.
  - discriminate.
  - discriminate.
  - repeat constructor; unfold is_digit; lia.
  - simpl. lia.
  - intros d Hd. each_digit Hd; split; (discriminate || reflexivity).
  - simpl. intros [H|[]]. discriminate H.
  - vm_compute. discriminate.
Defined.

(** ** The encode walk: surfaces and spans *)

Lemma substring_none (s : string) (n : nat) : substring n 0 s = "".
Proof.
  revert n. induction s as [|c s IH]; intros [|n]; simpl; try reflexivity. apply IH.
Qed.

(** Two adjacent stretches of a text make one stretch. *)
Lemma substring_concat (s : string) :
  forall a b c, (a <= b <= c)%nat ->
    (substring a (b - a) s ++ substring b (c - b) s)%string = substring a (c - a) s.
Proof.
  induction s as [|ch s IH]; intros a b c [Hab Hbc].
  - destruct a, b, c; simpl; try reflexivity; try lia;
      destruct (_ - _)%nat; reflexivity.
  - destruct a as [|a].
    + destruct b as [|b].
      * rewrite Nat.sub_0_r. simpl. reflexivity.
      * destruct c as [|c]; [lia|]. simpl.
        specialize (IH O b c). rewrite !Nat.sub_0_r in IH. rewrite IH by lia.
        reflexivity.
    + destruct b as [|b]; [lia|]. destruct c as [|c]; [lia|]. simpl.
      apply IH. lia.
Qed.

Lemma spans_chained_app (a b : list SentencePiece) :
  forall from,
    spans_chained from (a ++ b)
    <-> spans_chained from a /\ spans_chained (chain_end from a) b.
Proof.
  induction a as [|r a IH]; intros from; simpl; [tauto|].
  rewrite IH. tauto.
Qed.

Lemma chain_end_app (a b : list SentencePiece) :
  forall from, chain_end from (a ++ b) = chain_end (chain_end from a) b.
Proof. induction a as [|r a IH]; intros from; simpl; [reflexivity | apply IH]. Qed.

(** The records of the byte-fallback loop: all at [orig_begin] but the
    last, which spans the piece. *)
Lemma byte_fallback_pieces_tile (m : ModelInterface.t) (input w : string)
    (orig_begin orig_end : nat) :
  (orig_begin <= orig_end)%nat -> w <> "" ->
  let records := byte_fallback_pieces m w
                   (ClippedSubstr input orig_begin (orig_end - orig_begin))
                   orig_begin orig_end in
  Forall (surface_is_span input) records
  /\ spans_chained orig_begin records
  /\ chain_end orig_begin records = orig_end.
Proof.
  intros Hle Hw. induction w as [|c w IH]; [congruence|].
  destruct w as [|c' w'].
  - split; [|split].
    + constructor; [|constructor]. split; simpl; [exact Hle | reflexivity].
    + simpl. auto.
    + reflexivity.
  - change (byte_fallback_pieces m (String c (String c' w'))
              (ClippedSubstr input orig_begin (orig_end - orig_begin)) orig_begin orig_end)
      with ({| piece := ByteToPiece c; id := ModelInterface.PieceToId m (ByteToPiece c);
               surface := ""; begin_ := orig_begin; end_ := orig_begin |}
              :: byte_fallback_pieces m (String c' w')
                   (ClippedSubstr input orig_begin (orig_end - orig_begin))
                   orig_begin orig_end).
    destruct IH as [Hall [Hchain Hend]]; [discriminate|].
    split; [|split].
    + constructor; [|exact Hall]. split; simpl; [lia|].
      rewrite Nat.sub_diag, substring_none. reflexivity.
    + cbn [spans_chained begin_ end_]. split; [reflexivity | exact Hchain].
    + cbn [chain_end end_]. exact Hend.
Qed.

Section EncodeTiles.

Variable sp : SentencePieceProcessor.
Variable input : string.
Variable norm_to_orig : list nat.

Lemma walk_tiles_cursor (st : walk) (b : nat) :
  walk_tiles input norm_to_orig st ->
  nth_error norm_to_orig (consumed st) = Some b ->
  chain_end (nth 0 norm_to_orig O) (added st) = b.
Proof.
  intros [_ [_ [[Hnil Hzero] | Hcur]]] Hb.
  - rewrite Hnil. simpl. rewrite Hzero in Hb.
    destruct norm_to_orig; simpl in *; congruence.
  - congruence.
Qed.

Lemma walk_tiles_add (st : walk) (records : list SentencePiece) (b e : nat)
    (consumed' : nat) (unk : bool) :
  walk_tiles input norm_to_orig st ->
  nth_error norm_to_orig (consumed st) = Some b ->
  nth_error norm_to_orig consumed' = Some e ->
  Forall (surface_is_span input) records ->
  spans_chained b records ->
  chain_end b records = e ->
  walk_tiles input norm_to_orig {| consumed := consumed'; is_prev_unk := unk;
                added := added st ++ records |}.
Proof.
  intros Hst Hb He Hall Hchain Hend.
  pose proof (walk_tiles_cursor st b Hst Hb) as Hcur.
  destruct Hst as [Hall0 [Hchain0 _]].
  split; [|split]; simpl.
  - apply Forall_app. split; assumption.
  - apply spans_chained_app. split; [exact Hchain0|]. rewrite Hcur. exact Hchain.
  - right. rewrite chain_end_app, Hcur, Hend. exact He.
Qed.

Lemma populate_piece_tiles (st st' : walk) (p : string * Z) :
  walk_tiles input norm_to_orig st ->
  populate_piece sp input norm_to_orig st p = Ret st' ->
  walk_tiles input norm_to_orig st'.
Proof.
  destruct p as [w id]. intros Hst Hstep.
  unfold populate_piece, CHECK_OR_RETURN in Hstep. simpl fst in Hstep. simpl snd in Hstep.
  destruct (string_empty w) eqn:Hw; [discriminate|]. simpl negb in Hstep.
  cbv iota in Hstep.
  assert (Hne : w <> "") by (intros ->; discriminate).
  destruct (IsControl sp id) eqn:Hctl.
  - unfold offset_at in Hstep.
    destruct (nth_error norm_to_orig (consumed st)) as [b|] eqn:Hb;
      simpl in Hstep; [|discriminate].
    injection Hstep as <-.
    apply (walk_tiles_add st _ b b); try assumption.
    + constructor; [|constructor]. split; simpl; [lia|].
      rewrite Nat.sub_diag, substring_none. reflexivity.
    + simpl. auto.
    + reflexivity.
  - destruct (consumed st <? List.length norm_to_orig)%nat; [|discriminate].
    destruct (consumed st + String.length w <? List.length norm_to_orig)%nat;
      [|discriminate].
    unfold offset_at in Hstep.
    destruct (nth_error norm_to_orig (consumed st)) as [ob|] eqn:Hob;
      simpl in Hstep; [|discriminate].
    destruct (nth_error norm_to_orig (consumed st + String.length w)) as [oe|] eqn:Hoe;
      simpl in Hstep; [|discriminate].
    destruct (ob <=? String.length input)%nat; [|discriminate].
    destruct (oe <=? String.length input)%nat; [|discriminate].
    destruct (ob <=? oe)%nat eqn:Hle; [|discriminate].
    apply Nat.leb_le in Hle.
    assert (Hadd : forall unk,
              walk_tiles input norm_to_orig {| consumed := consumed st + String.length w; is_prev_unk := unk;
                            added := added st
                                     ++ [{| piece := w; id := id;
                                            surface := ClippedSubstr input ob (oe - ob);
                                            begin_ := ob; end_ := oe |}] |}).
    { intros unk. apply (walk_tiles_add st _ ob oe); try assumption.
      - constructor; [|constructor]. split; simpl; [exact Hle | reflexivity].
      - simpl. auto.
      - reflexivity. }
    assert (Hmerge : forall ps,
              merge_or_add st w id (IsUnknown sp id) (ClippedSubstr input ob (oe - ob)) ob oe
              = Ret ps ->
              walk_tiles input norm_to_orig {| consumed := consumed st + String.length w;
                            is_prev_unk := IsUnknown sp id; added := ps |}).
    { intros ps Hps. unfold merge_or_add in Hps.
      destruct (is_prev_unk st && IsUnknown sp id).
      - unfold update_last_piece in Hps.
        destruct (rev (added st)) as [|last before] eqn:Hrev; [discriminate|].
        injection Hps as <-.
        assert (Hadded : added st = rev before ++ [last]).
        { rewrite <- (rev_involutive (added st)), Hrev. reflexivity. }
        pose proof (walk_tiles_cursor st ob Hst Hob) as Hcur.
        destruct Hst as [Hall0 [Hchain0 _]].
        rewrite Hadded in Hall0, Hchain0, Hcur.
        apply Forall_app in Hall0. destruct Hall0 as [Hbefore Hlast].
        apply Forall_inv in Hlast. destruct Hlast as [Hbl Hsl].
        apply spans_chained_app in Hchain0. destruct Hchain0 as [Hcb [Hlb _]].
        rewrite chain_end_app in Hcur. simpl in Hcur.
        split; [|split]; simpl.
        + apply Forall_app. split; [exact Hbefore|]. constructor; [|constructor].
          split; simpl; [lia|].
          rewrite Hsl. unfold ClippedSubstr. rewrite Hcur.
          apply substring_concat. lia.
        + apply spans_chained_app. split; [exact Hcb|]. simpl. auto.
        + right. rewrite chain_end_app. simpl. exact Hoe.
      - injection Hps as <-. apply Hadd. }
    destruct (IsUnknown sp id) eqn:Hunk.
    + destruct (model_ sp) as [m|]; simpl in Hstep; [|discriminate].
      destruct (ModelInterface.ByteFallbackEnabled m).
      * simpl in Hstep. injection Hstep as <-.
        destruct (byte_fallback_pieces_tile m input w ob oe Hle Hne)
          as [Hall [Hchain Hend]].
        apply (walk_tiles_add st _ ob oe); assumption.
      * destruct (merge_or_add st w id true (ClippedSubstr input ob (oe - ob)) ob oe)
          as [ps| | | |] eqn:Hps; simpl in Hstep; try discriminate.
        injection Hstep as <-. apply Hmerge. reflexivity.
    + destruct (merge_or_add st w id false (ClippedSubstr input ob (oe - ob)) ob oe)
        as [ps| | | |] eqn:Hps; simpl in Hstep; try discriminate.
      injection Hstep as <-. apply Hmerge. reflexivity.
Qed.

Lemma populate_loop_tiles (result : EncodeResult) :
  forall st st',
    walk_tiles input norm_to_orig st ->
    populate_loop sp input norm_to_orig result st = Ret st' ->
    walk_tiles input norm_to_orig st'.
Proof.
  induction result as [|p rest IH]; intros st st' Hok Hloop; simpl in Hloop.
  - injection Hloop as <-. exact Hok.
  - destruct (populate_piece sp input norm_to_orig st p) as [st1| | | |] eqn:Hstep;
      simpl in Hloop; try discriminate.
    apply (IH st1 st'); [|exact Hloop].
    apply (populate_piece_tiles st st1 p Hok Hstep).
Qed.

Lemma walk_start_tiles : walk_tiles input norm_to_orig walk_start.
Proof. split; [constructor|]. split; simpl; auto. Qed.

Lemma ApplyExtraOptions_surfaces (extra_options : list ExtraOption) :
  forall ps ps',
    Forall (surface_is_span input) ps ->
    ApplyExtraOptions sp extra_options ps = Ret ps' ->
    Forall (surface_is_span input) ps'.
Proof.
  assert (Hmark : forall piece id,
            surface_is_span input {| piece := piece; id := id; surface := "";
                                     begin_ := 0; end_ := 0 |}).
  { intros piece id. split; simpl; [lia|]. rewrite substring_none. reflexivity. }
  induction extra_options as [|o rest IH]; intros ps ps' Hall Happly; simpl in Happly.
  - injection Happly as <-. exact Hall.
  - destruct o; simpl in Happly.
    + refine (IH _ ps' _ Happly). apply Forall_rev. exact Hall.
    + destruct (model_ sp) as [m|]; simpl in Happly; [|discriminate].
      refine (IH _ ps' _ Happly). constructor; [apply Hmark | exact Hall].
    + destruct (model_ sp) as [m|]; simpl in Happly; [|discriminate].
      refine (IH _ ps' _ Happly). apply Forall_app. split; [exact Hall|].
      constructor; [apply Hmark | constructor].
Qed.

End EncodeTiles.

(** X8.  In every result of [Encode], whatever the model, the normalizer
    and the extra options, the text is the input and the surface of every
    record is the stretch of the input between its [begin] and its [end],
    with [begin <= end]. *)
Theorem Encode_surfaces_are_spans (sp : SentencePieceProcessor) (input : string)
    (spt : SentencePieceText) :
  Encode sp input = Ret spt ->
  text spt = input /\ Forall (surface_is_span input) (pieces spt).
Proof.
  unfold Encode, RETURN_IF_ERROR.
  destruct (ok (status sp)); [|discriminate].
  destruct (normalizer_ sp) as [n|]; simpl; [|discriminate].
  destruct (normalizer.Normalize n input) as [[st normalized] norm_to_orig].
  destruct (ok st); [|discriminate].
  destruct (model_ sp) as [m|]; simpl; [|discriminate].
  unfold PopulateSentencePieceText, CHECK_OR_RETURN.
  destruct (populate_loop sp input norm_to_orig (ModelInterface.Encode m normalized)
              walk_start) as [w| | | |] eqn:Hloop; simpl; try discriminate.
  destruct (consumed w =? String.length normalized)%nat; [|discriminate].
  destruct (ApplyExtraOptions sp (encode_extra_options_ sp) (added w))
    as [ps| | | |] eqn:Hps; simpl; try discriminate.
  intros H. injection H as <-. simpl. split; [reflexivity|].
  destruct (populate_loop_tiles sp input norm_to_orig _ _ _
              (walk_start_tiles input norm_to_orig) Hloop) as [Hall _].
  exact (ApplyExtraOptions_surfaces sp input _ _ _ Hall Hps).
Qed.

Lemma Encode_surfaces_are_spans_witness :
  exists spt, Encode Toy.sp_bytes "axyb" = Ret spt
    /\ text spt = "axyb" /\ Forall (surface_is_span "axyb") (pieces spt).
Proof.
  eexists. split; [reflexivity|].
  apply (Encode_surfaces_are_spans Toy.sp_bytes "axyb"). reflexivity.
Defined.

Lemma surfaces_of_chain (input : string) (ps : list SentencePiece) :
  forall from,
    Forall (surface_is_span input) ps ->
    spans_chained from ps ->
    (from <= chain_end from ps)%nat
    /\ surfaces ps = substring from (chain_end from ps - from) input.
Proof.
  induction ps as [|r rest IH]; intros from Hall Hchain.
  - simpl. split; [lia|]. rewrite Nat.sub_diag, substring_none. reflexivity.
  - apply Forall_cons_iff in Hall. destruct Hall as [[Hle Hsurf] Hrest].
    destruct Hchain as [Hbegin Hchain]. subst from.
    destruct (IH (end_ r) Hrest Hchain) as [Hle' Hs].
    cbn [chain_end]. split; [lia|].
    unfold surfaces in *. cbn [map fold_right]. rewrite Hs, Hsurf.
    apply substring_concat. lia.
Qed.

(** X9.  Without extra options the spans of an [Encode] result follow
    one another without gap or overlap: the first record begins at the
    first offset of the normalizer's map, every other record begins where
    the one before it ended, the last ends at the offset of the end of
    the normalized text, and the surfaces put together are exactly the
    input between these two offsets. *)
Theorem Encode_spans_tile (sp : SentencePieceProcessor) (n : normalizer.Normalizer)
    (input : string) (st : Status) (normalized : string) (norm_to_orig : list nat)
    (spt : SentencePieceText) :
  normalizer_ sp = Some n ->
  normalizer.Normalize n input = (st, normalized, norm_to_orig) ->
  encode_extra_options_ sp = [] ->
  Encode sp input = Ret spt ->
  let first := nth 0 norm_to_orig O in
  let last := chain_end first (pieces spt) in
  spans_chained first (pieces spt)
  /\ (pieces spt <> [] ->
      nth_error norm_to_orig (String.length normalized) = Some last)
  /\ surfaces (pieces spt) = substring first (last - first) input.
Proof.
  intros Hn Hnorm Hopts. unfold Encode, RETURN_IF_ERROR.
  destruct (ok (status sp)); [|discriminate].
  rewrite Hn. simpl deref. rewrite bind_Ret, Hnorm.
  destruct (ok st); [|discriminate].
  destruct (model_ sp) as [m|]; simpl; [|discriminate].
  unfold PopulateSentencePieceText, CHECK_OR_RETURN. rewrite Hopts.
  destruct (populate_loop sp input norm_to_orig (ModelInterface.Encode m normalized)
              walk_start) as [w| | | |] eqn:Hloop; simpl; try discriminate.
  destruct (consumed w =? String.length normalized)%nat eqn:Hall; [|discriminate].
  apply Nat.eqb_eq in Hall.
  intros H. injection H as <-. simpl.
  destruct (populate_loop_tiles sp input norm_to_orig _ _ _
              (walk_start_tiles input norm_to_orig) Hloop) as [Hspans [Hchain Hcur]].
  split; [exact Hchain|]. split.
  - intros Hne. destruct Hcur as [[Hnil _] | Hcur]; [contradiction|].
    rewrite <- Hall. exact Hcur.
  - apply (surfaces_of_chain input (added w) _ Hspans Hchain).
Qed.

Lemma Encode_spans_tile_witness :
  exists spt, Encode Toy.sp_bytes "axyb" = Ret spt
    /\ spans_chained (nth 0 (seq 0 5) O) (pieces spt)
    /\ (pieces spt <> [] ->
        nth_error (seq 0 5) (String.length "axyb")
        = Some (chain_end (nth 0 (seq 0 5) O) (pieces spt)))
    /\ surfaces (pieces spt)
       = substring (nth 0 (seq 0 5) O)
           (chain_end (nth 0 (seq 0 5) O) (pieces spt) - nth 0 (seq 0 5) O) "axyb".
Proof.
  eexists. split; [reflexivity|].
  apply (Encode_spans_tile Toy.sp_bytes Toy.identity "axyb" OkStatus "axyb" (seq 0 5));
    reflexivity.
Defined.

(** ** The encode walk: unknown pieces in a row *)

(** X10.  Without byte fallback, an unknown piece that follows an
    unknown piece adds no record: it is merged into the last one, whose
    piece and surface grow by the piece and its surface and whose [end]
    moves to the end of the piece, while its id and [begin] stay. *)
Theorem unknown_piece_is_merged (sp : SentencePieceProcessor) (m : ModelInterface.t)
    (input : string) (norm_to_orig : list nat) (st : walk)
    (before : list SentencePiece) (last : SentencePiece)
    (w : string) (id : Z) (orig_begin orig_end : nat) :
  model_ sp = Some m ->
  ModelInterface.ByteFallbackEnabled m = false ->
  IsUnknown sp id = true ->
  is_prev_unk st = true ->
  added st = before ++ [last] ->
  w <> "" ->
  nth_error norm_to_orig (consumed st) = Some orig_begin ->
  nth_error norm_to_orig (consumed st + String.length w) = Some orig_end ->
  (orig_begin <= orig_end <= String.length input)%nat ->
  populate_piece sp input norm_to_orig st (w, id)
  = Ret {| consumed := consumed st + String.length w; is_prev_unk := true;
           added := before
                    ++ [{| piece := (piece last ++ w)%string;
                           id := SentencePieceText.id last;
                           surface := (surface last
                                       ++ substring orig_begin (orig_end - orig_begin) input)%string;
                           begin_ := begin_ last; end_ := orig_end |}] |}.
Proof.
  intros Hm Hbf Hunk Hprev Hadded Hw Hb He [Hle Hin].
  unfold populate_piece, CHECK_OR_RETURN. simpl fst. simpl snd.
  rewrite (string_empty_false w Hw). simpl negb. cbv iota.
  rewrite (IsUnknown_not_IsControl sp id Hunk), Hunk.
  assert (Hlt1 : (consumed st <? List.length norm_to_orig)%nat = true).
  { apply Nat.ltb_lt. apply nth_error_Some. congruence. }
  assert (Hlt2 : (consumed st + String.length w <? List.length norm_to_orig)%nat = true).
  { apply Nat.ltb_lt. apply nth_error_Some. congruence. }
  rewrite Hlt1, Hlt2. unfold offset_at. rewrite Hb, He. simpl bind.
  assert (H1 : (orig_begin <=? String.length input)%nat = true)
    by (apply Nat.leb_le; lia).
  assert (H2 : (orig_end <=? String.length input)%nat = true)
    by (apply Nat.leb_le; lia).
  assert (H3 : (orig_begin <=? orig_end)%nat = true) by (apply Nat.leb_le; lia).
  rewrite H1, H2, H3, Hm. simpl deref. rewrite bind_Ret, Hbf.
  unfold merge_or_add. rewrite Hprev. cbn [andb].
  rewrite Hadded, update_last_piece_snoc, bind_Ret. reflexivity.
Qed.

Lemma unknown_piece_is_merged_witness :
  populate_piece Toy.sp_bytes "axyb" [0; 1; 2; 3; 4]%nat
    {| consumed := 2; is_prev_unk := true;
       added := [] ++ [{| piece := "x"; id := 0; surface := "x";
                          begin_ := 1; end_ := 2 |}] |} ("y", 0)
  = Ret {| consumed := 2 + String.length "y"; is_prev_unk := true;
           added := []
                    ++ [{| piece := "x" ++ "y"; id := 0;
                           surface := "x" ++ substring 2 (3 - 2) "axyb";
                           begin_ := 1; end_ := 3 |}] |}.
Proof.
  apply (unknown_piece_is_merged Toy.sp_bytes Toy.model_bytes "axyb" [0; 1; 2; 3; 4]%nat
           {| consumed := 2; is_prev_unk := true;
              added := [] ++ [{| piece := "x"; id := 0; surface := "x";
                                 begin_ := 1; end_ := 2 |}] |}
           [] {| piece := "x"; id := 0; surface := "x"; begin_ := 1; end_ := 2 |}
           "y" 0 2%nat 3%nat).
  - reflexivity.
  - reflexivity.
  - reflexivity.
  - reflexivity.
  - reflexivity.
  - discriminate.
  - reflexivity.
  - reflexivity.
  - simpl. lia.
Defined.

(** ** Extra options *)

Lemma populate_loop_options (sp : SentencePieceProcessor) (opts : list ExtraOption)
    (input : string) (norm_to_orig : list nat) (result : EncodeResult) :
  forall st,
    populate_loop (set_encode_extra_options sp opts) input norm_to_orig result st
    = populate_loop sp input norm_to_orig result st.
Proof.
  induction result as [|p rest IH]; intros st; [reflexivity|].
  cbn [populate_loop].
  change (populate_piece (set_encode_extra_options sp opts) input norm_to_orig st p)
    with (populate_piece sp input norm_to_orig st p).
  destruct (populate_piece sp input norm_to_orig st p); simpl; auto.
Qed.

Lemma ApplyExtraOptions_options (sp : SentencePieceProcessor) (opts : list ExtraOption)
    (extra_options : list ExtraOption) :
  forall ps,
    ApplyExtraOptions (set_encode_extra_options sp opts) extra_options ps
    = ApplyExtraOptions sp extra_options ps.
Proof.
  induction extra_options as [|o rest IH]; intros ps; [reflexivity|].
  cbn [ApplyExtraOptions].
  change (ApplyExtraOption (set_encode_extra_options sp opts) o ps)
    with (ApplyExtraOption sp o ps).
  destruct (ApplyExtraOption sp o ps); simpl; auto.
Qed.

(** X11.  The encode extra options act on the finished walk and on
    nothing else: encoding with options is encoding without any, then
    applying the options to the records. *)
Theorem Encode_applies_extra_options_last (sp : SentencePieceProcessor)
    (opts : list ExtraOption) (input : string) :
  Encode (set_encode_extra_options sp opts) input
  = (spt <- Encode (set_encode_extra_options sp []) input ;;
     ps <- ApplyExtraOptions sp opts (pieces spt) ;;
     Ret {| text := text spt; pieces := ps |}).
Proof.
  unfold Encode, RETURN_IF_ERROR.
  change (status (set_encode_extra_options sp opts)) with (status sp).
  change (status (set_encode_extra_options sp [])) with (status sp).
  destruct (ok (status sp)); [|reflexivity].
  change (normalizer_ (set_encode_extra_options sp opts)) with (normalizer_ sp).
  change (normalizer_ (set_encode_extra_options sp [])) with (normalizer_ sp).
  destruct (normalizer_ sp) as [n|]; [|reflexivity]. simpl deref. rewrite !bind_Ret.
  destruct (normalizer.Normalize n input) as [[st normalized] norm_to_orig].
  destruct (ok st); [|reflexivity].
  change (model_ (set_encode_extra_options sp opts)) with (model_ sp).
  change (model_ (set_encode_extra_options sp [])) with (model_ sp).
  destruct (model_ sp) as [m|]; [|reflexivity]. simpl deref. rewrite !bind_Ret.
  unfold PopulateSentencePieceText, CHECK_OR_RETURN.
  rewrite !populate_loop_options.
  destruct (populate_loop sp input norm_to_orig (ModelInterface.Encode m normalized)
              walk_start) as [w| | | |]; try reflexivity.
  rewrite !bind_Ret.
  destruct (consumed w =? String.length normalized)%nat; [|reflexivity].
  change (encode_extra_options_ (set_encode_extra_options sp opts)) with opts.
  change (encode_extra_options_ (set_encode_extra_options sp [])) with (@nil ExtraOption).
  rewrite ApplyExtraOptions_options. cbn [ApplyExtraOptions]. rewrite !bind_Ret.
  cbn [pieces text].
  destruct (ApplyExtraOptions sp opts (added w)); reflexivity.
Qed.

(** X12.  On a processor with a model the extra options never fail,
    never drop a record and never change one: what comes out is a
    rearrangement of the records that went in and of one BOS or EOS
    record for every [BOS] or [EOS] option. *)
Theorem ApplyExtraOptions_keeps_records (sp : SentencePieceProcessor)
    (m : ModelInterface.t) (extra_options : list ExtraOption)
    (ps : list SentencePiece) :
  model_ sp = Some m ->
  exists ps',
    ApplyExtraOptions sp extra_options ps = Ret ps'
    /\ Permutation ps' (ps ++ flat_map (added_by sp m) extra_options).
Proof.
  intros Hm. revert ps.
  induction extra_options as [|o rest IH]; intros ps.
  - exists ps. split; [reflexivity|]. simpl. rewrite app_nil_r. apply Permutation_refl.
  - destruct o; cbn [ApplyExtraOptions ApplyExtraOption flat_map added_by];
      rewrite ?Hm; simpl deref; rewrite ?bind_Ret.
    + destruct (IH (rev ps)) as [ps' [Hps' Hperm]]. exists ps'. split; [exact Hps'|].
      eapply Permutation_trans; [exact Hperm|].
      apply Permutation_app_tail. apply Permutation_sym, Permutation_rev.
    + destruct (IH ({| piece := ModelInterface.bos_piece m;
                       id := PieceToId sp (string_view_of_c_str (ModelInterface.bos_piece m));
                       surface := ""; begin_ := 0; end_ := 0 |} :: ps))
        as [ps' [Hps' Hperm]].
      exists ps'. split; [exact Hps'|].
      eapply Permutation_trans; [exact Hperm|].
      simpl. apply Permutation_cons_app. apply Permutation_refl.
    + destruct (IH (ps ++ [{| piece := ModelInterface.eos_piece m;
                              id := PieceToId sp (string_view_of_c_str (ModelInterface.eos_piece m));
                              surface := ""; begin_ := 0; end_ := 0 |}]))
        as [ps' [Hps' Hperm]].
      exists ps'. split; [exact Hps'|].
      eapply Permutation_trans; [exact Hperm|].
      rewrite <- app_assoc. apply Permutation_refl.
Qed.

Lemma ApplyExtraOptions_keeps_records_witness :
  exists ps',
    ApplyExtraOptions Toy.sp [BOS; REVERSE; EOS]
      [{| piece := "a"; id := 15; surface := "a"; begin_ := 0; end_ := 1 |}] = Ret ps'
    /\ Permutation ps'
         ([{| piece := "a"; id := 15; surface := "a"; begin_ := 0; end_ := 1 |}]
          ++ flat_map (added_by Toy.sp (Toy.model true true false)) [BOS; REVERSE; EOS]).
Proof.
  apply (ApplyExtraOptions_keeps_records Toy.sp (Toy.model true true false)).
  reflexivity.
Defined.

(** ** N-best encoding *)

Lemma NBestEncode_loop_spec (sp : SentencePieceProcessor) (input normalized : string)
    (norm_to_orig : list nat) (nbests : NBestEncodeResult) :
  forall spts,
    NBestEncode_loop sp input normalized norm_to_orig nbests = Ret spts
    <-> Forall2 (walk_of_candidate sp input normalized norm_to_orig) spts nbests.
Proof.
  induction nbests as [|candidate rest IH]; intros spts; cbn [NBestEncode_loop].
  - split.
    + intros H. injection H as <-. constructor.
    + intros H. inversion H. reflexivity.
  - split.
    + intros H.
      destruct (PopulateSentencePieceText sp input normalized norm_to_orig (fst candidate))
        as [spt| | | |] eqn:Hspt; simpl in H; try discriminate.
      destruct (NBestEncode_loop sp input normalized norm_to_orig rest)
        as [more| | | |] eqn:Hmore; simpl in H; try discriminate.
      injection H as <-. constructor.
      * split; [exact Hspt | reflexivity].
      * apply IH. reflexivity.
    + intros H. inversion H as [|entry c more r [Hspt Hscore] Hrest]; subst.
      rewrite Hspt, bind_Ret. apply IH in Hrest. rewrite Hrest, bind_Ret.
      destruct entry as [spt score]. simpl in *. subst. reflexivity.
Qed.

(** X13.  On a loaded processor whose normalizer accepts the input,
    [NBestEncode] answers with a result exactly when the model offers
    n-best encoding, returns at least one candidate, and every candidate
    gets through the walk; the result then holds one entry for every
    candidate, in the model's order, each the walk of its candidate with
    the candidate's score. *)
Theorem NBestEncode_walks_every_candidate (sp : SentencePieceProcessor)
    (m : ModelInterface.t) (n : normalizer.Normalizer) (input : string)
    (nbest_size : Z) (normalized : string) (norm_to_orig : list nat)
    (spts : NBestSentencePieceText) :
  model_ sp = Some m -> normalizer_ sp = Some n -> ok (status sp) = true ->
  normalizer.Normalize n input = (OkStatus, normalized, norm_to_orig) ->
  NBestEncode sp input nbest_size = Ret spts
  <-> (ModelInterface.IsNBestEncodeAvailable m = true
       /\ ModelInterface.NBestEncode m normalized nbest_size <> []
       /\ Forall2 (walk_of_candidate sp input normalized norm_to_orig) spts
            (ModelInterface.NBestEncode m normalized nbest_size)).
Proof.
  intros Hm Hn Hs Hnorm. unfold NBestEncode, RETURN_IF_ERROR, CHECK_OR_RETURN.
  rewrite Hs, Hn. simpl deref. rewrite bind_Ret, Hnorm. simpl ok. cbv iota.
  rewrite Hm. simpl deref. rewrite bind_Ret.
  destruct (ModelInterface.IsNBestEncodeAvailable m).
  - destruct (ModelInterface.NBestEncode m normalized nbest_size) as [|c rest] eqn:Hnb.
    + simpl. split; [discriminate|]. intros [_ [H _]]. congruence.
    + cbn [List.length Nat.eqb negb]. rewrite NBestEncode_loop_spec.
      split.
      * intros H. repeat split; [discriminate | exact H].
      * intros [_ [_ H]]. exact H.
  - split; [discriminate|]. intros [H _]. discriminate.
Qed.

Lemma NBestEncode_walks_every_candidate_witness :
  NBestEncode Toy.sp "ab" 2
  = Ret [({| text := "ab";
             pieces := [{| piece := "ab"; id := 17; surface := "ab";
                           begin_ := 0; end_ := 2 |}] |}, 0%float)]
  <-> (ModelInterface.IsNBestEncodeAvailable (Toy.model true true false) = true
       /\ ModelInterface.NBestEncode (Toy.model true true false) "ab" 2 <> []
       /\ Forall2 (walk_of_candidate Toy.sp "ab" "ab" (seq 0 3))
            [({| text := "ab";
                 pieces := [{| piece := "ab"; id := 17; surface := "ab";
                               begin_ := 0; end_ := 2 |}] |}, 0%float)]
            (ModelInterface.NBestEncode (Toy.model true true false) "ab" 2)).
Proof.
  apply (NBestEncode_walks_every_candidate Toy.sp (Toy.model true true false)
           Toy.identity "ab" 2 "ab" (seq 0 3)); reflexivity.
Defined.

(** ** Accessors of a processor that is not ready *)

(** X14.  On a processor whose status is not OK the accessors answer
    with their defaults, so a special piece resolves to id [0] that is
    never of the wanted type: with a model in place [unk_id], [bos_id],
    [eos_id] and [pad_id] all return [-1]; with no model at all they
    dereference the null [model_]. *)
Theorem special_ids_not_ready (sp : SentencePieceProcessor) :
  ok (status sp) = false ->
  (forall piece id,
     PieceToId sp piece = 0 /\ IdToPiece sp id = "" /\ GetPieceSize sp = 0
     /\ IsControl sp id = false /\ IsUnknown sp id = false
     /\ IsUnused sp id = false /\ IsByte sp id = false)
  /\ (model_ sp <> None ->
      unk_id sp = Ret (-1) /\ bos_id sp = Ret (-1)
      /\ eos_id sp = Ret (-1) /\ pad_id sp = Ret (-1))
  /\ (model_ sp = None ->
      unk_id sp = Undefined /\ bos_id sp = Undefined
      /\ eos_id sp = Undefined /\ pad_id sp = Undefined).
Proof.
  intros Hs. split; [|split].
  - intros piece id.
    unfold PieceToId, IdToPiece, GetPieceSize, IsControl, IsUnknown, IsUnused, IsByte,
      with_model. rewrite Hs. repeat split.
  - intros Hm. destruct (model_ sp) as [m|] eqn:Em; [|congruence].
    unfold unk_id, bos_id, eos_id, pad_id, IsControl, IsUnknown, PieceToId, with_model.
    rewrite Em, Hs. simpl. repeat split.
  - intros Hm. unfold unk_id, bos_id, eos_id, pad_id. rewrite Hm. repeat split.
Qed.

Lemma special_ids_not_ready_witness :
  (forall piece id,
     PieceToId Sample.not_ready piece = 0 /\ IdToPiece Sample.not_ready id = ""
     /\ GetPieceSize Sample.not_ready = 0
     /\ IsControl Sample.not_ready id = false /\ IsUnknown Sample.not_ready id = false
     /\ IsUnused Sample.not_ready id = false /\ IsByte Sample.not_ready id = false)
  /\ (model_ Sample.not_ready <> None ->
      unk_id Sample.not_ready = Ret (-1) /\ bos_id Sample.not_ready = Ret (-1)
      /\ eos_id Sample.not_ready = Ret (-1) /\ pad_id Sample.not_ready = Ret (-1))
  /\ (model_ Sample.not_ready = None ->
      unk_id Sample.not_ready = Undefined /\ bos_id Sample.not_ready = Undefined
      /\ eos_id Sample.not_ready = Undefined /\ pad_id Sample.not_ready = Undefined).
Proof.
  apply (special_ids_not_ready Sample.not_ready). reflexivity.
Defined.

(** ** Parsing extra options *)

Lemma StrSplit_scan_field (delim : ascii) (s : string) :
  free_of delim s = true ->
  forall rest field,
    StrSplit_scan delim (s ++ rest) field = StrSplit_scan delim rest (field ++ s).
Proof.
  induction s as [|c s IH]; intros Hfree rest field.
  - simpl. rewrite append_nil_r. reflexivity.
  - simpl in Hfree. apply andb_true_iff in Hfree. destruct Hfree as [Hc Hs].
    apply negb_true_iff in Hc. cbn [append StrSplit_scan]. rewrite Hc.
    rewrite (IH Hs). rewrite append_assoc. reflexivity.
Qed.

(** Splitting a colon-joined list of non-empty, colon-free fields gives
    the fields back. *)
Lemma StrSplit_concat (delim : ascii) (fields : list string) :
  Forall (fun f => free_of delim f = true /\ f <> "") fields ->
  StrSplit (String.concat (String delim "") fields) delim = fields.
Proof.
  unfold StrSplit. induction fields as [|f rest IH]; intros Hall; [reflexivity|].
  apply Forall_cons_iff in Hall. destruct Hall as [[Hfree Hne] Hrest].
  destruct rest as [|g rest].
  - simpl String.concat. rewrite <- (append_nil_r f) at 1.
    rewrite StrSplit_scan_field by exact Hfree. simpl.
    destruct f; [congruence | reflexivity].
  - change (String.concat (String delim "") (f :: g :: rest))
      with (f ++ String delim "" ++ String.concat (String delim "") (g :: rest))%string.
    rewrite StrSplit_scan_field by exact Hfree.
    cbn [append StrSplit_scan]. rewrite Ascii.eqb_refl. simpl append.
    rewrite (IH Hrest). reflexivity.
Qed.

Lemma ExtraOption_names (extra_options : list ExtraOption) :
  Forall (fun f => free_of ":" f = true /\ f <> "") (map ExtraOption_name extra_options).
Proof.
  induction extra_options as [|o rest IH]; [constructor|].
  constructor; [|exact IH]. destruct o; split; (reflexivity || discriminate).
Qed.

Lemma extra_option_map_name (o : ExtraOption) : extra_option_map (ExtraOption_name o) = Some o.
Proof. destruct o; reflexivity. Qed.

Lemma spell_extra_options_empty (extra_options : list ExtraOption) :
  string_empty (spell_extra_options extra_options)
  = match extra_options with [] => true | _ :: _ => false end.
Proof.
  destruct extra_options as [|o rest]; [reflexivity|].
  unfold spell_extra_options. destruct rest as [|o' rest]; destruct o; reflexivity.
Qed.

(** The loop accepts the fields exactly when each of them names an option
    whose special piece is known, and then leaves these options after the
    ones it started with. *)
Lemma ParseExtraOptions_loop_accepts (sp : SentencePieceProcessor)
    (m : ModelInterface.t) (fields : list string) :
  model_ sp = Some m ->
  forall acc out,
    ParseExtraOptions_loop sp fields acc = Ret (OkStatus, out)
    <-> exists opts,
          out = acc ++ opts
          /\ map extra_option_map fields = map Some opts
          /\ forallb (special_piece_known sp m) opts = true.
Proof.
  intros Hm. induction fields as [|f rest IH]; intros acc out.
  - cbn [ParseExtraOptions_loop]. split.
    + intros H. injection H as <-. exists []. rewrite app_nil_r. repeat split.
    + intros [opts [-> [Hmap _]]]. destruct opts; [|discriminate].
      rewrite app_nil_r. reflexivity.
  - cbn [ParseExtraOptions_loop]. destruct (extra_option_map f) as [o|] eqn:Hf.
    + assert (Hstep :
        (if ExtraOption_eqb o BOS
         then check_special_piece sp ModelInterface.bos_piece (acc ++ [o])
                (if ExtraOption_eqb o EOS
                 then check_special_piece sp ModelInterface.eos_piece (acc ++ [o])
                        (ParseExtraOptions_loop sp rest (acc ++ [o]))
                 else ParseExtraOptions_loop sp rest (acc ++ [o]))
         else if ExtraOption_eqb o EOS
              then check_special_piece sp ModelInterface.eos_piece (acc ++ [o])
                     (ParseExtraOptions_loop sp rest (acc ++ [o]))
              else ParseExtraOptions_loop sp rest (acc ++ [o]))
        = if special_piece_known sp m o
          then ParseExtraOptions_loop sp rest (acc ++ [o])
          else match o with
               | BOS => Ret (InternalError ("id for `" ++ ModelInterface.bos_piece m
                                            ++ "` is not defined."), acc ++ [o])
               | _ => Ret (InternalError ("id for `" ++ ModelInterface.eos_piece m
                                          ++ "` is not defined."), acc ++ [o])
               end).
      { destruct o; cbn [ExtraOption_eqb special_piece_known];
          unfold check_special_piece; rewrite ?Hm; simpl deref; rewrite ?bind_Ret;
          try reflexivity;
          match goal with |- context [negb ?b] => destruct b end; reflexivity. }
      cbv zeta. rewrite Hstep.
      destruct (special_piece_known sp m o) eqn:Hknown.
      * rewrite IH. split.
        -- intros [opts [-> [Hmap Hall]]]. exists (o :: opts).
           rewrite <- app_assoc. split; [reflexivity|]. split.
           ++ simpl. rewrite Hf, Hmap. reflexivity.
           ++ simpl. rewrite Hknown. exact Hall.
        -- intros [opts [-> [Hmap Hall]]].
           destruct opts as [|o' opts]; [discriminate|].
           simpl in Hmap. rewrite Hf in Hmap. injection Hmap as Ho Hmap. subst o'.
           simpl in Hall. apply andb_true_iff in Hall. destruct Hall as [_ Hall].
           exists opts. rewrite <- app_assoc. split; [reflexivity|].
           split; assumption.
      * split.
        -- intros H. destruct o; discriminate.
        -- intros [opts [_ [Hmap Hall]]].
           destruct opts as [|o' opts]; [discriminate|].
           simpl in Hmap. rewrite Hf in Hmap. injection Hmap as Ho Hmap. subst o'.
           simpl in Hall. rewrite Hknown in Hall. discriminate.
    + split; [discriminate|].
      intros [opts [_ [Hmap _]]]. simpl in Hmap. rewrite Hf in Hmap.
      destruct opts; discriminate.
Qed.

(** X15.  On a processor that holds a model, [ParseExtraOptions] accepts
    an option string exactly in two cases: the string is empty, and the
    options are then none, whatever the status of the processor; or the
    processor is ready, every
    colon-separated field is one of [bos], [eos] and [reverse], and the
    BOS and EOS pieces that are asked for resolve to ids that are not
    unknown.  The options are then the fields in order. *)
Theorem ParseExtraOptions_accepts (sp : SentencePieceProcessor) (m : ModelInterface.t)
    (extra_option : string) (extra_options : list ExtraOption) :
  model_ sp = Some m ->
  ParseExtraOptions sp extra_option = Ret (OkStatus, extra_options)
  <-> (extra_option = "" /\ extra_options = [])
      \/ (extra_option <> ""
          /\ ok (status sp) = true
          /\ map extra_option_map (StrSplit extra_option ":") = map Some extra_options
          /\ forallb (special_piece_known sp m) extra_options = true).
Proof.
  intros Hm. unfold ParseExtraOptions. cbv zeta.
  destruct extra_option as [|c t].
  - simpl. split.
    + intros H. injection H as <-. left. split; reflexivity.
    + intros [[_ ->] | [H _]]; [reflexivity | congruence].
  - cbn [string_empty]. destruct (ok (status sp)) eqn:Hs; cbn [negb].
    + rewrite (ParseExtraOptions_loop_accepts sp m _ Hm). split.
      * intros [opts [Hout [Hmap Hall]]]. simpl in Hout. subst opts.
        right. repeat split; [discriminate | assumption | assumption].
      * intros [[H _] | [_ [_ [Hmap Hall]]]]; [discriminate|].
        exists extra_options. repeat split; assumption.
    + split.
      * intros H. injection H as H _. rewrite H in Hs. discriminate.
      * intros [[H _] | [_ [H _]]]; discriminate.
Qed.

Lemma ParseExtraOptions_accepts_witness :
  ParseExtraOptions Toy.sp "bos:reverse" = Ret (OkStatus, [BOS; REVERSE])
  <-> ("bos:reverse" = "" /\ [BOS; REVERSE] = [])
      \/ ("bos:reverse" <> ""
          /\ ok (status Toy.sp) = true
          /\ map extra_option_map (StrSplit "bos:reverse" ":") = map Some [BOS; REVERSE]
          /\ forallb (special_piece_known Toy.sp (Toy.model true true false))
               [BOS; REVERSE] = true).
Proof.
  apply (ParseExtraOptions_accepts Toy.sp (Toy.model true true false)). reflexivity.
Defined.

(** X16.  Option strings are read back: on a ready processor whose BOS
    and EOS pieces, where asked for, resolve to ids that are not unknown,
    the colon-joined names of any list of options parse to that list. *)
Theorem ParseExtraOptions_reads_spelling (sp : SentencePieceProcessor)
    (m : ModelInterface.t) (extra_options : list ExtraOption) :
  model_ sp = Some m -> ok (status sp) = true ->
  forallb (special_piece_known sp m) extra_options = true ->
  ParseExtraOptions sp (spell_extra_options extra_options)
  = Ret (OkStatus, extra_options).
Proof.
  intros Hm Hs Hall. unfold ParseExtraOptions. cbv zeta.
  rewrite spell_extra_options_empty. destruct extra_options as [|o rest]; [reflexivity|].
  rewrite Hs. cbn [negb].
  apply (ParseExtraOptions_loop_accepts sp m _ Hm). exists (o :: rest).
  repeat split; [|exact Hall].
  unfold spell_extra_options. rewrite StrSplit_concat by apply ExtraOption_names.
  rewrite map_map. apply map_ext. intros a. apply extra_option_map_name.
Qed.

Lemma ParseExtraOptions_reads_spelling_witness :
  ParseExtraOptions Toy.sp (spell_extra_options [REVERSE; BOS; EOS])
  = Ret (OkStatus, [REVERSE; BOS; EOS]).
Proof.
  apply (ParseExtraOptions_reads_spelling Toy.sp (Toy.model true true false));
    reflexivity.
Defined.

Lemma ParseExtraOptions_loop_cons (sp : SentencePieceProcessor) (m : ModelInterface.t)
    (f : string) (o : ExtraOption) (rest : list string) (acc : list ExtraOption) :
  model_ sp = Some m ->
  extra_option_map f = Some o ->
  special_piece_known sp m o = true ->
  ParseExtraOptions_loop sp (f :: rest) acc = ParseExtraOptions_loop sp rest (acc ++ [o]).
Proof.
  intros Hm Hf Hknown. cbn [ParseExtraOptions_loop]. rewrite Hf. cbv zeta.
  destruct o; cbn [ExtraOption_eqb special_piece_known] in *;
    unfold check_special_piece; rewrite ?Hm; simpl deref; rewrite ?bind_Ret;
    rewrite ?Hknown; reflexivity.
Qed.

Lemma ParseExtraOptions_loop_accepted (sp : SentencePieceProcessor) (m : ModelInterface.t)
    (accepted : list ExtraOption) (rest : list string) :
  model_ sp = Some m ->
  forallb (special_piece_known sp m) accepted = true ->
  forall acc,
    ParseExtraOptions_loop sp (map ExtraOption_name accepted ++ rest) acc
    = ParseExtraOptions_loop sp rest (acc ++ accepted).
Proof.
  intros Hm. induction accepted as [|o accepted IH]; intros Hall acc.
  - simpl. rewrite app_nil_r. reflexivity.
  - simpl in Hall. apply andb_true_iff in Hall. destruct Hall as [Ho Hall].
    cbn [map app].
    rewrite (ParseExtraOptions_loop_cons sp m _ o _ _ Hm (extra_option_map_name o) Ho).
    rewrite (IH Hall). rewrite <- app_assoc. reflexivity.
Qed.

(** X17.  A rejected option string still replaces the stored options.
    When the BOS piece resolves to an unknown id, setting a string whose
    last option is [bos] and whose earlier options are all accepted fails
    with an error status, and the processor is left with the options of
    the string, the rejected [BOS] included. *)
Theorem SetEncodeExtraOptions_stores_rejected_bos (sp : SentencePieceProcessor)
    (m : ModelInterface.t) (accepted : list ExtraOption) :
  model_ sp = Some m -> ok (status sp) = true ->
  forallb (special_piece_known sp m) accepted = true ->
  IsUnknown sp (PieceToId sp (string_view_of_c_str (ModelInterface.bos_piece m))) = true ->
  exists msg,
    SetEncodeExtraOptions sp (spell_extra_options (accepted ++ [BOS]))
    = Ret (InternalError msg, set_encode_extra_options sp (accepted ++ [BOS])).
Proof.
  intros Hm Hs Hall Hunk. unfold SetEncodeExtraOptions, ParseExtraOptions. cbv zeta.
  rewrite spell_extra_options_empty.
  destruct (accepted ++ [BOS]) as [|o l] eqn:Hopts;
    [destruct accepted; discriminate|].
  rewrite <- Hopts. rewrite Hs. cbn [negb].
  unfold spell_extra_options. rewrite StrSplit_concat by apply ExtraOption_names.
  rewrite map_app. rewrite (ParseExtraOptions_loop_accepted sp m accepted _ Hm Hall).
  cbn [map ExtraOption_name ParseExtraOptions_loop app]. cbv zeta.
  change (extra_option_map "bos") with (Some BOS). cbv iota.
  cbn [ExtraOption_eqb]. unfold check_special_piece. rewrite Hm. simpl deref.
  rewrite bind_Ret, Hunk. cbn [negb]. rewrite bind_Ret. cbn [fst snd].
  eexists. reflexivity.
Qed.

Lemma SetEncodeExtraOptions_stores_rejected_bos_witness :
  exists msg,
    SetEncodeExtraOptions Sample.sp_without_bos (spell_extra_options ([REVERSE] ++ [BOS]))
    = Ret (InternalError msg,
           set_encode_extra_options Sample.sp_without_bos ([REVERSE] ++ [BOS])).
Proof.
  apply (SetEncodeExtraOptions_stores_rejected_bos Sample.sp_without_bos
           Sample.model_without_bos [REVERSE]); reflexivity.
Defined.

(** ** Vocabulary constraints *)

Lemma constrain_piece_idempotent (vocab : list string) (p : ModelProto_SentencePiece.t) :
  constrain_piece vocab (constrain_piece vocab p) = constrain_piece vocab p.
Proof.
  unfold constrain_piece.
  destruct (ModelProto_SentencePiece.type p) eqn:Ht; try (rewrite Ht; reflexivity);
    destruct (existsb _ vocab || _)%bool eqn:Hin; simpl; rewrite Hin; reflexivity.
Qed.

(** X18.  Setting the same vocabulary a second time changes nothing. *)
Theorem SetVocabulary_idempotent (sp : SentencePieceProcessor) (v v' : Vocabulary)
    (valid_vocab : list string) :
  SetVocabulary sp v valid_vocab = Ret v' ->
  SetVocabulary sp v' valid_vocab = Ret v'.
Proof.
  unfold SetVocabulary, RETURN_IF_ERROR, CHECK_OR_RETURN.
  destruct (ok (status sp)); [|discriminate].
  destruct (model_proto_ sp); simpl; [|discriminate].
  destruct (model_type v) eqn:Hty; try discriminate;
    intros H; injection H as <-; simpl; rewrite map_map;
    (rewrite (map_ext _ _ (constrain_piece_idempotent valid_vocab)); reflexivity).
Qed.

Lemma SetVocabulary_idempotent_witness :
  exists v', SetVocabulary Toy.sp Sample.vocabulary ["ab"] = Ret v'
    /\ SetVocabulary Toy.sp v' ["ab"] = Ret v'.
Proof.
  eexists. split; [reflexivity|].
  apply (SetVocabulary_idempotent Toy.sp Sample.vocabulary). reflexivity.
Defined.

Lemma release_constrained_piece (vocab : list string) (p : ModelProto_SentencePiece.t) :
  release_piece (constrain_piece vocab p) = after_set_and_reset p.
Proof.
  unfold constrain_piece, after_set_and_reset, release_piece.
  destruct (ModelProto_SentencePiece.type p) eqn:Ht; try (rewrite Ht; reflexivity);
    destruct (existsb _ vocab || _)%bool; reflexivity.
Qed.

(** X19.  Resetting does not bring back what setting changed: after
    [SetVocabulary] and [ResetVocabulary], whatever the vocabulary was,
    the pieces of type CONTROL, UNKNOWN and USER_DEFINED are as before and
    every other piece is NORMAL, also those that were UNUSED or BYTE
    before. *)
Theorem ResetVocabulary_after_SetVocabulary (sp : SentencePieceProcessor)
    (v v' : Vocabulary) (valid_vocab : list string) :
  SetVocabulary sp v valid_vocab = Ret v' ->
  ResetVocabulary sp v'
  = Ret {| model_type := model_type v;
           proto_pieces := map after_set_and_reset (proto_pieces v) |}.
Proof.
  unfold SetVocabulary, ResetVocabulary, RETURN_IF_ERROR, CHECK_OR_RETURN.
  destruct (ok (status sp)); [|discriminate].
  destruct (model_proto_ sp); simpl; [|discriminate].
  destruct (model_type v) eqn:Hty; try discriminate;
    intros H; injection H as <-; simpl; rewrite map_map;
    (rewrite (map_ext _ _ (release_constrained_piece valid_vocab)); reflexivity).
Qed.

Lemma ResetVocabulary_after_SetVocabulary_witness :
  exists v', SetVocabulary Toy.sp Sample.vocabulary ["ab"] = Ret v'
    /\ ResetVocabulary Toy.sp v'
       = Ret {| model_type := model_type Sample.vocabulary;
                proto_pieces := map after_set_and_reset
                                  (proto_pieces Sample.vocabulary) |}.
Proof.
  eexists. split; [reflexivity|].
  apply (ResetVocabulary_after_SetVocabulary Toy.sp Sample.vocabulary _ ["ab"]).
  reflexivity.
Defined.

(** ** Decoding: surfaces, spans and text *)

Lemma surfaces_app (a b : list SentencePiece) :
  surfaces (a ++ b) = (surfaces a ++ surfaces b)%string.
Proof.
  unfold surfaces. induction a as [|r a IH]; simpl; [reflexivity|].
  rewrite IH, append_assoc. reflexivity.
Qed.

Lemma firstn_snoc {A : Type} (a : list A) (x : A) (b : list A) :
  firstn (S (List.length a)) (a ++ x :: b) = a ++ [x].
Proof. induction a as [|y a IH]; simpl; [destruct b; reflexivity | f_equal; exact IH]. Qed.

Lemma update_piece_Ret (ps ps' : list SentencePiece) (index : nat)
    (f : SentencePiece -> SentencePiece) :
  update_piece ps index f = Ret ps' ->
  exists p, nth_error ps index = Some p
    /\ ps' = firstn index ps ++ f p :: skipn (S index) ps
    /\ List.length ps' = List.length ps
    /\ firstn (S index) ps' = firstn index ps ++ [f p].
Proof.
  unfold update_piece. destruct (nth_error ps index) as [p|] eqn:Hp; [|discriminate].
  intros H. injection H as <-. exists p.
  assert (Hlt : (index < List.length ps)%nat) by (apply nth_error_Some; congruence).
  assert (Hlen : List.length (firstn index ps) = index)
    by (rewrite length_firstn; lia).
  repeat split.
  - rewrite length_app. cbn [List.length]. rewrite Hlen.
    change (match ps with [] => [] | _ :: l => skipn index l end)
      with (skipn (S index) ps).
    rewrite length_skipn. lia.
  - rewrite <- Hlen at 1. apply firstn_snoc.
Qed.

(** Setting the surface of the next record extends what is done by one
    record. *)
Lemma SetSurface_tiles (spt spt' : SentencePieceText) (k : nat) (surface : string) :
  tiles_prefix k spt ->
  SetSurface spt k surface = Ret spt' ->
  tiles_prefix (S k) spt' /\ List.length (pieces spt') = List.length (pieces spt).
Proof.
  intros [Hk [Hlen [Hchain [Hend Htext]]]]. unfold SetSurface.
  destruct (update_piece (pieces spt) k _) as [ps| | | |] eqn:Hps; simpl; try discriminate.
  intros H. injection H as <-. cbn [pieces text].
  destruct (update_piece_Ret _ _ _ _ Hps) as [p [Hp [_ [Hsize Hfirst]]]].
  assert (Hlt : (k < List.length (pieces spt))%nat) by (apply nth_error_Some; congruence).
  split; [|exact Hsize]. unfold tiles_prefix. cbn [pieces text]. rewrite Hfirst.
  split; [lia|]. split; [|split; [|split]].
  - apply Forall_app. split; [exact Hlen|]. constructor; [|constructor].
    unfold span_is_surface_length. reflexivity.
  - apply spans_chained_app. split; [exact Hchain|]. simpl. auto.
  - rewrite chain_end_app. simpl. rewrite length_append. reflexivity.
  - rewrite surfaces_app, Htext. unfold surfaces. simpl.
    rewrite append_nil_r. reflexivity.
Qed.

Lemma spread_char_tiles (utf8 : string) (todo : nat) :
  forall i spt r,
    tiles_prefix i spt ->
    spread_char utf8 todo i spt = Ret r ->
    tiles_prefix (fst r) (snd r)
    /\ List.length (pieces (snd r)) = List.length (pieces spt).
Proof.
  induction todo as [|todo IH]; intros i spt r Hok H; cbn [spread_char] in H.
  - injection H as <-. split; [exact Hok | reflexivity].
  - destruct (SetSurface spt i _) as [spt1| | | |] eqn:Hset; simpl in H; try discriminate.
    destruct (SetSurface_tiles _ _ _ _ Hok Hset) as [Hok1 Hlen1].
    destruct (IH _ _ _ Hok1 H) as [Hok2 Hlen2]. split; [exact Hok2 | congruence].
Qed.

Lemma spread_text_tiles (su : string_util.t) (ucs : list Z) :
  forall i spt r,
    tiles_prefix i spt ->
    spread_text su ucs i spt = Ret r ->
    tiles_prefix (fst r) (snd r)
    /\ List.length (pieces (snd r)) = List.length (pieces spt).
Proof.
  induction ucs as [|uc ucs IH]; intros i spt r Hok H; cbn [spread_text] in H.
  - injection H as <-. split; [exact Hok | reflexivity].
  - destruct (uc =? kUnicodeError).
    + destruct (SetSurface spt i _) as [spt1| | | |] eqn:Hset; simpl in H; try discriminate.
      destruct (SetSurface_tiles _ _ _ _ Hok Hset) as [Hok1 Hlen1].
      destruct (IH _ _ _ Hok1 H) as [Hok2 Hlen2]. split; [exact Hok2 | congruence].
    + destruct (spread_char _ _ i spt) as [r1| | | |] eqn:Hchar; simpl in H;
        try discriminate.
      destruct (spread_char_tiles _ _ _ _ _ Hok Hchar) as [Hok1 Hlen1].
      destruct (IH _ _ _ Hok1 H) as [Hok2 Hlen2]. split; [exact Hok2 | congruence].
Qed.

Lemma ProcessBytePieces_tiles (su : string_util.t) (begin end' : nat)
    (spt spt' : SentencePieceText) :
  (begin <= end')%nat ->
  tiles_prefix begin spt ->
  ProcessBytePieces su begin end' spt = Ret spt' ->
  tiles_prefix end' spt' /\ List.length (pieces spt') = List.length (pieces spt).
Proof.
  intros Hle Hok. unfold ProcessBytePieces, CHECK_OR_RETURN.
  destruct (begin <? end')%nat eqn:Hlt.
  - destruct (collect_bytes su (pieces spt) begin (end' - begin) "") as [bytes| | | |];
      simpl; try discriminate.
    destruct (spread_text su _ begin spt) as [r| | | |] eqn:Hspread; simpl;
      try discriminate.
    destruct (fst r =? end')%nat eqn:Hend; [|discriminate].
    apply Nat.eqb_eq in Hend. intros H. injection H as <-.
    destruct (spread_text_tiles _ _ _ _ _ Hok Hspread) as [Hok1 Hlen1].
    rewrite Hend in Hok1. split; assumption.
  - apply Nat.ltb_ge in Hlt. assert (begin = end') by lia. subst end'.
    intros H. injection H as <-. split; [exact Hok | reflexivity].
Qed.

Lemma Decode_loop_tiles (su : string_util.t) (sp : SentencePieceProcessor) (todo : nat) :
  forall i byte_start spt r,
    (byte_start <= i)%nat ->
    tiles_prefix byte_start spt ->
    Decode_loop su sp todo i byte_start spt = Ret r ->
    (fst r <= i + todo)%nat
    /\ tiles_prefix (fst r) (snd r)
    /\ List.length (pieces (snd r)) = List.length (pieces spt).
Proof.
  induction todo as [|todo IH]; intros i byte_start spt r Hle Hok H;
    cbn [Decode_loop] in H.
  - injection H as <-. cbn [fst snd]. split; [lia|]. split; [exact Hok | reflexivity].
  - destruct (iter_deref (pieces spt) i) as [p| | | |]; simpl in H; try discriminate.
    destruct (negb (IsByte sp (SentencePieceText.id p))).
    + destruct (ProcessBytePieces su byte_start i spt) as [spt1| | | |] eqn:Hbytes;
        simpl in H; try discriminate.
      destruct (ProcessBytePieces_tiles _ _ _ _ _ Hle Hok Hbytes) as [Hok1 Hlen1].
      destruct (SetSurface spt1 i _) as [spt2| | | |] eqn:Hset; simpl in H;
        try discriminate.
      destruct (SetSurface_tiles _ _ _ _ Hok1 Hset) as [Hok2 Hlen2].
      destruct (IH (S i) (S i) spt2 r (Nat.le_refl _) Hok2 H) as [Hr [Hok3 Hlen3]].
      split; [lia|]. split; [exact Hok3 | congruence].
    + destruct (IH (S i) byte_start spt r) as [Hr [Hok3 Hlen3]];
        [lia | exact Hok | exact H |].
      split; [lia|]. split; [exact Hok3 | exact Hlen3].
Qed.

Lemma remap_pieces_tiles (orig_to_norm : list (nat * nat)) (normalized : string)
    (ps : list SentencePiece) :
  forall normalized_piece_surface_index text_piece_surface_index last_consumed_byte ps',
    remap_pieces orig_to_norm normalized ps normalized_piece_surface_index
      text_piece_surface_index last_consumed_byte = Ret ps' ->
    spans_chained normalized_piece_surface_index ps'
    /\ Forall span_is_surface_length ps'.
Proof.
  induction ps as [|spiece ps IH]; intros npsi tpsi last ps' H; cbn [remap_pieces] in H.
  - injection H as <-. split; [exact I | constructor].
  - cbv zeta in H.
    destruct (remap_surface orig_to_norm normalized tpsi _ last "") as [r| | | |];
      simpl in H; try discriminate.
    destruct (remap_pieces orig_to_norm normalized ps _ _ (fst r)) as [rest| | | |] eqn:Hrest;
      simpl in H; try discriminate.
    injection H as <-. destruct (IH _ _ _ _ Hrest) as [Hchain Hall].
    split.
    + simpl. split; [reflexivity | exact Hchain].
    + constructor; [reflexivity | exact Hall].
Qed.

(** What [Decode] has assembled when it comes to the denormalizer: all
    the records have their surfaces, and the text is these surfaces. *)
Lemma Decode_assembled (su : string_util.t) (sp : SentencePieceProcessor)
    (pieces : list string) (spt : SentencePieceText) :
  Decode su sp pieces = Ret spt ->
  exists spt1,
    tiles_prefix (List.length (SentencePieceText.pieces spt1)) spt1
    /\ match denormalizer_ sp with
       | Some d => Denormalize d spt1 = Ret spt
       | None => spt1 = spt
       end.
Proof.
  unfold Decode, RETURN_IF_ERROR.
  destruct (ok (status sp)); [|discriminate]. cbv zeta.
  destruct (ApplyExtraOptions sp (decode_extra_options_ sp) _) as [ps| | | |];
    simpl; try discriminate.
  destruct (Decode_loop su sp (List.length ps) 0 0 _) as [r| | | |] eqn:Hloop;
    simpl; try discriminate.
  assert (Hstart : tiles_prefix 0 {| text := ""; SentencePieceText.pieces := ps |}).
  { unfold tiles_prefix. simpl. repeat split; [lia | constructor]. }
  destruct (Decode_loop_tiles _ _ _ _ _ _ _ (Nat.le_refl 0) Hstart Hloop)
    as [Hr [Hok Hlen]].
  simpl in Hr, Hlen.
  destruct (ProcessBytePieces su (fst r) (List.length ps) (snd r)) as [spt1| | | |] eqn:Hbytes;
    simpl; try discriminate.
  destruct (ProcessBytePieces_tiles _ _ _ _ _ Hr Hok Hbytes) as [Hok1 Hlen1].
  intros H. exists spt1. split.
  - replace (List.length (SentencePieceText.pieces spt1)) with (List.length ps)
      by congruence.
    exact Hok1.
  - destruct (denormalizer_ sp); [exact H | congruence].
Qed.

Lemma tiles_prefix_all (spt : SentencePieceText) :
  tiles_prefix (List.length (pieces spt)) spt ->
  spans_chained 0 (pieces spt)
  /\ Forall span_is_surface_length (pieces spt)
  /\ surfaces (pieces spt) = text spt
  /\ chain_end 0 (pieces spt) = String.length (text spt).
Proof.
  intros [_ [Hspan [Hchain [Hend Htext]]]].
  rewrite firstn_all in Hspan, Hchain, Hend, Htext. repeat split; assumption.
Qed.

(** X20.  In every result of [Decode] the spans of the records follow
    one another from [0] without gap or overlap, each as long as the
    surface of its record, byte pieces and denormalizer included; and
    without a denormalizer the text is exactly the surfaces put together,
    so that the last span ends at the length of the text. *)
Theorem Decode_spans_tile (su : string_util.t) (sp : SentencePieceProcessor)
    (pieces : list string) (spt : SentencePieceText) :
  Decode su sp pieces = Ret spt ->
  spans_chained 0 (SentencePieceText.pieces spt)
  /\ Forall span_is_surface_length (SentencePieceText.pieces spt)
  /\ (denormalizer_ sp = None ->
      surfaces (SentencePieceText.pieces spt) = text spt
      /\ chain_end 0 (SentencePieceText.pieces spt) = String.length (text spt)).
Proof.
  intros Hdecode.
  destruct (Decode_assembled su sp pieces spt Hdecode) as [spt1 [Hok Hfinal]].
  destruct (tiles_prefix_all spt1 Hok) as [Hchain [Hspan [Htext Hend]]].
  destruct (denormalizer_ sp) as [d|].
  - unfold Denormalize in Hfinal.
    destruct (normalizer.Normalize d (text spt1)) as [[st normalized] norm_to_orig].
    destruct (remap_pieces _ normalized (SentencePieceText.pieces spt1) 0 0 (-1))
      as [ps'| | | |] eqn:Hremap; simpl in Hfinal; try discriminate.
    injection Hfinal as <-. cbn [SentencePieceText.pieces].
    destruct (remap_pieces_tiles _ _ _ _ _ _ _ Hremap) as [Hchain' Hspan'].
    split; [exact Hchain'|]. split; [exact Hspan' | discriminate].
  - subst spt1. split; [exact Hchain|]. split; [exact Hspan|].
    intros _. split; assumption.
Qed.

Lemma Decode_spans_tile_witness :
  exists spt,
    Decode Sample.bytes_as_chars Toy.sp ["a"; "<0xE2>"; "<0x82>"; "b"] = Ret spt
    /\ spans_chained 0 (pieces spt)
    /\ Forall span_is_surface_length (pieces spt)
    /\ (denormalizer_ Toy.sp = None ->
        surfaces (pieces spt) = text spt
        /\ chain_end 0 (pieces spt) = String.length (text spt)).
Proof.
  eexists. split; [vm_compute; reflexivity|].
  apply (Decode_spans_tile Sample.bytes_as_chars Toy.sp ["a"; "<0xE2>"; "<0x82>"; "b"]).
  vm_compute. reflexivity.
Defined.

(** ** Decoding: the denormalizer's remap *)

Lemma map_find_fresh (key : nat) (m : list (nat * nat)) :
  Forall (fun kv => (fst kv < key)%nat) m -> map_find key m = None.
Proof.
  induction m as [|[k v] m IH]; intros Hall; [reflexivity|].
  apply Forall_cons_iff in Hall. destruct Hall as [Hk Hm]. simpl in Hk.
  cbn [map_find]. destruct (Nat.eqb_spec k key); [lia | apply IH; exact Hm].
Qed.

(** For the identity map [0, 1, ..., n] every offset is bound to itself. *)
Lemma build_orig_to_norm_seq (len : nat) :
  forall i orig_to_norm,
    Forall (fun kv => (fst kv < i)%nat) orig_to_norm ->
    build_orig_to_norm (seq i len) i orig_to_norm
    = orig_to_norm ++ map (fun k => (k, k)) (seq i len).
Proof.
  induction len as [|len IH]; intros i acc Hacc; cbn [seq build_orig_to_norm map].
  - rewrite app_nil_r. reflexivity.
  - rewrite (map_find_fresh i acc Hacc). rewrite IH.
    + rewrite <- app_assoc. reflexivity.
    + apply Forall_app. split.
      * eapply Forall_impl; [|exact Hacc]. intros kv Hkv. cbv beta in *. lia.
      * constructor; [simpl; lia | constructor].
Qed.

Lemma map_find_identity (len : nat) :
  forall i key, (i <= key < i + len)%nat ->
    map_find key (map (fun k => (k, k)) (seq i len)) = Some key.
Proof.
  induction len as [|len IH]; intros i key Hkey; [lia|].
  cbn [seq map map_find]. destruct (Nat.eqb_spec i key) as [->|Hne]; [reflexivity|].
  apply IH. lia.
Qed.

Lemma string_get_some (t : string) :
  forall j, (j < String.length t)%nat -> exists c, String.get j t = Some c.
Proof.
  induction t as [|c t IH]; intros j Hj; [simpl in Hj; lia|].
  destruct j as [|j]; [exists c; reflexivity|]. simpl. apply IH. simpl in Hj. lia.
Qed.

Lemma substring_step (t : string) :
  forall j k c, String.get j t = Some c ->
    substring j (S k) t = String c (substring (S j) k t).
Proof.
  induction t as [|c' t IH]; intros j k c Hget; [discriminate|].
  destruct j as [|j].
  - simpl in Hget. injection Hget as ->. reflexivity.
  - simpl in Hget. cbn [substring]. apply IH. exact Hget.
Qed.

(** Under the identity map the bytes collected for a stretch of the text
    are that stretch. *)
Lemma remap_surface_identity (orig_to_norm : list (nat * nat)) (t : string) :
  (forall key, (key <= String.length t)%nat -> map_find key orig_to_norm = Some key) ->
  forall todo j new_surface,
    (j + todo <= String.length t)%nat ->
    remap_surface orig_to_norm t j todo (Z.of_nat j - 1) new_surface
    = Ret (Z.of_nat (j + todo) - 1, (new_surface ++ substring j todo t)%string).
Proof.
  intros Hmap. induction todo as [|todo IH]; intros j acc Hj; cbn [remap_surface].
  - rewrite Nat.add_0_r, substring_none, append_nil_r. reflexivity.
  - rewrite Hmap by lia.
    replace (Z.to_nat (Z.of_nat j - 1 + 1)) with j by lia.
    replace (Z.to_nat (Z.of_nat (j + 1) - 1 - (Z.of_nat j - 1))) with 1%nat by lia.
    destruct (string_get_some t j) as [c Hc]; [lia|].
    cbn [push_normalized]. unfold string_at. rewrite Hc. rewrite !bind_Ret.
    replace (Z.of_nat (j + 1) - 1) with (Z.of_nat (S j) - 1) by lia.
    rewrite IH by lia.
    rewrite (substring_step t j todo c Hc), append_assoc.
    replace (S j + todo)%nat with (j + S todo)%nat by lia. reflexivity.
Qed.

(** The surfaces of records that tile a text are the stretches of the
    text that their spans delimit. *)
Lemma surfaces_in_text (ps : list SentencePiece) :
  forall pos pre,
    spans_chained pos ps ->
    Forall span_is_surface_length ps ->
    String.length pre = pos ->
    Forall (fun r => surface r
                     = substring (begin_ r) (String.length (surface r))
                         (pre ++ surfaces ps)) ps
    /\ chain_end pos ps = (pos + String.length (surfaces ps))%nat.
Proof.
  induction ps as [|r ps IH]; intros pos pre Hchain Hall Hpre.
  - split; [constructor|]. simpl. lia.
  - destruct Hchain as [Hbegin Hchain].
    apply Forall_cons_iff in Hall. destruct Hall as [Hr Hall].
    unfold span_is_surface_length in Hr.
    assert (Hs : surfaces (r :: ps) = (surface r ++ surfaces ps)%string) by reflexivity.
    destruct (IH (end_ r) (pre ++ surface r)%string Hchain Hall) as [Hrest Hend].
    { rewrite length_append. lia. }
    rewrite Hs. split.
    + constructor.
      * rewrite Hbegin, <- Hpre.
        rewrite <- (Nat.add_0_r (String.length pre)), substring_append_skip.
        rewrite <- (Nat.add_0_r (String.length (surface r))), substring_append_keep.
        rewrite substring_0_0, append_nil_r. reflexivity.
      * rewrite append_assoc in Hrest. exact Hrest.
    + cbn [chain_end]. rewrite Hend, length_append. lia.
Qed.

Lemma remap_pieces_identity (orig_to_norm : list (nat * nat)) (t : string) :
  (forall key, (key <= String.length t)%nat -> map_find key orig_to_norm = Some key) ->
  forall ps pos,
    spans_chained pos ps ->
    Forall span_is_surface_length ps ->
    Forall (fun r => surface r = substring (begin_ r) (String.length (surface r)) t) ps ->
    (chain_end pos ps <= String.length t)%nat ->
    remap_pieces orig_to_norm t ps pos pos (Z.of_nat pos - 1) = Ret ps.
Proof.
  intros Hmap. induction ps as [|r ps IH]; intros pos Hchain Hall Hsurf Hend;
    [reflexivity|].
  destruct Hchain as [Hbegin Hchain].
  apply Forall_cons_iff in Hall. destruct Hall as [Hr Hall].
  apply Forall_cons_iff in Hsurf. destruct Hsurf as [Hs Hsurf].
  unfold span_is_surface_length in Hr. cbn [chain_end] in Hend.
  assert (Hmono : (end_ r <= chain_end (end_ r) ps)%nat).
  { clear - Hchain Hall. revert Hchain Hall. generalize (end_ r).
    induction ps as [|q ps IHps]; intros from Hchain Hall; simpl; [lia|].
    destruct Hchain as [Hb Hc]. apply Forall_cons_iff in Hall. destruct Hall as [Hq Hall].
    unfold span_is_surface_length in Hq. specialize (IHps _ Hc Hall). lia. }
  cbn [remap_pieces]. cbv zeta.
  rewrite (remap_surface_identity orig_to_norm t Hmap) by lia.
  rewrite bind_Ret. cbn [fst snd]. simpl append.
  rewrite Hbegin in Hs. rewrite <- Hs.
  replace (pos + String.length (surface r))%nat with (end_ r) by lia.
  rewrite (IH (end_ r) Hchain Hall Hsurf Hend), bind_Ret.
  destruct r as [rp rid rs rb re]. simpl in *. subst. reflexivity.
Qed.

Lemma ApplyExtraOptions_without_denormalizer (sp : SentencePieceProcessor)
    (extra_options : list ExtraOption) :
  forall ps,
    ApplyExtraOptions (without_denormalizer sp) extra_options ps
    = ApplyExtraOptions sp extra_options ps.
Proof.
  induction extra_options as [|o rest IH]; intros ps; [reflexivity|].
  cbn [ApplyExtraOptions].
  change (ApplyExtraOption (without_denormalizer sp) o ps)
    with (ApplyExtraOption sp o ps).
  destruct (ApplyExtraOption sp o ps); simpl; auto.
Qed.

Lemma Decode_loop_without_denormalizer (su : string_util.t) (sp : SentencePieceProcessor)
    (todo : nat) :
  forall i byte_start spt,
    Decode_loop su (without_denormalizer sp) todo i byte_start spt
    = Decode_loop su sp todo i byte_start spt.
Proof.
  induction todo as [|todo IH]; intros i byte_start spt; [reflexivity|].
  cbn [Decode_loop].
  destruct (iter_deref (pieces spt) i) as [p| | | |]; simpl; try reflexivity.
  change (IsByte (without_denormalizer sp) (SentencePieceText.id p))
    with (IsByte sp (SentencePieceText.id p)).
  destruct (negb (IsByte sp (SentencePieceText.id p))); [|apply IH].
  destruct (ProcessBytePieces su byte_start i spt) as [spt1| | | |]; simpl;
    try reflexivity.
  change (DecodeSentencePiece (without_denormalizer sp)) with (DecodeSentencePiece sp).
  destruct (SetSurface spt1 i _); simpl; try reflexivity. apply IH.
Qed.

(** X21.  A denormalizer that changes nothing changes nothing: when the
    denormalizer returns every text as it is, with the identity offset
    map, [Decode] gives the same text, surfaces and spans as it does
    without denormalizer. *)
Theorem Decode_identity_denormalizer (su : string_util.t) (sp : SentencePieceProcessor)
    (d : normalizer.Normalizer) (pieces : list string) (spt : SentencePieceText) :
  denormalizer_ sp = Some d ->
  (forall t, exists st,
     normalizer.Normalize d t = (st, t, seq 0 (S (String.length t)))) ->
  Decode su (without_denormalizer sp) pieces = Ret spt ->
  Decode su sp pieces = Ret spt.
Proof.
  intros Hd Hid Hdecode.
  destruct (Decode_assembled su (without_denormalizer sp) pieces spt Hdecode)
    as [spt1 [Hok Hsame]].
  cbn [without_denormalizer denormalizer_] in Hsame. subst spt1.
  destruct (tiles_prefix_all spt Hok) as [Hchain [Hall [Hsurf Hend]]].
  revert Hdecode. unfold Decode, RETURN_IF_ERROR.
  change (status (without_denormalizer sp)) with (status sp).
  destruct (ok (status sp)); [|discriminate]. cbv zeta.
  change (PieceToId (without_denormalizer sp)) with (PieceToId sp).
  change (decode_extra_options_ (without_denormalizer sp))
    with (decode_extra_options_ sp).
  rewrite ApplyExtraOptions_without_denormalizer.
  destruct (ApplyExtraOptions sp (decode_extra_options_ sp) _) as [ps| | | |];
    simpl; try discriminate.
  rewrite Decode_loop_without_denormalizer.
  destruct (Decode_loop su sp (List.length ps) 0 0 _) as [r| | | |];
    simpl; try discriminate.
  destruct (ProcessBytePieces su (fst r) (List.length ps) (snd r)) as [spt1| | | |];
    simpl; try discriminate.
  rewrite Hd. intros H. injection H as ->.
  unfold Denormalize. destruct (Hid (text spt)) as [st Hnorm]. rewrite Hnorm.
  rewrite build_orig_to_norm_seq by constructor. rewrite app_nil_l.
  destruct (surfaces_in_text (SentencePieceText.pieces spt) 0 "" Hchain Hall eq_refl)
    as [Hin Hlen].
  simpl append in Hin. rewrite Hsurf in Hin.
  rewrite (remap_pieces_identity _ (text spt)) with (pos := O).
  - rewrite bind_Ret. destruct spt; reflexivity.
  - intros key Hkey. apply map_find_identity. lia.
  - exact Hchain.
  - exact Hall.
  - exact Hin.
  - rewrite Hend. lia.
Qed.

Lemma Decode_identity_denormalizer_witness :
  exists spt,
    Decode Sample.bytes_as_chars (without_denormalizer Sample.sp_denormalized)
      ["a"; "<0xE2>"; "<s>"; "ab"] = Ret spt
    /\ Decode Sample.bytes_as_chars Sample.sp_denormalized ["a"; "<0xE2>"; "<s>"; "ab"]
       = Ret spt.
Proof.
  eexists. split; [vm_compute; reflexivity|].
  apply (Decode_identity_denormalizer Sample.bytes_as_chars Sample.sp_denormalized
           Toy.identity).
  - reflexivity.
  - intros t. exists OkStatus. reflexivity.
  - vm_compute. reflexivity.
Defined.

(** ** Decoding what was folded *)

(** X22.  Decoding folded pieces is decoding the pieces: for a sequence
    without marker pieces, [Decode] of its fold into a string gives what
    the structured [Decode] of the sequence itself gives as its text. *)
Theorem Decode_pieces_of_rle (fuel : nat) (su : string_util.t)
    (sp : SentencePieceProcessor) (p : list string) :
  ~ In kStartRepeat p -> ~ In kEndRepeat p ->
  Z.of_nat (List.length p) <= 999999999 ->
  (List.length p <= fuel)%nat ->
  Decode_pieces fuel su sp (rle p) = (spt <- Decode su sp p ;; Ret (text spt)).
Proof.
  intros Hs He Hmax Hfuel.
  assert (Hunfold : expand_from_pieces fuel (rle p) = Ret p).
  { unfold rle. rewrite wrap_int_small by int_range.
    rewrite Nat2Z.id, firstn_all.
    destruct p as [|first rest].
    - apply expand_from_pieces_no_marker. intros [].
    - simpl List.length in Hmax, Hfuel.
      rewrite <- (app_nil_l (rle_run first 1 rest)).
      rewrite expand_from_pieces_rle_run.
      + reflexivity.
      + intros [].
      + intros [].
      + intros ->. apply Hs. left. reflexivity.
      + intros ->. apply He. left. reflexivity.
      + intros H. apply Hs. right. exact H.
      + intros H. apply He. right. exact H.
      + lia.
      + simpl List.length. int_range.
      + lia. }
  unfold Decode_pieces, RETURN_IF_ERROR. rewrite Hunfold, bind_Ret.
  unfold Decode, RETURN_IF_ERROR. destruct (ok (status sp)); reflexivity.
Qed.

Lemma Decode_pieces_of_rle_witness :
  Decode_pieces 3 Sample.bytes_as_chars Toy.sp (rle ["a"; "a"; "b"])
  = (spt <- Decode Sample.bytes_as_chars Toy.sp ["a"; "a"; "b"] ;; Ret (text spt)).
Proof.
  apply (Decode_pieces_of_rle 3 Sample.bytes_as_chars Toy.sp ["a"; "a"; "b"]).
  - simpl. intros [H|[H|[H|[]]]]; discriminate H.
  - simpl. intros [H|[H|[H|[]]]]; discriminate H.
  - simpl. lia.
  - simpl. lia.
Defined.

(** ** The encode walk: a cursor without offset *)

(** X23.  The control arm of the walk reads [norm_to_orig[consumed]]
    without the bound check that the other arm makes: when the offset map
    has no entry at the cursor (an empty map, say), a control piece is a
    read outside the vector, while any other piece is refused with an
    [Internal] status. *)
Theorem populate_piece_without_offset (sp : SentencePieceProcessor) (input : string)
    (norm_to_orig : list nat) (st : walk) (w : string) (id : Z) :
  w <> "" ->
  nth_error norm_to_orig (consumed st) = None ->
  (IsControl sp id = true ->
   populate_piece sp input norm_to_orig st (w, id) = Undefined)
  /\ (IsControl sp id = false ->
      exists msg,
        populate_piece sp input norm_to_orig st (w, id) = Failed (InternalError msg)).
Proof.
  intros Hw Hnone.
  assert (Hlt : (consumed st <? List.length norm_to_orig)%nat = false).
  { apply Nat.ltb_ge. apply nth_error_None. exact Hnone. }
  split; intros Hctl; unfold populate_piece, CHECK_OR_RETURN; simpl fst; simpl snd;
    rewrite (string_empty_false w Hw); simpl negb; cbv iota; rewrite Hctl.
  - unfold offset_at. rewrite Hnone. reflexivity.
  - rewrite Hlt. eauto.
Qed.

Lemma populate_piece_without_offset_witness :
  (IsControl Toy.sp 1 = true ->
   populate_piece Toy.sp "" [] walk_start ("<s>", 1) = Undefined)
  /\ (IsControl Toy.sp 1 = false ->
      exists msg,
        populate_piece Toy.sp "" [] walk_start ("<s>", 1) = Failed (InternalError msg)).
Proof.
  apply (populate_piece_without_offset Toy.sp "" [] walk_start "<s>" 1).
  - discriminate.
  - reflexivity.
Defined.

(** ** Decoding without byte pieces *)

Lemma update_piece_app_head (done : list SentencePiece) (p : SentencePiece)
    (rest : list SentencePiece) (f : SentencePiece -> SentencePiece) :
  update_piece (done ++ p :: rest) (List.length done) f = Ret (done ++ f p :: rest).
Proof.
  unfold update_piece. rewrite nth_error_app2, Nat.sub_diag by lia. cbn [nth_error].
  rewrite firstn_length_app.
  replace (done ++ p :: rest) with ((done ++ [p]) ++ rest)
    by (rewrite <- app_assoc; reflexivity).
  replace (S (List.length done)) with (List.length (done ++ [p]))
    by (rewrite length_app; simpl; lia).
  rewrite skipn_length_app. reflexivity.
Qed.

(** Without byte pieces the main loop of [Decode] is the left-to-right
    reading. *)
Lemma Decode_loop_byte_free (su : string_util.t) (sp : SentencePieceProcessor)
    (pending : list SentencePiece) :
  Forall (fun r => IsByte sp (SentencePieceText.id r) = false) pending ->
  forall done so_far,
    Decode_loop su sp (List.length pending) (List.length done) (List.length done)
      {| text := so_far; pieces := done ++ pending |}
    = Ret ((List.length done + List.length pending)%nat,
           {| text := text (decode_records sp pending so_far);
              pieces := done ++ pieces (decode_records sp pending so_far) |}).
Proof.
  induction 1 as [|p rest Hp _ IH]; intros done so_far.
  - simpl. rewrite Nat.add_0_r. reflexivity.
  - cbn [List.length Decode_loop pieces text].
    rewrite iter_deref_app_head, bind_Ret, Hp. cbn [negb].
    unfold ProcessBytePieces. rewrite Nat.ltb_irrefl, bind_Ret.
    cbn [pieces text].
    assert (Heos : (List.length done =? List.length (done ++ p :: rest) - 1)%nat
                   = match rest with [] => true | _ :: _ => false end).
    { rewrite length_app. simpl List.length.
      destruct rest as [|q rest]; simpl List.length.
      - apply Nat.eqb_eq. lia.
      - apply Nat.eqb_neq. lia. }
    rewrite Heos. unfold SetSurface. cbn [pieces text].
    rewrite update_piece_app_head, bind_Ret.
    match goal with
    | |- context [done ++ ?r :: rest] =>
        replace (done ++ r :: rest) with ((done ++ [r]) ++ rest)
          by (rewrite <- app_assoc; reflexivity);
        replace (S (List.length done)) with (List.length (done ++ [r]))
          by (rewrite length_app; simpl; lia)
    end.
    rewrite bind_Ret, IH. cbn [decode_records pieces text].
    rewrite length_app, <- app_assoc. simpl List.length. simpl app.
    replace (List.length done + 1 + List.length rest)%nat
      with (List.length done + S (List.length rest))%nat by lia.
    reflexivity.
Qed.

(** X24.  On a ready processor without denormalizer, decoding records
    none of which is a byte piece never fails, and it is the plain
    left-to-right reading: every record takes the surface of its piece at
    the end of the text so far, a piece counting as first as long as the
    text is empty and as last when it is the last record. *)
Theorem Decode_without_byte_pieces (su : string_util.t) (sp : SentencePieceProcessor)
    (pieces : list string) (ps : list SentencePiece) :
  ok (status sp) = true ->
  denormalizer_ sp = None ->
  ApplyExtraOptions sp (decode_extra_options_ sp) (records_of sp pieces) = Ret ps ->
  Forall (fun r => IsByte sp (SentencePieceText.id r) = false) ps ->
  Decode su sp pieces = Ret (decode_records sp ps "").
Proof.
  intros Hs Hd Hps Hall. unfold Decode, RETURN_IF_ERROR. rewrite Hs. cbv zeta.
  fold (records_of sp pieces). rewrite Hps, bind_Ret.
  pose proof (Decode_loop_byte_free su sp ps Hall [] "") as Hloop.
  simpl List.length in Hloop. simpl app in Hloop. rewrite Hloop, bind_Ret.
  cbn [fst snd]. unfold ProcessBytePieces. rewrite Nat.ltb_irrefl, bind_Ret, Hd.
  destruct (decode_records sp ps ""); reflexivity.
Qed.

Lemma Decode_without_byte_pieces_witness :
  Decode Sample.bytes_as_chars Toy.sp ["<s>"; "a"; "ab"]
  = Ret (decode_records Toy.sp (records_of Toy.sp ["<s>"; "a"; "ab"]) "").
Proof.
  apply (Decode_without_byte_pieces Sample.bytes_as_chars Toy.sp ["<s>"; "a"; "ab"]).
  - reflexivity.
  - reflexivity.
  - reflexivity.
  - repeat constructor.
Defined.

(** The same with no decode options: the records are those of the
    pieces. *)
Lemma Decode_plain (su : string_util.t) (sp : SentencePieceProcessor)
    (pieces : list string) :
  ok (status sp) = true ->
  denormalizer_ sp = None ->
  decode_extra_options_ sp = [] ->
  Forall (fun w => IsByte sp (PieceToId sp w) = false) pieces ->
  Decode su sp pieces = Ret (decode_records sp (records_of sp pieces) "").
Proof.
  intros Hs Hd Hopts Hall. unfold Decode, RETURN_IF_ERROR. rewrite Hs, Hopts. cbv zeta.
  fold (records_of sp pieces). cbn [ApplyExtraOptions]. rewrite bind_Ret.
  assert (Hrecords : Forall (fun r => IsByte sp (SentencePieceText.id r) = false)
                       (records_of sp pieces)).
  { unfold records_of. apply Forall_map. exact Hall. }
  pose proof (Decode_loop_byte_free su sp _ Hrecords [] "") as Hloop.
  simpl List.length in Hloop. simpl app in Hloop. rewrite Hloop, bind_Ret.
  cbn [fst snd]. unfold ProcessBytePieces. rewrite Nat.ltb_irrefl, bind_Ret, Hd.
  destruct (decode_records sp (records_of sp pieces) ""); reflexivity.
Qed.

Lemma DecodeSentencePiece_prefix_mode (sp : SentencePieceProcessor) (piece : string)
    (id : Z) (is_bos_ws e1 e2 : bool) :
  whitespace_is_prefix sp = true ->
  DecodeSentencePiece sp piece id is_bos_ws e1
  = DecodeSentencePiece sp piece id is_bos_ws e2.
Proof. intros H. unfold DecodeSentencePiece. rewrite H. reflexivity. Qed.

Lemma decode_records_skip_control (sp : SentencePieceProcessor)
    (ps : list SentencePiece) :
  whitespace_is_prefix sp = true ->
  forall so_far,
    text (decode_records sp ps so_far)
    = text (decode_records sp
              (filter (fun r => negb (IsControl sp (SentencePieceText.id r))) ps) so_far).
Proof.
  intros Hprefix. induction ps as [|p rest IH]; intros so_far; [reflexivity|].
  cbn [decode_records text filter].
  destruct (IsControl sp (SentencePieceText.id p)) eqn:Hctl; cbn [negb].
  - unfold DecodeSentencePiece at 1. rewrite Hctl, append_nil_r. apply IH.
  - cbn [decode_records text].
    rewrite (DecodeSentencePiece_prefix_mode sp _ _ _
               (match rest with [] => true | _ :: _ => false end)
               (match filter (fun r => negb (IsControl sp (SentencePieceText.id r))) rest
                with [] => true | _ :: _ => false end) Hprefix).
    apply IH.
Qed.

Lemma records_of_filter (sp : SentencePieceProcessor) (keep : Z -> bool)
    (pieces : list string) :
  filter (fun r => keep (SentencePieceText.id r)) (records_of sp pieces)
  = records_of sp (filter (fun w => keep (PieceToId sp w)) pieces).
Proof.
  unfold records_of. induction pieces as [|w pieces IH]; [reflexivity|].
  cbn [map filter SentencePieceText.id]. destruct (keep (PieceToId sp w)); cbn [map];
    rewrite IH; reflexivity.
Qed.

(** X25.  Control pieces do not show in the decoded text: when white
    space is a prefix of the pieces, on a ready processor without
    denormalizer and decode options, decoding a sequence without byte
    pieces gives the same text as decoding it with its control pieces
    taken out. *)
Theorem Decode_ignores_control_pieces (su : string_util.t) (sp : SentencePieceProcessor)
    (pieces : list string) :
  ok (status sp) = true ->
  denormalizer_ sp = None ->
  decode_extra_options_ sp = [] ->
  whitespace_is_prefix sp = true ->
  Forall (fun w => IsByte sp (PieceToId sp w) = false) pieces ->
  exists spt spt',
    Decode su sp pieces = Ret spt
    /\ Decode su sp (filter (fun w => negb (IsControl sp (PieceToId sp w))) pieces)
       = Ret spt'
    /\ text spt = text spt'.
Proof.
  intros Hs Hd Hopts Hprefix Hall.
  set (visible := filter (fun w => negb (IsControl sp (PieceToId sp w))) pieces).
  exists (decode_records sp (records_of sp pieces) "").
  exists (decode_records sp (records_of sp visible) "").
  split; [|split].
  - apply (Decode_plain su sp pieces Hs Hd Hopts Hall).
  - apply (Decode_plain su sp visible Hs Hd Hopts).
    apply incl_Forall with (l1 := pieces); [|exact Hall].
    apply incl_filter.
  - rewrite (decode_records_skip_control sp _ Hprefix).
    rewrite (records_of_filter sp (fun id => negb (IsControl sp id))). reflexivity.
Qed.

Lemma Decode_ignores_control_pieces_witness :
  exists spt spt',
    Decode Sample.bytes_as_chars Toy.sp ["<s>"; "a"; "</s>"; "ab"] = Ret spt
    /\ Decode Sample.bytes_as_chars Toy.sp
         (filter (fun w => negb (IsControl Toy.sp (PieceToId Toy.sp w)))
            ["<s>"; "a"; "</s>"; "ab"]) = Ret spt'
    /\ text spt = text spt'.
Proof.
  apply (Decode_ignores_control_pieces Sample.bytes_as_chars Toy.sp
           ["<s>"; "a"; "</s>"; "ab"]).
  - reflexivity.
  - reflexivity.
  - reflexivity.
  - reflexivity.
  - repeat constructor.
Defined.

(** ** Folding a run *)

Lemma rle_run_repeat (cur : string) (tail : list string) (j : nat) :
  forall count,
    1 <= count -> count + Z.of_nat j <= INT_MAX ->
    rle_run cur count (repeat cur j ++ tail) = rle_run cur (count + Z.of_nat j) tail.
Proof.
  induction j as [|j IH]; intros count Hc Hmax.
  - simpl. rewrite Z.add_0_r. reflexivity.
  - cbn [repeat app rle_run]. rewrite String.eqb_refl.
    rewrite wrap_int_small by int_range. rewrite IH by lia. f_equal. lia.
Qed.

Lemma rle_cons (y : string) (rest : list string) :
  Z.of_nat (List.length (y :: rest)) <= INT_MAX ->
  rle (y :: rest) = rle_run y 1 rest.
Proof.
  intros Hmax. unfold rle. rewrite wrap_int_small by int_range.
  rewrite Nat2Z.id, firstn_all. reflexivity.
Qed.

(** X26.  What [rle] does with a run: a piece that stands [k] times in a
    row at the head of the sequence, and not a further time, is written
    once when [k = 1], and otherwise once, followed by the start marker,
    the decimal digits of [k] from the most significant one, each as a
    piece, and the end marker; the rest of the sequence is folded on its
    own. *)
Theorem rle_folds_run (x : string) (k : nat) (tail : list string) :
  (1 <= k)%nat ->
  hd_error tail <> Some x ->
  Z.of_nat (List.length (repeat x k ++ tail)) <= INT_MAX ->
  rle (repeat x k ++ tail) = folded_run x k ++ rle tail.
Proof.
  intros Hk Hhd Hmax. rewrite length_app, repeat_length in Hmax.
  destruct k as [|k]; [lia|]. cbn [repeat app].
  rewrite rle_cons by (simpl List.length; rewrite length_app, repeat_length; lia).
  rewrite rle_run_repeat by lia.
  assert (Hrun : emit_run x (1 + Z.of_nat k) = folded_run x (S k)).
  { unfold emit_run, folded_run. destruct k as [|k]; [reflexivity|].
    assert (H1 : (1 <? 1 + Z.of_nat (S k)) = true) by (apply Z.ltb_lt; lia).
    rewrite H1. cbn [Nat.eqb]. repeat f_equal. lia. }
  destruct tail as [|y rest].
  - cbn [rle_run]. rewrite Hrun.
    change (rle []) with (@nil string). rewrite app_nil_r. reflexivity.
  - cbn [rle_run].
    assert (Hne : String.eqb x y = false).
    { apply String.eqb_neq. intros ->. apply Hhd. reflexivity. }
    rewrite Hne, Hrun. f_equal. symmetry. apply rle_cons.
    simpl List.length in *. lia.
Qed.

Lemma rle_folds_run_witness :
  rle (repeat "a" 12 ++ ["b"; "b"]) = folded_run "a" 12 ++ rle ["b"; "b"].
Proof.
  apply (rle_folds_run "a" 12 ["b"; "b"]).
  - lia.
  - discriminate.
  - vm_compute. discriminate.
Defined.

(** ** Decoding a run of byte pieces *)

Lemma spread_char_index (utf8 : string) (todo : nat) :
  forall i spt r,
    spread_char utf8 todo i spt = Ret r -> fst r = (i + todo)%nat.
Proof.
  induction todo as [|todo IH]; intros i spt r H; cbn [spread_char] in H.
  - injection H as <-. simpl. lia.
  - destruct (SetSurface spt i _) as [spt1| | | |]; simpl in H; try discriminate.
    rewrite (IH _ _ _ H). lia.
Qed.

Lemma spread_text_index (su : string_util.t) (ucs : list Z) :
  forall i spt r,
    spread_text su ucs i spt = Ret r -> fst r = (i + positions_taken su ucs)%nat.
Proof.
  induction ucs as [|uc ucs IH]; intros i spt r H;
    cbn [spread_text positions_taken fold_right] in *.
  - injection H as <-. simpl. lia.
  - fold (positions_taken su ucs). destruct (uc =? kUnicodeError).
    + destruct (SetSurface spt i _) as [spt1| | | |]; simpl in H; try discriminate.
      rewrite (IH _ _ _ H). lia.
    + destruct (spread_char _ _ i spt) as [r1| | | |] eqn:Hchar; simpl in H;
        try discriminate.
      rewrite (IH _ _ _ H), (spread_char_index _ _ _ _ _ Hchar). lia.
Qed.

(** X27.  A run of byte pieces is reassembled only if the characters
    that its bytes decode to take exactly as many positions as the run
    has pieces, a U+FFFD taking one position and any other character as
    many as its UTF-8 bytes: in particular a run of two or more pieces
    whose bytes decode to a single U+FFFD (its own three-byte encoding,
    for instance) is refused. *)
Theorem ProcessBytePieces_takes_every_position (su : string_util.t) (begin end' : nat)
    (spt spt' : SentencePieceText) :
  (begin < end')%nat ->
  ProcessBytePieces su begin end' spt = Ret spt' ->
  exists bytes,
    collect_bytes su (pieces spt) begin (end' - begin) "" = Ret bytes
    /\ positions_taken su (string_util.UTF8ToUnicodeText su bytes) = (end' - begin)%nat
    /\ (string_util.UTF8ToUnicodeText su bytes = [kUnicodeError] -> end' = S begin).
Proof.
  intros Hlt. unfold ProcessBytePieces, CHECK_OR_RETURN.
  apply Nat.ltb_lt in Hlt. rewrite Hlt. apply Nat.ltb_lt in Hlt.
  destruct (collect_bytes su (pieces spt) begin (end' - begin) "") as [bytes| | | |];
    simpl; try discriminate.
  destruct (spread_text su _ begin spt) as [r| | | |] eqn:Hspread; simpl;
    try discriminate.
  destruct (fst r =? end')%nat eqn:Hend; [|discriminate].
  apply Nat.eqb_eq in Hend. intros _.
  pose proof (spread_text_index _ _ _ _ _ Hspread) as Hindex.
  exists bytes. split; [reflexivity|].
  assert (Hcount : positions_taken su (string_util.UTF8ToUnicodeText su bytes)
                   = (end' - begin)%nat) by lia.
  split; [exact Hcount|].
  intros Hone. rewrite Hone in Hcount. simpl in Hcount. lia.
Qed.

Lemma ProcessBytePieces_takes_every_position_witness :
  exists bytes,
    collect_bytes Sample.bytes_as_chars
      (pieces {| text := ""; pieces := records_of Toy.sp ["<0xE2>"; "<0x82>"] |}) 0 (2 - 0) ""
    = Ret bytes
    /\ positions_taken Sample.bytes_as_chars
         (string_util.UTF8ToUnicodeText Sample.bytes_as_chars bytes) = (2 - 0)%nat
    /\ (string_util.UTF8ToUnicodeText Sample.bytes_as_chars bytes = [kUnicodeError] ->
        2%nat = 1%nat).
Proof.
  apply (ProcessBytePieces_takes_every_position Sample.bytes_as_chars 0 2
           {| text := ""; pieces := records_of Toy.sp ["<0xE2>"; "<0x82>"] |}
           {| text := String "226" (String "130" "");
              pieces :=
                [{| piece := "<0xE2>"; id := 18; surface := String "226" "";
                    begin_ := 0; end_ := 1 |};
                 {| piece := "<0x82>"; id := 19; surface := String "130" "";
                    begin_ := 1; end_ := 2 |}] |}).
  - lia.
  - vm_compute. reflexivity.
Defined.
